(** * Laval frontend: the node configuration query client

    A shallow embedding of [packages/frontend/src/App.tsx]: the submit
    handler of the query form, the interpretation of the port-mapping
    payload and the part of the view that depends on them, together with
    the ECMAScript built-ins the component calls ([String.prototype.trim],
    [JSON.parse], [JSON.stringify]). *)

From Stdlib Require Import ZArith List Ascii String Bool Lia.
From stdpp Require Import base option list gmap.

Local Open Scope N_scope.

(** ** ECMAScript strings

    A string value is a finite sequence of 16-bit code units. *)

Abbreviation jsstring := (list N).

Module Utf8.

(** Source files are UTF-8; a string literal of the source denotes the
    UTF-16 code units of the characters it spells. *)

Definition byte_of (a : ascii) : N := N_of_ascii a.

Fixpoint bytes (s : string) : list N :=
  match s with
  | EmptyString => []
  | String a s' => byte_of a :: bytes s'
  end.

Definition cont (b : N) : N := N.land b 0x3F.

Definition code_units (cp : N) : list N :=
  if cp <? 0x10000 then [cp]
  else
    let v := cp - 0x10000 in
    [0xD800 + N.shiftr v 10; 0xDC00 + N.land v 0x3FF].

Fixpoint decode (bs : list N) : list N :=
  match bs with
  | [] => []
  | b0 :: r0 =>
      if b0 <? 0x80 then b0 :: decode r0
      else
        match r0 with
        | [] => [0xFFFD]
        | b1 :: r1 =>
            if b0 <? 0xE0 then
              (N.shiftl (N.land b0 0x1F) 6 + cont b1) :: decode r1
            else
              match r1 with
              | [] => [0xFFFD]
              | b2 :: r2 =>
                  if b0 <? 0xF0 then
                    (N.shiftl (N.land b0 0x0F) 12
                     + N.shiftl (cont b1) 6 + cont b2) :: decode r2
                  else
                    match r2 with
                    | [] => [0xFFFD]
                    | b3 :: r3 =>
                        code_units
                          (N.shiftl (N.land b0 0x07) 18
                           + N.shiftl (cont b1) 12
                           + N.shiftl (cont b2) 6 + cont b3)
                        ++ decode r3
                    end
              end
        end
  end.

End Utf8.

(** [JS "..."] is the string value denoted by a literal of the source. *)
Definition JS (s : string) : jsstring := Utf8.decode (Utf8.bytes s).

(** ToBoolean on a string: only the empty string is falsy. *)
Definition truthy (s : jsstring) : bool :=
  match s with
  | [] => false
  | _ :: _ => true
  end.

(** [a || b] on strings. *)
Definition or_else (a b : jsstring) : jsstring :=
  if truthy a then a else b.

(** *** String.prototype.trim

    ECMA-262, TrimString with [start+end]: the leading and the trailing
    code units that are WhiteSpace or LineTerminator are removed. *)

Definition is_white_space (c : N) : bool :=
  bool_decide
    (c ∈ [0x0009; 0x000B; 0x000C; 0x0020; 0x00A0; 0x1680; 0x202F; 0x205F;
          0x3000; 0xFEFF])
  || ((0x2000 <=? c) && (c <=? 0x200A)).

Definition is_line_terminator (c : N) : bool :=
  bool_decide (c ∈ [0x000A; 0x000D; 0x2028; 0x2029]).

Definition is_trimmable (c : N) : bool :=
  is_white_space c || is_line_terminator c.

Fixpoint trim_start (s : jsstring) : jsstring :=
  match s with
  | [] => []
  | c :: r => if is_trimmable c then trim_start r else s
  end.

Definition trim_end (s : jsstring) : jsstring :=
  rev (trim_start (rev s)).

Definition trim (s : jsstring) : jsstring := trim_end (trim_start s).

(** ** The JSON object of ECMAScript

    [JSON.parse] and [JSON.stringify] as ECMA-262 defines them, for the
    calls the component makes: [JSON.parse(text)] without a reviver and
    [JSON.stringify(value, null, 2)] on a value that [JSON.parse]
    returned. *)

Module JSON.

(** The code units that the grammar and the serialization name. *)
Abbreviation TAB := 9%N (only parsing).
Abbreviation LINE_FEED := 10%N (only parsing).
Abbreviation CARRIAGE_RETURN := 13%N (only parsing).
Abbreviation SPACE := 32%N (only parsing).
Abbreviation QUOTATION_MARK := 34%N (only parsing).
Abbreviation PLUS_SIGN := 43%N (only parsing).
Abbreviation COMMA := 44%N (only parsing).
Abbreviation HYPHEN_MINUS := 45%N (only parsing).
Abbreviation FULL_STOP := 46%N (only parsing).
Abbreviation SOLIDUS := 47%N (only parsing).
Abbreviation DIGIT_ZERO := 48%N (only parsing).
Abbreviation DIGIT_NINE := 57%N (only parsing).
Abbreviation COLON := 58%N (only parsing).
Abbreviation LETTER_A := 65%N (only parsing).
Abbreviation LETTER_E := 69%N (only parsing).
Abbreviation LETTER_F := 70%N (only parsing).
Abbreviation LETTER_Z := 90%N (only parsing).
Abbreviation LEFT_SQUARE_BRACKET := 91%N (only parsing).
Abbreviation REVERSE_SOLIDUS := 92%N (only parsing).
Abbreviation RIGHT_SQUARE_BRACKET := 93%N (only parsing).
Abbreviation LETTER_a := 97%N (only parsing).
Abbreviation LETTER_b := 98%N (only parsing).
Abbreviation LETTER_e := 101%N (only parsing).
Abbreviation LETTER_f := 102%N (only parsing).
Abbreviation LETTER_n := 110%N (only parsing).
Abbreviation LETTER_r := 114%N (only parsing).
Abbreviation LETTER_t := 116%N (only parsing).
Abbreviation LETTER_u := 117%N (only parsing).
Abbreviation LETTER_z := 122%N (only parsing).
Abbreviation LEFT_CURLY_BRACKET := 123%N (only parsing).
Abbreviation RIGHT_CURLY_BRACKET := 125%N (only parsing).

(** The texts [null], [true], [false], [NaN] and [Infinity]. *)
Abbreviation null_text := [110; 117; 108; 108]%N (only parsing).
Abbreviation true_text := [116; 114; 117; 101]%N (only parsing).
Abbreviation false_text := [102; 97; 108; 115; 101]%N (only parsing).
Abbreviation NaN_text := [78; 97; 78]%N (only parsing).
Abbreviation Infinity_text :=
  [73; 110; 102; 105; 110; 105; 116; 121]%N (only parsing).

Local Open Scope Z_scope.

(** *** Number values

    A Number is an IEEE 754 binary64 value. [NFin neg m e] is
    [(-1)^neg * m * 2^e]; the values of the type that are doubles are the
    [canonical] ones, so that a double has one representation. *)

Inductive number : Type :=
| NNaN
| NInf (neg : bool)
| NFin (neg : bool) (m e : Z).

Definition canonical_number (x : number) : Prop :=
  match x with
  | NFin _ m e =>
      0 <= m < 2 ^ 53 /\ -1074 <= e <= 971 /\ (m < 2 ^ 52 -> e = -1074)
  | _ => True
  end.

Definition is_finite (x : number) : bool :=
  match x with
  | NFin _ _ _ => true
  | _ => false
  end.

Definition number_eqb (x y : number) : bool :=
  match x, y with
  | NNaN, NNaN => true
  | NInf a, NInf b => eqb a b
  | NFin a m e, NFin b m' e' => eqb a b && (m =? m') && (e =? e')
  | _, _ => false
  end.

Definition make_finite (neg : bool) (m e : Z) : number :=
  let '(m, e) := if m =? 2 ^ 53 then (2 ^ 52, e + 1) else (m, e) in
  if 971 <? e then NInf neg else NFin neg m e.

(** The Number value for the rational [p / q] with [0 <= p] and [0 < q]:
    round to nearest, ties to even, overflow to infinity.  With
    [n = p * 2^1074] the double is [m * 2^(e - 1074)] for the integer [m]
    nearest to [n / (q * 2^e)], where [e] is the least exponent that keeps
    [m] within 53 bits. *)
Definition round_ratio (neg : bool) (p q : Z) : number :=
  let n := p * 2 ^ 1074 in
  let e := Z.max 0 (Z.log2 (n / q) - 52) in
  let d := q * 2 ^ e in
  let m := n / d in
  let r := n mod d in
  let up := (d <? 2 * r) || ((d =? 2 * r) && Z.odd m) in
  make_finite neg (if up then m + 1 else m) (e - 1074).

(** The Number value for [(-1)^neg * m * 10^x]. *)
Definition of_decimal (neg : bool) (m x : Z) : number :=
  if 0 <=? x then round_ratio neg (m * 10 ^ x) 1
  else round_ratio neg m (10 ^ (- x)).

(** *** Decimal digits *)

Definition digit_char (d : Z) : N := (DIGIT_ZERO + Z.to_N d)%N.

Definition is_digit (c : N) : bool :=
  ((DIGIT_ZERO <=? c) && (c <=? DIGIT_NINE))%N.

Definition digit_value (c : N) : Z := Z.of_N (c - DIGIT_ZERO).

Fixpoint digits_aux (fuel : nat) (z : Z) (acc : list N) : list N :=
  match fuel with
  | O => acc
  | S f =>
      if z <? 10 then digit_char z :: acc
      else digits_aux f (z / 10) (digit_char (z mod 10) :: acc)
  end.

(** The decimal representation of [0 <= z], most significant digit
    first, without leading zeros. *)
Definition digits (z : Z) : list N :=
  digits_aux (S (Z.to_nat (Z.log2 z))) z [].

Definition digits_value (ds : list N) : Z :=
  fold_left (fun acc c => 10 * acc + digit_value c) ds 0.

(** *** Number::toString (radix 10) *)

(** [v / 10^t] as a fraction of integers, for [v = a / b]. *)
Definition scale10 (a b t : Z) : Z * Z :=
  if 0 <=? t then (a, b * 10 ^ t) else (a * 10 ^ (- t), b).

Fixpoint first_scale (fuel : nat) (a b j : Z) : Z :=
  match fuel with
  | O => j
  | S f => if b <=? a * 10 then j else first_scale f (a * 10) b (j + 1)
  end.

(** The [n] with [10^(n-1) <= a / b < 10^n]. *)
Definition decimal_exponent (a b : Z) : Z :=
  if b <=? a then Z.of_nat (length (digits (a / b)))
  else 1 - first_scale (S (Z.to_nat (Z.log2 b))) a b 1.

(** The search of step 5: the first [k] for which some [s] of [k] digits
    has [s * 10^(n-k)] round to [x]; [t] is [n - k].  Such an [s] is the
    floor or the ceiling of [v / 10^t]; of the two, the one closer to [v]
    is taken, the even one on a tie. *)
Fixpoint shortest (fuel : nat) (x : number) (a b t : Z) : option (Z * Z) :=
  match fuel with
  | O => None
  | S f =>
      let '(n, d) := scale10 a b t in
      let lo := n / d in
      let r := n mod d in
      let ok_lo := (0 <? lo) && number_eqb (of_decimal false lo t) x in
      let ok_hi := number_eqb (of_decimal false (lo + 1) t) x in
      if ok_lo && ok_hi then
        if (2 * r <? d) || ((2 * r =? d) && Z.even lo)
        then Some (lo, t) else Some (lo + 1, t)
      else if ok_lo then Some (lo, t)
      else if ok_hi then Some (lo + 1, t)
      else shortest f x a b (t - 1)
  end.

(** [s] is not divisible by 10. *)
Fixpoint strip_zeros (fuel : nat) (s t : Z) : Z * Z :=
  match fuel with
  | O => (s, t)
  | S f => if s mod 10 =? 0 then strip_zeros f (s / 10) (t + 1) else (s, t)
  end.

(** The [s] and [n - k] of step 5 for the double [m * 2^e], which is
    [a / b] for [a = m * 2^(e + 1074)] and [b = 2^1074]. *)
Definition shortest_decimal (m e : Z) : Z * Z :=
  let a := m * 2 ^ (e + 1074) in
  let b := 2 ^ 1074 in
  let n := decimal_exponent a b in
  let tmin := Z.min e 0 in
  match shortest (S (Z.to_nat (n - tmin))) (NFin false m e) a b (n - 1) with
  | Some (s, t) => strip_zeros (S (Z.to_nat (Z.log2 s))) s t
  | None => (0, 0)
  end.

Definition zeros (n : Z) : list N := repeat DIGIT_ZERO (Z.to_nat n).

Definition exponent_part (n : Z) : list N :=
  LETTER_e :: (if n - 1 <? 0 then HYPHEN_MINUS else PLUS_SIGN)
  :: digits (Z.abs (n - 1)).

(** Steps 6 to 12: the layout of the digits [ds] of [s], [k] of them,
    with the decimal point after the [n]-th. *)
Definition layout (ds : list N) (n : Z) : list N :=
  let k := Z.of_nat (length ds) in
  if (k <=? n) && (n <=? 21) then ds ++ zeros (n - k)
  else if (0 <? n) && (n <=? 21) then
    take (Z.to_nat n) ds ++ FULL_STOP :: drop (Z.to_nat n) ds
  else if (-6 <? n) && (n <=? 0) then
    DIGIT_ZERO :: FULL_STOP :: zeros (- n) ++ ds
  else
    match ds with
    | [d] => d :: exponent_part n
    | d :: r => d :: FULL_STOP :: r ++ exponent_part n
    | [] => []
    end.

Definition to_string (x : number) : list N :=
  match x with
  | NNaN => NaN_text
  | NInf neg =>
      (if neg then [HYPHEN_MINUS] else []) ++ Infinity_text
  | NFin neg m e =>
      if m =? 0 then [DIGIT_ZERO]
      else
        let '(s, t) := shortest_decimal m e in
        let ds := digits s in
        (if neg then [HYPHEN_MINUS] else [])
        ++ layout ds (t + Z.of_nat (length ds))
  end.

Local Open Scope N_scope.

(** *** Values

    What [JSON.parse] returns.  The properties of an object are kept in
    the order of [[OwnPropertyKeys]]: array indices ascending, then the
    other keys in the order of their creation. *)

#[local] Unset Elimination Schemes.

Inductive value : Type :=
| JNull
| JBool (b : bool)
| JNumber (x : number)
| JString (s : jsstring)
| JArray (elements : list value)
| JObject (properties : list (jsstring * value)).

#[local] Set Elimination Schemes.

Definition string_eqb (s t : jsstring) : bool := bool_decide (s = t).

Fixpoint has_key (k : jsstring) (ps : list (jsstring * value)) : bool :=
  match ps with
  | [] => false
  | (k', _) :: r => string_eqb k k' || has_key k r
  end.

Fixpoint get_property (k : jsstring) (ps : list (jsstring * value))
  : option value :=
  match ps with
  | [] => None
  | (k', v) :: r => if string_eqb k k' then Some v else get_property k r
  end.

(** An array index is a canonical numeric string below [2^32 - 1]. *)
Definition array_index (k : jsstring) : option Z :=
  match k with
  | [] => None
  | c :: r =>
      if forallb is_digit k
         && (negb (c =? DIGIT_ZERO) || bool_decide (r = []))
      then
        let n := digits_value k in
        if (n <? 2 ^ 32 - 1)%Z then Some n else None
      else None
  end.

Fixpoint replace_property (k : jsstring) (v : value)
  (ps : list (jsstring * value)) : list (jsstring * value) :=
  match ps with
  | [] => []
  | (k', v') :: r =>
      if string_eqb k k' then (k, v) :: r
      else (k', v') :: replace_property k v r
  end.

Fixpoint insert_index (i : Z) (k : jsstring) (v : value)
  (ps : list (jsstring * value)) : list (jsstring * value) :=
  match ps with
  | [] => [(k, v)]
  | (k', v') :: r =>
      match array_index k' with
      | Some j =>
          if (j <? i)%Z then (k', v') :: insert_index i k v r
          else (k, v) :: ps
      | None => (k, v) :: ps
      end
  end.

(** CreateDataProperty on an ordinary object. *)
Definition set_property (k : jsstring) (v : value)
  (ps : list (jsstring * value)) : list (jsstring * value) :=
  if has_key k ps then replace_property k v ps
  else
    match array_index k with
    | Some i => insert_index i k v ps
    | None => ps ++ [(k, v)]
    end.

(** *** QuoteJSONString *)

Definition hex_char (d : N) : N := if d <? 10 then DIGIT_ZERO + d else 87 + d.

Definition unicode_escape (c : N) : list N :=
  [REVERSE_SOLIDUS; LETTER_u;
   hex_char (c / 4096 mod 16); hex_char (c / 256 mod 16);
   hex_char (c / 16 mod 16); hex_char (c mod 16)].

Definition is_leading_surrogate (c : N) : bool :=
  (0xD800 <=? c) && (c <=? 0xDBFF).

Definition is_trailing_surrogate (c : N) : bool :=
  (0xDC00 <=? c) && (c <=? 0xDFFF).

(** The escape of table 75, if the code unit has one. *)
Definition short_escape (c : N) : option N :=
  if c =? 0x08 then Some LETTER_b
  else if c =? 0x09 then Some LETTER_t
  else if c =? 0x0A then Some LETTER_n
  else if c =? 0x0C then Some LETTER_f
  else if c =? 0x0D then Some LETTER_r
  else if c =? 0x22 then Some QUOTATION_MARK
  else if c =? 0x5C then Some REVERSE_SOLIDUS
  else None.

Fixpoint quote_body (s : jsstring) : list N :=
  match s with
  | [] => []
  | c :: r =>
      match short_escape c with
      | Some e => REVERSE_SOLIDUS :: e :: quote_body r
      | None =>
          if c <? 0x20 then unicode_escape c ++ quote_body r
          else if is_leading_surrogate c then
            match r with
            | c2 :: r' =>
                if is_trailing_surrogate c2 then c :: c2 :: quote_body r'
                else unicode_escape c ++ quote_body r
            | [] => unicode_escape c
            end
          else if is_trailing_surrogate c then
            unicode_escape c ++ quote_body r
          else c :: quote_body r
      end
  end.

Definition quote (s : jsstring) : list N :=
  QUOTATION_MARK :: quote_body s ++ [QUOTATION_MARK].

(** *** Serialization

    SerializeJSONProperty, SerializeJSONArray and SerializeJSONObject
    without a replacer and without [toJSON] (a value that [JSON.parse]
    returned has none). *)

Fixpoint join (sep : list N) (parts : list (list N)) : list N :=
  match parts with
  | [] => []
  | [p] => p
  | p :: r => p ++ sep ++ join sep r
  end.

Definition wrap (opening closing : N) (gap indent stepback : list N)
  (partial : list (list N)) : list N :=
  match partial with
  | [] => [opening; closing]
  | _ =>
      if bool_decide (gap = []) then
        opening :: join [COMMA] partial ++ [closing]
      else
        opening :: LINE_FEED :: indent
        ++ join (COMMA :: LINE_FEED :: indent) partial
        ++ LINE_FEED :: stepback ++ [closing]
  end.

Definition serialize_number (x : number) : list N :=
  if is_finite x then to_string x else null_text.

Fixpoint serialize (gap stepback : list N) (v : value) : list N :=
  let indent := stepback ++ gap in
  match v with
  | JNull => null_text
  | JBool true => true_text
  | JBool false => false_text
  | JNumber x => serialize_number x
  | JString s => quote s
  | JArray l =>
      wrap LEFT_SQUARE_BRACKET RIGHT_SQUARE_BRACKET gap indent stepback
        (map (serialize gap indent) l)
  | JObject ps =>
      wrap LEFT_CURLY_BRACKET RIGHT_CURLY_BRACKET gap indent stepback
        (map (fun p => match p with
                       | (k, w) =>
                           quote k ++ COLON
                           :: (if bool_decide (gap = []) then [] else [SPACE])
                           ++ serialize gap indent w
                       end) ps)
  end.

(** [JSON.stringify(value, null, space)] for a Number [space]. *)
Definition stringify (v : value) (space : Z) : jsstring :=
  serialize (repeat SPACE (Z.to_nat (Z.min 10 space))) [] v.

(** *** The limits of an engine

    ECMA-262 sets no limit on [JSON.stringify], but an engine runs the
    recursion of the serialization on a stack of bounded size and throws
    a RangeError when the stack is exhausted, as it is by arrays nested
    some thousands deep.  Which values an engine serializes is a
    parameter of the model: [serializes v] tells whether the call on [v]
    returns.  [stringify_within] is the call, [None] when it throws. *)
Definition stringify_within (serializes : value -> bool) (v : value)
  (space : Z) : option jsstring :=
  if serializes v then Some (stringify v space) else None.

(** The nesting of a value. *)
Fixpoint depth (v : value) : nat :=
  match v with
  | JArray l => S (list_max (map depth l))
  | JObject ps => S (list_max (map (fun p => depth p.2) ps))
  | _ => 0
  end.

(** An engine whose stack holds the serialization of [limit] nested
    arrays or objects and no more. *)
Definition stack_of (limit : Z) (v : value) : bool :=
  (Z.of_nat (depth v) <=? limit)%Z.

(** *** The lexical grammar of JSON *)

Inductive token : Type :=
| TLBrace | TRBrace | TLBracket | TRBracket | TComma | TColon
| TString (s : jsstring)
| TNumber (x : number)
| TTrue | TFalse | TNull.

Definition hex_value (c : N) : option N :=
  if is_digit c then Some (c - DIGIT_ZERO)
  else if (LETTER_a <=? c) && (c <=? LETTER_f) then Some (c - 87)
  else if (LETTER_A <=? c) && (c <=? LETTER_F) then Some (c - 55)
  else None.

Definition hex4 (a b c d : N) : option N :=
  match hex_value a, hex_value b, hex_value c, hex_value d with
  | Some x, Some y, Some z, Some w => Some (((x * 16 + y) * 16 + z) * 16 + w)
  | _, _, _, _ => None
  end.

(** JSONEscapeSequence, other than [u]. *)
Definition single_escape (c : N) : option N :=
  if c =? QUOTATION_MARK then Some 0x22
  else if c =? SOLIDUS then Some 0x2F
  else if c =? REVERSE_SOLIDUS then Some 0x5C
  else if c =? LETTER_b then Some 0x08
  else if c =? LETTER_f then Some 0x0C
  else if c =? LETTER_n then Some 0x0A
  else if c =? LETTER_r then Some 0x0D
  else if c =? LETTER_t then Some 0x09
  else None.

(** The string value of the characters between the quotes. *)
Fixpoint unescape (s : list N) : option jsstring :=
  match s with
  | [] => Some []
  | c :: r =>
      if c =? REVERSE_SOLIDUS then
        match r with
        | [] => None
        | e :: r' =>
            if e =? LETTER_u then
              match r' with
              | h1 :: h2 :: h3 :: h4 :: r'' =>
                  match hex4 h1 h2 h3 h4 with
                  | Some u => cons u <$> unescape r''
                  | None => None
                  end
              | _ => None
              end
            else
              match single_escape e with
              | Some u => cons u <$> unescape r'
              | None => None
              end
        end
      else if (c <? 0x20) || (c =? QUOTATION_MARK) then None
      else cons c <$> unescape r
  end.

Fixpoint span_digits (s : list N) : list N * list N :=
  match s with
  | [] => ([], [])
  | c :: r =>
      if is_digit c then let '(ds, rest) := span_digits r in (c :: ds, rest)
      else ([], s)
  end.

Definition read_minus (w : list N) : bool * list N :=
  match w with
  | c :: r => if c =? HYPHEN_MINUS then (true, r) else (false, w)
  | [] => (false, w)
  end.

(** An optional fraction: a point and at least one digit. *)
Definition read_fraction (w : list N) : option (list N * list N) :=
  match w with
  | c :: r =>
      if c =? FULL_STOP then
        let '(fp, rest) := span_digits r in
        if bool_decide (fp = []) then None else Some (fp, rest)
      else Some ([], w)
  | [] => Some ([], w)
  end.

Definition read_exponent_sign (w : list N) : bool * list N :=
  match w with
  | c :: r =>
      if c =? HYPHEN_MINUS then (true, r)
      else if c =? PLUS_SIGN then (false, r)
      else (false, w)
  | [] => (false, w)
  end.

(** An optional exponent, up to the end of the literal: [e] or [E], an
    optional sign and at least one digit. *)
Definition read_exponent (w : list N) : option Z :=
  match w with
  | [] => Some 0%Z
  | c :: r =>
      if (c =? LETTER_e) || (c =? LETTER_E) then
        let '(eneg, r1) := read_exponent_sign r in
        let '(ds, rest) := span_digits r1 in
        if bool_decide (ds = []) || negb (bool_decide (rest = [])) then None
        else Some (if eneg then (- digits_value ds)%Z else digits_value ds)
      else None
  end.

(** JSONNumber: an optional minus sign; an integer part, a single zero
    or digits that do not start with a zero; an optional fraction; an
    optional exponent.  The result is the Number value of the literal. *)
Definition number_of_chars (w : list N) : option number :=
  let '(neg, w1) := read_minus w in
  let '(ip, w2) := span_digits w1 in
  match ip with
  | [] => None
  | d :: ip' =>
      if (d =? DIGIT_ZERO) && negb (bool_decide (ip' = [])) then None
      else
        match read_fraction w2 with
        | None => None
        | Some (fp, w3) =>
            match read_exponent w3 with
            | None => None
            | Some x =>
                Some (of_decimal neg (digits_value (ip ++ fp))
                        (x - Z.of_nat (length fp)))
            end
        end
  end.

(** The characters of the literals and of the numbers. *)
Definition is_word_char (c : N) : bool :=
  is_digit c || (c =? PLUS_SIGN) || (c =? HYPHEN_MINUS) || (c =? FULL_STOP)
  || ((LETTER_a <=? c) && (c <=? LETTER_z))
  || ((LETTER_A <=? c) && (c <=? LETTER_Z)).

(** JSON white space: tab, line feed, carriage return, space. *)
Definition is_json_space (c : N) : bool :=
  (c =? TAB) || (c =? LINE_FEED) || (c =? CARRIAGE_RETURN) || (c =? SPACE).

Definition word_token (w : list N) : option token :=
  if bool_decide (w = true_text) then Some TTrue
  else if bool_decide (w = false_text) then Some TFalse
  else if bool_decide (w = null_text) then Some TNull
  else TNumber <$> number_of_chars w.

(** The scanner reads one code unit at a time.  Between tokens it is
    [LIdle]; [LWord] holds the characters of a literal or a number read
    so far and [LString] those of a string, both in reverse. *)
Inductive lex_state : Type :=
| LIdle
| LWord (buf : list N)
| LString (buf : list N) (escaped : bool).

Definition lex_idle (c : N) : option (lex_state * list token) :=
  if is_json_space c then Some (LIdle, [])
  else if c =? LEFT_CURLY_BRACKET then Some (LIdle, [TLBrace])
  else if c =? RIGHT_CURLY_BRACKET then Some (LIdle, [TRBrace])
  else if c =? LEFT_SQUARE_BRACKET then Some (LIdle, [TLBracket])
  else if c =? RIGHT_SQUARE_BRACKET then Some (LIdle, [TRBracket])
  else if c =? COMMA then Some (LIdle, [TComma])
  else if c =? COLON then Some (LIdle, [TColon])
  else if c =? QUOTATION_MARK then Some (LString [] false, [])
  else if is_word_char c then Some (LWord [c], [])
  else None.

Definition lex_step (st : lex_state) (c : N)
  : option (lex_state * list token) :=
  match st with
  | LIdle => lex_idle c
  | LWord buf =>
      if is_word_char c then Some (LWord (c :: buf), [])
      else
        match word_token (rev buf), lex_idle c with
        | Some tok, Some (st', toks) => Some (st', tok :: toks)
        | _, _ => None
        end
  | LString buf true => Some (LString (c :: buf) false, [])
  | LString buf false =>
      if c =? REVERSE_SOLIDUS then Some (LString (c :: buf) true, [])
      else if c =? QUOTATION_MARK then
        match unescape (rev buf) with
        | Some str => Some (LIdle, [TString str])
        | None => None
        end
      else Some (LString (c :: buf) false, [])
  end.

Definition lex_end (st : lex_state) : option (list token) :=
  match st with
  | LIdle => Some []
  | LWord buf =>
      match word_token (rev buf) with
      | Some tok => Some [tok]
      | None => None
      end
  | LString _ _ => None
  end.

Fixpoint lex (st : lex_state) (s : list N) : option (list token) :=
  match s with
  | [] => lex_end st
  | c :: r =>
      match lex_step st c with
      | Some (st', toks) =>
          match lex st' r with
          | Some rest => Some (toks ++ rest)
          | None => None
          end
      | None => None
      end
  end.

(** *** The syntactic grammar of JSON

    A pushdown recognizer that builds the value.  A frame is a container
    that is being read: an array with its elements so far (last first),
    or an object with its properties so far and the key whose value is
    being read. *)

Inductive frame : Type :=
| FArray (acc : list value)
| FObject (ps : list (jsstring * value)) (key : jsstring).

Inductive parse_state : Type :=
| SValue (stk : list frame)
| SArrayOpen (stk : list frame)
| SObjectOpen (stk : list frame)
| SKey (ps : list (jsstring * value)) (stk : list frame)
| SColon (ps : list (jsstring * value)) (key : jsstring) (stk : list frame)
| SArrayNext (acc : list value) (stk : list frame)
| SObjectNext (ps : list (jsstring * value)) (stk : list frame)
| SDone (v : value).

(** A value is complete: it is the text, the next element of the array
    or the value of the pending key. *)
Definition reduce (v : value) (stk : list frame) : parse_state :=
  match stk with
  | [] => SDone v
  | FArray acc :: stk' => SArrayNext (v :: acc) stk'
  | FObject ps key :: stk' => SObjectNext (set_property key v ps) stk'
  end.

Definition parse_value (stk : list frame) (tok : token)
  : option parse_state :=
  match tok with
  | TNull => Some (reduce JNull stk)
  | TTrue => Some (reduce (JBool true) stk)
  | TFalse => Some (reduce (JBool false) stk)
  | TNumber x => Some (reduce (JNumber x) stk)
  | TString s => Some (reduce (JString s) stk)
  | TLBracket => Some (SArrayOpen stk)
  | TLBrace => Some (SObjectOpen stk)
  | _ => None
  end.

Definition parse_step (st : parse_state) (tok : token)
  : option parse_state :=
  match st with
  | SValue stk => parse_value stk tok
  | SArrayOpen stk =>
      match tok with
      | TRBracket => Some (reduce (JArray []) stk)
      | _ => parse_value (FArray [] :: stk) tok
      end
  | SObjectOpen stk =>
      match tok with
      | TRBrace => Some (reduce (JObject []) stk)
      | TString k => Some (SColon [] k stk)
      | _ => None
      end
  | SKey ps stk =>
      match tok with
      | TString k => Some (SColon ps k stk)
      | _ => None
      end
  | SColon ps k stk =>
      match tok with
      | TColon => Some (SValue (FObject ps k :: stk))
      | _ => None
      end
  | SArrayNext acc stk =>
      match tok with
      | TComma => Some (SValue (FArray acc :: stk))
      | TRBracket => Some (reduce (JArray (rev acc)) stk)
      | _ => None
      end
  | SObjectNext ps stk =>
      match tok with
      | TComma => Some (SKey ps stk)
      | TRBrace => Some (reduce (JObject ps) stk)
      | _ => None
      end
  | SDone _ => None
  end.

Fixpoint run (st : parse_state) (toks : list token) : option parse_state :=
  match toks with
  | [] => Some st
  | tok :: r =>
      match parse_step st tok with
      | Some st' => run st' r
      | None => None
      end
  end.

(** [JSON.parse(text)]: the value of the text, or [None] when the text
    is not a JSON text and the call throws a SyntaxError. *)
Definition parse (text : jsstring) : option value :=
  match lex LIdle text with
  | Some toks =>
      match run (SValue []) toks with
      | Some (SDone v) => Some v
      | _ => None
      end
  | None => None
  end.

(** *** Deep equality

    Two values are deep-equal when they have the same shape and equal
    leaves: Numbers are compared as [Object.is] does, so that the two
    zeros differ, arrays element by
    element, objects property by property whatever the order. *)
Fixpoint deep_equal (a b : value) {struct a} : bool :=
  match a, b with
  | JNull, JNull => true
  | JBool x, JBool y => eqb x y
  | JNumber x, JNumber y => number_eqb x y
  | JString s, JString t => string_eqb s t
  | JArray l, JArray l' =>
      (fix all2 (l : list value) (l' : list value) : bool :=
         match l, l' with
         | [], [] => true
         | x :: r, y :: r' => deep_equal x y && all2 r r'
         | _, _ => false
         end) l l'
  | JObject ps, JObject qs =>
      (length ps =? length qs)%nat
      && forallb (fun p => match p with
                           | (k, v) =>
                               match get_property k qs with
                               | Some w => deep_equal v w
                               | None => false
                               end
                           end) ps
  | _, _ => false
  end.

(** *** The grammar of JSON texts

    ECMA-404, which [JSON.parse] refers to: a JSON text is a sequence of
    tokens that conforms to the value grammar, with white space allowed
    before and after any token. *)

Definition fraction_text (fp : list N) : list N :=
  match fp with
  | [] => []
  | _ => FULL_STOP :: fp
  end.

Definition valid_integer_part (ip : list N) : Prop :=
  forallb is_digit ip = true
  /\ match ip with
     | [] => False
     | d :: r => d = DIGIT_ZERO -> r = []
     end.

Definition punctuation (c : N) : option token :=
  if c =? LEFT_CURLY_BRACKET then Some TLBrace
  else if c =? RIGHT_CURLY_BRACKET then Some TRBrace
  else if c =? LEFT_SQUARE_BRACKET then Some TLBracket
  else if c =? RIGHT_SQUARE_BRACKET then Some TRBracket
  else if c =? COMMA then Some TComma
  else if c =? COLON then Some TColon
  else None.

Definition literal (w : list N) : option token :=
  if bool_decide (w = true_text) then Some TTrue
  else if bool_decide (w = false_text) then Some TFalse
  else if bool_decide (w = null_text) then Some TNull
  else None.

(** The characters between the quotes of a string, and the string they
    denote: any character but the quote, the reverse solidus and the control
    characters stands for itself; the others are written as escapes. *)
Inductive string_characters : list N -> jsstring -> Prop :=
| characters_end : string_characters [] []
| characters_plain (c : N) (body : list N) (s : jsstring) :
    0x20 <= c -> c <> QUOTATION_MARK -> c <> REVERSE_SOLIDUS ->
    string_characters body s -> string_characters (c :: body) (c :: s)
| characters_escape (e u : N) (body : list N) (s : jsstring) :
    single_escape e = Some u ->
    string_characters body s ->
    string_characters (REVERSE_SOLIDUS :: e :: body) (u :: s)
| characters_unicode (h1 h2 h3 h4 u : N) (body : list N) (s : jsstring) :
    hex4 h1 h2 h3 h4 = Some u ->
    string_characters body s ->
    string_characters
      (REVERSE_SOLIDUS :: LETTER_u :: h1 :: h2 :: h3 :: h4 :: body) (u :: s).

(** At least one digit. *)
Definition digit_string (ds : list N) : Prop :=
  ds <> [] /\ forallb is_digit ds = true.

(** The exponent of a number: [e] or [E], a sign or none, and digits. *)
Record exponent : Type := {
  exponent_mark : N;
  exponent_sign : option bool;
  exponent_digits : list N;
}.

Definition exponent_text (ex : option exponent) : list N :=
  match ex with
  | None => []
  | Some x =>
      exponent_mark x
      :: match exponent_sign x with
         | Some true => [HYPHEN_MINUS]
         | Some false => [PLUS_SIGN]
         | None => []
         end
      ++ exponent_digits x
  end.

Definition exponent_value (ex : option exponent) : Z :=
  match ex with
  | None => 0%Z
  | Some x =>
      match exponent_sign x with
      | Some true => (- digits_value (exponent_digits x))%Z
      | _ => digits_value (exponent_digits x)
      end
  end.

Definition valid_exponent (ex : option exponent) : Prop :=
  match ex with
  | None => True
  | Some x =>
      (exponent_mark x = LETTER_e \/ exponent_mark x = LETTER_E)
      /\ digit_string (exponent_digits x)
  end.

(** A number: digits with no superfluous leading zero, possibly after a
    minus sign, possibly followed by a fraction, possibly followed by an
    exponent; and its Number value. *)
Inductive number_text : list N -> number -> Prop :=
| number_text_intro (neg : bool) (ip fp : list N) (ex : option exponent) :
    valid_integer_part ip ->
    forallb is_digit fp = true ->
    valid_exponent ex ->
    number_text
      ((if neg then [HYPHEN_MINUS] else [])
       ++ ip ++ fraction_text fp ++ exponent_text ex)
      (of_decimal neg (digits_value (ip ++ fp))
         (exponent_value ex - Z.of_nat (length fp))).

(** A text as a sequence of tokens. *)
Inductive scans : list N -> list token -> Prop :=
| scans_end : scans [] []
| scans_space (c : N) (s : list N) (toks : list token) :
    is_json_space c = true -> scans s toks -> scans (c :: s) toks
| scans_punctuation (c : N) (tok : token) (s : list N) (toks : list token) :
    punctuation c = Some tok -> scans s toks -> scans (c :: s) (tok :: toks)
| scans_string (body : list N) (str : jsstring) (s : list N)
    (toks : list token) :
    string_characters body str -> scans s toks ->
    scans (QUOTATION_MARK :: body ++ QUOTATION_MARK :: s) (TString str :: toks)
| scans_literal (w : list N) (tok : token) (s : list N) (toks : list token) :
    literal w = Some tok -> scans s toks -> scans (w ++ s) (tok :: toks)
| scans_number (w : list N) (x : number) (s : list N) (toks : list token) :
    number_text w x -> scans s toks -> scans (w ++ s) (TNumber x :: toks).

(** The value grammar. *)
Inductive value_tokens : list token -> Prop :=
| value_null : value_tokens [TNull]
| value_true : value_tokens [TTrue]
| value_false : value_tokens [TFalse]
| value_number (x : number) : value_tokens [TNumber x]
| value_string (s : jsstring) : value_tokens [TString s]
| value_empty_array : value_tokens [TLBracket; TRBracket]
| value_array (ts : list token) :
    element_tokens ts -> value_tokens (TLBracket :: ts ++ [TRBracket])
| value_empty_object : value_tokens [TLBrace; TRBrace]
| value_object (ts : list token) :
    member_tokens ts -> value_tokens (TLBrace :: ts ++ [TRBrace])
with element_tokens : list token -> Prop :=
| elements_one (ts : list token) : value_tokens ts -> element_tokens ts
| elements_more (ts r : list token) :
    value_tokens ts -> element_tokens r -> element_tokens (ts ++ TComma :: r)
with member_tokens : list token -> Prop :=
| members_one (k : jsstring) (ts : list token) :
    value_tokens ts -> member_tokens (TString k :: TColon :: ts)
| members_more (k : jsstring) (ts r : list token) :
    value_tokens ts -> member_tokens r ->
    member_tokens (TString k :: TColon :: ts ++ TComma :: r).

(** A string is syntactically valid JSON. *)
Definition json_text (s : jsstring) : Prop :=
  exists toks : list token, scans s toks /\ value_tokens toks.

(** *** Notions for reasoning about the built-ins *)

Local Open Scope Z_scope.

(** Reading a Number back loses the sign of a zero and nothing else. *)
Definition positive_zero (x : number) : number :=
  match x with
  | NFin neg m e => if m =? 0 then NFin false m e else x
  | _ => x
  end.

Definition read_digit (acc : Z) (c : N) : Z := 10 * acc + digit_value c.

Definition no_digit_head (w : list N) : Prop :=
  match w with
  | [] => True
  | c :: _ => is_digit c = false
  end.

Local Open Scope N_scope.

Section ValueInduction.
Variable P : value -> Prop.
Hypothesis Hnull : P JNull.
Hypothesis Hbool : forall b, P (JBool b).
Hypothesis Hnumber : forall x, P (JNumber x).
Hypothesis Hstring : forall s, P (JString s).
Hypothesis Harray : forall l, Forall P l -> P (JArray l).
Hypothesis Hobject : forall ps, Forall (fun p => P p.2) ps -> P (JObject ps).

Fixpoint value_induction (v : value) : P v :=
  match v with
  | JNull => Hnull
  | JBool b => Hbool b
  | JNumber x => Hnumber x
  | JString s => Hstring s
  | JArray l =>
      Harray l
        ((fix all (l : list value) : Forall P l :=
            match l with
            | [] => @List.Forall_nil _ P
            | x :: r => @List.Forall_cons _ P x r (value_induction x) (all r)
            end) l)
  | JObject ps =>
      Hobject ps
        ((fix all (ps : list (jsstring * value))
            : Forall (fun p => P p.2) ps :=
            match ps with
            | [] => @List.Forall_nil _ _
            | p :: r =>
                @List.Forall_cons _ (fun p => P p.2) p r
                (value_induction p.2) (all r)
            end) ps)
  end.
End ValueInduction.

(** Every Number in the value is finite. *)
Fixpoint all_finite (v : value) : bool :=
  match v with
  | JNumber x => is_finite x
  | JArray l => forallb all_finite l
  | JObject ps => forallb (fun p => all_finite p.2) ps
  | _ => true
  end.

(** No Number in the value is the negative zero. *)
Fixpoint no_negative_zero (v : value) : bool :=
  match v with
  | JNumber (NFin true 0%Z _) => false
  | JArray l => forallb no_negative_zero l
  | JObject ps => forallb (fun p => no_negative_zero p.2) ps
  | _ => true
  end.

(** The value with every negative zero replaced by the positive zero. *)
Fixpoint positive_zeros (v : value) : value :=
  match v with
  | JNumber x => JNumber (positive_zero x)
  | JArray l => JArray (map positive_zeros l)
  | JObject ps => JObject (map (fun p => (p.1, positive_zeros p.2)) ps)
  | _ => v
  end.

(** The order of [[OwnPropertyKeys]]: array indices ascending, then the
    other keys. *)
Fixpoint index_sorted (lo : Z) (ixs : list (option Z)) : Prop :=
  match ixs with
  | [] => True
  | Some i :: r => (lo < i)%Z /\ index_sorted i r
  | None :: r => Forall (eq None) r
  end.

Definition ordered_keys (ks : list jsstring) : Prop :=
  NoDup ks /\ index_sorted (-1) (map array_index ks).

(** The values that [JSON.parse] builds: Numbers are doubles and the
    properties of an object are distinct and in order. *)
Fixpoint well_formed (v : value) : Prop :=
  match v with
  | JNumber x => canonical_number x
  | JArray l =>
      (fix all (l : list value) : Prop :=
         match l with
         | [] => True
         | x :: r => well_formed x /\ all r
         end) l
  | JObject ps =>
      ordered_keys (map fst ps)
      /\ (fix all (ps : list (jsstring * value)) : Prop :=
            match ps with
            | [] => True
            | p :: r => well_formed p.2 /\ all r
            end) ps
  | _ => True
  end.

(** The tokens of the text that [serialize] writes for a value. *)
Fixpoint tokens (v : value) : list token :=
  match v with
  | JNull => [TNull]
  | JBool true => [TTrue]
  | JBool false => [TFalse]
  | JNumber x => [TNumber (positive_zero x)]
  | JString s => [TString s]
  | JArray l =>
      match l with
      | [] => [TLBracket; TRBracket]
      | x :: r =>
          TLBracket :: tokens x
          ++ concat (map (fun y => TComma :: tokens y) r) ++ [TRBracket]
      end
  | JObject ps =>
      match ps with
      | [] => [TLBrace; TRBrace]
      | p :: r =>
          TLBrace :: TString p.1 :: TColon :: tokens p.2
          ++ concat (map (fun q => TComma :: TString q.1 :: TColon
                                     :: tokens q.2) r)
          ++ [TRBrace]
      end
  end.

(** The quotes of a string literal close where the scanner says. *)
Fixpoint closes (escaped : bool) (body : list N) : bool :=
  match body with
  | [] => negb escaped
  | c :: r =>
      if escaped then closes false r
      else if c =? REVERSE_SOLIDUS then closes true r
      else if c =? QUOTATION_MARK then false
      else closes false r
  end.

(** What may follow a literal or a number: nothing, or a character that
    ends it. *)
Definition delimited (rest : list N) : Prop :=
  match rest with
  | [] => True
  | c :: _ => is_word_char c = false
  end.

Definition spaces (ws : list N) : Prop := forallb is_json_space ws = true.

Definition reads_back (v : value) : Prop :=
  forall stk rest,
    run (SValue stk) (tokens v ++ rest)
    = run (reduce (positive_zeros v) stk) rest.

Definition token_ok (tok : token) : Prop :=
  match tok with
  | TNumber x => canonical_number x
  | _ => True
  end.

Definition frame_ok (f : frame) : Prop :=
  match f with
  | FArray acc => Forall well_formed acc
  | FObject ps _ => well_formed (JObject ps)
  end.

Definition state_ok (st : parse_state) : Prop :=
  match st with
  | SValue stk | SArrayOpen stk | SObjectOpen stk => Forall frame_ok stk
  | SKey ps stk | SColon ps _ stk | SObjectNext ps stk =>
      well_formed (JObject ps) /\ Forall frame_ok stk
  | SArrayNext acc stk => Forall well_formed acc /\ Forall frame_ok stk
  | SDone v => well_formed v
  end.

Abbreviation keys ps := (map fst (ps : list (jsstring * value))).

Definition is_word_token (tok : token) : bool :=
  match tok with
  | TNumber _ | TTrue | TFalse | TNull => true
  | _ => false
  end.

Definition is_closer (tok : token) : bool :=
  match tok with
  | TComma | TRBracket | TRBrace => true
  | _ => false
  end.

(** After a literal or a number comes a comma or a closing bracket. *)
Fixpoint follows_ok (toks : list token) : Prop :=
  match toks with
  | [] => True
  | t1 :: r =>
      match r with
      | [] => True
      | t2 :: _ => is_word_token t1 = true -> is_closer t2 = true
      end
      /\ follows_ok r
  end.

Definition more_elements (r : list token) : Prop :=
  r = [] \/ exists es, r = TComma :: es /\ element_tokens es.

Definition more_members (r : list token) : Prop :=
  r = [] \/ exists ms, r = TComma :: ms /\ member_tokens ms.

(** The tokens that may follow a value inside the containers that are
    open: the rest of each container, innermost first. *)
Fixpoint completes (stk : list frame) (toks : list token) : Prop :=
  match stk with
  | [] => toks = []
  | FArray _ :: stk' =>
      exists r rest,
        toks = r ++ TRBracket :: rest /\ more_elements r /\ completes stk' rest
  | FObject _ _ :: stk' =>
      exists r rest,
        toks = r ++ TRBrace :: rest /\ more_members r /\ completes stk' rest
  end.

(** The tokens that take the recognizer from a state to the end of a
    text. *)
Definition expects (st : parse_state) (toks : list token) : Prop :=
  match st with
  | SValue stk =>
      exists ts rest,
        toks = ts ++ rest /\ value_tokens ts /\ completes stk rest
  | SArrayOpen stk =>
      (exists rest, toks = TRBracket :: rest /\ completes stk rest)
      \/ (exists es rest,
            toks = es ++ TRBracket :: rest /\ element_tokens es
            /\ completes stk rest)
  | SObjectOpen stk =>
      (exists rest, toks = TRBrace :: rest /\ completes stk rest)
      \/ (exists ms rest,
            toks = ms ++ TRBrace :: rest /\ member_tokens ms
            /\ completes stk rest)
  | SKey _ stk =>
      exists ms rest,
        toks = ms ++ TRBrace :: rest /\ member_tokens ms /\ completes stk rest
  | SColon _ _ stk =>
      exists ts r rest,
        toks = TColon :: ts ++ r ++ TRBrace :: rest /\ value_tokens ts
        /\ more_members r /\ completes stk rest
  | SArrayNext _ stk =>
      exists r rest,
        toks = r ++ TRBracket :: rest /\ more_elements r /\ completes stk rest
  | SObjectNext _ stk =>
      exists r rest,
        toks = r ++ TRBrace :: rest /\ more_members r /\ completes stk rest
  | SDone _ => toks = []
  end.

(** The recognizer reads the tokens of a value, of the elements of an array
    up to its end and of the members of an object up to its end. *)
Definition value_accepted (ts : list token) : Prop :=
  forall stk rest,
    exists v, run (SValue stk) (ts ++ rest) = run (reduce v stk) rest.

Definition elements_accepted (ts : list token) : Prop :=
  forall acc stk rest,
    exists l,
      run (SValue (FArray acc :: stk)) (ts ++ TRBracket :: rest)
      = run (reduce (JArray l) stk) rest.

Definition members_accepted (ts : list token) : Prop :=
  forall ps stk rest,
    exists ps',
      run (SKey ps stk) (ts ++ TRBrace :: rest)
      = run (reduce (JObject ps') stk) rest.

Scheme value_tokens_mutual := Minimality for value_tokens Sort Prop
  with element_tokens_mutual := Minimality for element_tokens Sort Prop
  with member_tokens_mutual := Minimality for member_tokens Sort Prop.

Combined Scheme grammar_induction
  from value_tokens_mutual, element_tokens_mutual, member_tokens_mutual.

End JSON.

(** ** The messages of the manager service ([gen/proto/manager_pb])

    [mode] is the number of a [PortMappingMode] member; an unset message
    field is [None]. *)

Record PortMapping : Type := {
  mode : Z;
  configJson : jsstring;
}.

Record GetNodeConfigResponse : Type := {
  name : jsstring;
  portMapping : option PortMapping;
}.

(** ** What a rejected call throws

    [ConnectError] extends [Error] and carries the message of the server in
    [rawMessage]; anything else that is thrown is [NotAnError]. *)

Inductive thrown : Type :=
| ConnectError (rawMessage message : jsstring)
| Error (message : jsstring)
| NotAnError.

Inductive settled : Type :=
| Fulfilled (result : GetNodeConfigResponse)
| Rejected (reason : thrown).

(** ** The effects of the handler

    The state setters of the component, the toasts, and the one remote
    call, [nodeManagerClient.getNodeConfig], which suspends the handler
    until the transport settles it. *)

Inductive effect : Type :=
| preventDefault
| setLoading (b : bool)
| setErrorMessage (m : option jsstring)
| setResponse (r : option GetNodeConfigResponse)
| toast_error (m : jsstring)
| toast_success (m : jsstring)
| toast_info (m : jsstring).

Inductive prog (A : Type) : Type :=
| Return (a : A)
| Throw (e : thrown)
| Perform (f : effect) (k : prog A)
| Await (request : jsstring) (k : settled -> prog A).

Arguments Return {A} a.
Arguments Throw {A} e.
Arguments Perform {A} f k.
Arguments Await {A} request k.

Fixpoint bind {A B : Type} (p : prog A) (k : A -> prog B) : prog B :=
  match p with
  | Return a => k a
  | Throw e => Throw e
  | Perform f p' => Perform f (bind p' k)
  | Await request c => Await request (fun s => bind (c s) k)
  end.

#[export] Instance prog_ret : MRet prog := @Return.
#[export] Instance prog_bind : MBind prog := fun A B k p => bind p k.

Definition perform (f : effect) : prog unit := Perform f (Return tt).

(** [await nodeManagerClient.getNodeConfig({ name: request })] *)
Definition getNodeConfig (request : jsstring) : prog GetNodeConfigResponse :=
  Await request (fun s =>
    match s with
    | Fulfilled result => Return result
    | Rejected reason => Throw reason
    end).

Fixpoint try_catch {A : Type} (body : prog A) (handler : thrown -> prog A)
  : prog A :=
  match body with
  | Return a => Return a
  | Throw e => handler e
  | Perform f k => Perform f (try_catch k handler)
  | Await request k => Await request (fun s => try_catch (k s) handler)
  end.

Fixpoint finally {A : Type} (body : prog A) (cleanup : prog unit) : prog A :=
  match body with
  | Return a => cleanup ;; Return a
  | Throw e => cleanup ;; Throw e
  | Perform f k => Perform f (finally k cleanup)
  | Await request k => Await request (fun s => finally (k s) cleanup)
  end.

Notation "'try' body 'catch' handler 'finally' cleanup" :=
  (finally (try_catch body handler) cleanup)
  (at level 10, body at level 200, handler at level 200,
   cleanup at level 200).

(** ** Running a handler

    The trace of a run lists what the handler did, in order; [Called] is
    the dispatch of the remote call. *)

Inductive event : Type :=
| Did (f : effect)
| Called (request : jsstring).

Fixpoint exec {A : Type} (transport : jsstring -> settled) (p : prog A)
  : list event * (A + thrown) :=
  match p with
  | Return a => ([], inl a)
  | Throw e => ([], inr e)
  | Perform f k =>
      let '(tr, r) := exec transport k in (Did f :: tr, r)
  | Await request k =>
      let '(tr, r) := exec transport (k (transport request)) in
      (Called request :: tr, r)
  end.

(** ** The component *)

Record AppState : Type := {
  nodeName : jsstring;
  loading : bool;
  errorMessage : option jsstring;
  response : option GetNodeConfigResponse;
}.

(** [useState] initial values. *)
Definition initialState : AppState :=
  {| nodeName := []; loading := false; errorMessage := None;
     response := None |}.

Definition apply_effect (st : AppState) (f : effect) : AppState :=
  match f with
  | setLoading b =>
      {| nodeName := nodeName st; loading := b;
         errorMessage := errorMessage st; response := response st |}
  | setErrorMessage m =>
      {| nodeName := nodeName st; loading := loading st;
         errorMessage := m; response := response st |}
  | setResponse r =>
      {| nodeName := nodeName st; loading := loading st;
         errorMessage := errorMessage st; response := r |}
  | _ => st
  end.

Definition apply_event (st : AppState) (ev : event) : AppState :=
  match ev with
  | Did f => apply_effect st f
  | Called _ => st
  end.

Definition state_after (st : AppState) (tr : list event) : AppState :=
  fold_left apply_event tr st.

Definition calls (tr : list event) : list jsstring :=
  omap (fun ev => match ev with Called r => Some r | _ => None end) tr.

Definition is_toast (f : effect) : bool :=
  match f with
  | toast_error _ | toast_success _ | toast_info _ => true
  | _ => false
  end.

Definition toasts (tr : list event) : list effect :=
  omap (fun ev => match ev with
                  | Did f => if is_toast f then Some f else None
                  | Called _ => None
                  end) tr.

Record Details : Type := {
  hasConfig : bool;
  isJson : bool;
  pretty : jsstring;
}.

(** The [useMemo] callback of [portMappingDetails], in an engine whose
    limit on [JSON.stringify] is [serializes].  [JSON.parse] and
    [JSON.stringify] are both inside the [try]: whichever throws, the
    [catch] gives the text as it came. *)
Definition portMappingDetails (serializes : JSON.value -> bool)
  (portMapping : option PortMapping) : Details :=
  match portMapping with
  | None => {| hasConfig := false; isJson := true; pretty := JS "" |}
  | Some portMapping =>
      if negb (truthy (configJson portMapping)) then
        {| hasConfig := true; isJson := true; pretty := JS "（空配置）" |}
      else
        match
          parsed ← JSON.parse (configJson portMapping);
          text ← JSON.stringify_within serializes parsed 2;
          Some {| hasConfig := true; isJson := true; pretty := text |}
        with
        | Some details => details
        | None =>
            {| hasConfig := true; isJson := false;
               pretty := configJson portMapping |}
        end
  end.

Definition handleSubmit (st : AppState) : prog unit :=
  perform preventDefault ;;
  let trimmed := trim (nodeName st) in
  if negb (truthy trimmed) then
    let message := JS "请输入节点名称" in
    perform (setErrorMessage (Some message)) ;;
    perform (setResponse None) ;;
    perform (toast_error message) ;;
    Return tt
  else
    perform (setLoading true) ;;
    perform (setErrorMessage None) ;;
    try
      result ← getNodeConfig trimmed;
      perform (setResponse (Some result)) ;;
      perform (toast_success
                 (JS "已加载节点「" ++ or_else (name result) trimmed
                  ++ JS "」的配置")) ;;
      if negb (bool_decide (is_Some (portMapping result))) then
        perform (toast_info (JS "该节点没有配置端口映射"))
      else Return tt
    catch (fun err =>
      let message :=
        match err with
        | ConnectError rawMessage _ => rawMessage
        | Error message => message
        | NotAnError => JS "无法获取节点配置"
        end in
      perform (setErrorMessage (Some message)) ;;
      perform (setResponse None) ;;
      perform (toast_error message))
    finally
      perform (setLoading false).

(** One submission of the form in state [st], the transport settling the
    call as [transport] says: the trace and the state the component is
    left in. *)
Definition submit (transport : jsstring -> settled) (st : AppState)
  : list event * AppState :=
  let '(tr, _) := exec transport (handleSubmit st) in
  (tr, state_after st tr).

(** ** The view

    The part of the JSX that depends on the state: the failure alert, the
    submit button, the notice next to it and the result card. *)

Inductive ConfigView : Type :=
| ConfigContent (text : jsstring) (notJsonWarning : bool)
| ConfigMissing.

Inductive PortMappingView : Type :=
| PortMappingPanel (modeLabel : jsstring) (config : ConfigView)
| NoPortMapping.

Inductive ResultView : Type :=
| ResultLoaded (nodeName : jsstring) (mapping : PortMappingView)
| ResultPlaceholder.

Record View : Type := {
  alert : option jsstring;
  submitDisabled : bool;
  loadedNotice : option jsstring;
  resultCard : ResultView;
}.

Section PortMappingMode.

(** The members of the generated enum [PortMappingMode]; their numbers
    are those of the protobuf schema. *)
Variables UNSPECIFIED SERVER CLIENT : Z.

Definition MODE_LABELS : gmap Z jsstring :=
  <[CLIENT := JS "Client"]>
    (<[SERVER := JS "Server"]>
       (<[UNSPECIFIED := JS "Unspecified"]> ∅)).

Definition getModeLabel (mode : Z) : jsstring :=
  default (JS "Unknown") (MODE_LABELS !! mode).

Definition render (serializes : JSON.value -> bool) (st : AppState)
  : View :=
  let portMapping := response st ≫= portMapping in
  let portMappingDetails := portMappingDetails serializes portMapping in
  {| alert :=
       match errorMessage st with
       | Some m => if truthy m then Some m else None
       | None => None
       end;
     submitDisabled := loading st;
     loadedNotice :=
       match response st with
       | Some r => Some (or_else (name r) (JS "（未命名）"))
       | None => None
       end;
     resultCard :=
       match response st with
       | Some r =>
           ResultLoaded (name r)
             match portMapping with
             | Some pm =>
                 PortMappingPanel (getModeLabel (mode pm))
                   (if hasConfig portMappingDetails
                    then ConfigContent (pretty portMappingDetails)
                           (negb (isJson portMappingDetails))
                    else ConfigMissing)
             | None => NoPortMapping
             end
       | None => ResultPlaceholder
       end |}.

End PortMappingMode.

(** [onChange] of the name input. *)
Definition setNodeName (v : jsstring) (st : AppState) : AppState :=
  {| nodeName := v; loading := loading st; errorMessage := errorMessage st;
     response := response st |}.

(** ** The properties under study *)

(** The displayed text of a port mapping whose configuration is valid JSON
    is the 2-space serialization of its value, and reads back as a value
    deep-equal to it. *)
Definition displays_round_trip (serializes : JSON.value -> bool)
  (pm : PortMapping) : Prop :=
  JSON.json_text (configJson pm) ->
  exists v v' : JSON.value,
    JSON.parse (configJson pm) = Some v
    /\ pretty (portMappingDetails serializes (Some pm)) = JSON.stringify v 2
    /\ JSON.parse (pretty (portMappingDetails serializes (Some pm))) = Some v'
    /\ JSON.deep_equal v' v = true.

(** The displayed text of a port mapping is its configuration as it came,
    flagged as not being JSON. *)
Definition displays_raw (serializes : JSON.value -> bool)
  (pm : PortMapping) : Prop :=
  pretty (portMappingDetails serializes (Some pm)) = configJson pm
  /\ isJson (portMappingDetails serializes (Some pm)) = false.

(** ** Sample data: the scenarios of the specification *)

Definition edge_01 : GetNodeConfigResponse :=
  {| name := JS "edge-01";
     portMapping :=
       Some {| mode := 1;
               configJson :=
                 JS "{" ++ JSON.quote (JS "port") ++ JS ":8080}" |} |}.

Definition edge_02 : GetNodeConfigResponse :=
  {| name := JS "edge-02"; portMapping := None |}.

Definition edge_04 : GetNodeConfigResponse :=
  {| name := JS "edge-04";
     portMapping := Some {| mode := 2; configJson := JS "not json" |} |}.

(** A form that shows [edge_01] and in which [v] has been typed. *)
Definition typed (v : jsstring) : AppState :=
  setNodeName v
    {| nodeName := []; loading := false; errorMessage := None;
       response := Some edge_01 |}.

Definition node_not_found : thrown :=
  ConnectError (JS "node not found") (JS "[not_found] node not found").

(** ** Sessions

    A user types a name and submits the form, the transport settles the
    call, and so on.  A [query] is the [onChange] of the input followed by
    one submission that runs to its end; the page of a session starts from
    the initial state of the component. *)

Record query : Type := {
  typedName : jsstring;
  outcome : jsstring -> settled;
}.

Definition run_query (st : AppState) (q : query) : AppState :=
  (submit (outcome q) (setNodeName (typedName q) st)).2.

Definition session (qs : list query) : AppState :=
  fold_left run_query qs initialState.

(** ** What is written of a value *)

(** What [JSON.stringify] keeps of a value: a Number that is not finite is
    written as [null]. *)
Fixpoint written_value (v : JSON.value) : JSON.value :=
  match v with
  | JSON.JNumber x => if JSON.is_finite x then v else JSON.JNull
  | JSON.JArray l => JSON.JArray (map written_value l)
  | JSON.JObject ps =>
      JSON.JObject (map (fun p => (p.1, written_value p.2)) ps)
  | _ => v
  end.

(** * Facts about the built-ins *)

Section NumberFacts.
Import JSON.
Local Open Scope Z_scope.

(** The mantissa before rounding lies within 53 bits, and at least 52
    bits are used above the least exponent. *)
Lemma mantissa_bounds (n q : Z) :
  0 <= n -> 0 < q ->
  let e := Z.max 0 (Z.log2 (n / q) - 52) in
  let m := n / (q * 2 ^ e) in
  0 <= e /\ 0 <= m < 2 ^ 53 /\ (0 < e -> 2 ^ 52 <= m).
Proof.
  intros Hn Hq e m.
  assert (He : 0 <= e) by (unfold e; lia).
  assert (Hpe : 0 < 2 ^ e) by (apply Z.pow_pos_nonneg; lia).
  assert (Hm : m = n / q / 2 ^ e) by (unfold m; rewrite Z.div_div; lia).
  assert (Hq0 : 0 <= n / q) by (apply Z.div_pos; lia).
  split; [exact He|].
  destruct (Z_le_gt_dec (Z.log2 (n / q) - 52) 0) as [Hl|Hl].
  - assert (e = 0) by (unfold e; lia).
    assert (m = n / q) by (rewrite Hm, H; simpl; apply Z.div_1_r).
    split; [|lia].
    destruct (Z.eq_dec (n / q) 0) as [Hz|Hz]; [lia|].
    assert (n / q < 2 ^ 53) by (apply Z.log2_lt_pow2; lia).
    lia.
  - assert (Ee : e = Z.log2 (n / q) - 52) by (unfold e; lia).
    assert (Hpos : 0 < n / q).
    { destruct (Z.eq_dec (n / q) 0) as [Hz|Hz]; [|lia].
      rewrite Hz in Hl. simpl in Hl. lia. }
    destruct (Z.log2_spec (n / q) Hpos) as [Hlo Hhi].
    replace (Z.log2 (n / q)) with (e + 52) in Hlo by lia.
    replace (Z.succ (Z.log2 (n / q))) with (e + 53) in Hhi by lia.
    rewrite Z.pow_add_r in Hlo, Hhi by lia.
    assert (2 ^ 52 <= m).
    { rewrite Hm. apply Z.div_le_lower_bound; lia. }
    assert (m < 2 ^ 53).
    { rewrite Hm. apply Z.div_lt_upper_bound; lia. }
    lia.
Qed.

Lemma make_finite_canonical (neg : bool) (m e : Z) :
  0 <= m <= 2 ^ 53 -> -1074 <= e ->
  (m < 2 ^ 52 -> e = -1074) ->
  canonical_number (make_finite neg m e).
Proof.
  intros Hm He Hs. unfold make_finite.
  destruct (Z.eqb_spec m (2 ^ 53)) as [->|Hne].
  - destruct (Z.ltb_spec 971 (e + 1)); simpl; [exact I|]. lia.
  - destruct (Z.ltb_spec 971 e); simpl; [exact I|]. lia.
Qed.

Lemma round_ratio_canonical (neg : bool) (p q : Z) :
  0 <= p -> 0 < q -> canonical_number (round_ratio neg p q).
Proof.
  intros Hp Hq. unfold round_ratio.
  assert (Hn : 0 <= p * 2 ^ 1074) by (apply Z.mul_nonneg_nonneg; [lia|apply Z.pow_nonneg; lia]).
  generalize dependent (p * 2 ^ 1074). intros n Hn.
  destruct (mantissa_bounds n q Hn Hq) as (He & Hm & Hnorm).
  apply make_finite_canonical.
  - destruct (_ || _); lia.
  - lia.
  - intros Hlt.
    destruct (Z_le_gt_dec (Z.max 0 (Z.log2 (n / q) - 52)) 0) as [?|Hgt]; [lia|].
    specialize (Hnorm ltac:(lia)). destruct (_ || _); lia.
Qed.

Lemma of_decimal_canonical (neg : bool) (m x : Z) :
  0 <= m -> canonical_number (of_decimal neg m x).
Proof.
  intros Hm. unfold of_decimal. destruct (0 <=? x) eqn:Hx.
  - apply round_ratio_canonical; [|lia].
    apply Z.mul_nonneg_nonneg; [lia|apply Z.pow_nonneg; lia].
  - apply round_ratio_canonical; [lia|].
    apply Z.pow_pos_nonneg; lia.
Qed.

Lemma round_ratio_scale (neg : bool) (p q c : Z) :
  0 < q -> 0 < c -> round_ratio neg (p * c) (q * c) = round_ratio neg p q.
Proof.
  intros Hq Hc. unfold round_ratio.
  replace (p * c * 2 ^ 1074) with (p * 2 ^ 1074 * c) by ring.
  generalize (p * 2 ^ 1074). intros n.
  rewrite Z.div_mul_cancel_r by lia.
  set (e := Z.max 0 (Z.log2 (n / q) - 52)).
  assert (Hpe : 0 < 2 ^ e) by (apply Z.pow_pos_nonneg; lia).
  replace (q * c * 2 ^ e) with (q * 2 ^ e * c) by ring.
  assert (Hd : 0 < q * 2 ^ e) by lia.
  generalize dependent (q * 2 ^ e). intros d Hd.
  rewrite Z.div_mul_cancel_r by lia.
  rewrite Z.mul_mod_distr_r by lia.
  assert (Hr := Z.mod_pos_bound n d Hd).
  replace (d * c <? 2 * (n mod d * c)) with (d <? 2 * (n mod d)).
  2:{ destruct (Z.ltb_spec d (2 * (n mod d))), (Z.ltb_spec (d * c) (2 * (n mod d * c))); try reflexivity; nia. }
  replace (d * c =? 2 * (n mod d * c)) with (d =? 2 * (n mod d)).
  2:{ destruct (Z.eqb_spec d (2 * (n mod d))), (Z.eqb_spec (d * c) (2 * (n mod d * c))); try reflexivity; nia. }
  reflexivity.
Qed.

(** The Number value of a rational depends on its value only. *)
Lemma round_ratio_ext (neg : bool) (p q p' q' : Z) :
  0 < q -> 0 < q' -> p * q' = p' * q ->
  round_ratio neg p q = round_ratio neg p' q'.
Proof.
  intros Hq Hq' Heq.
  rewrite <- (round_ratio_scale neg p q q') by lia.
  rewrite <- (round_ratio_scale neg p' q' q) by lia.
  rewrite Heq. f_equal. ring.
Qed.

(** A rational that is a double is its own Number value. *)
Lemma round_ratio_exact (neg : bool) (p q m e : Z) :
  0 < q -> 0 < m -> canonical_number (NFin neg m e) ->
  p * 2 ^ 1074 = m * 2 ^ (e + 1074) * q ->
  round_ratio neg p q = NFin neg m e.
Proof.
  intros Hq Hm (Hmb & Heb & Hsub) Heq. unfold round_ratio.
  rewrite Heq. clear Heq p.
  assert (Hpe : 0 < 2 ^ (e + 1074)) by (apply Z.pow_pos_nonneg; lia).
  rewrite Z.div_mul by lia.
  assert (Hl : Z.log2 (m * 2 ^ (e + 1074)) = Z.log2 m + (e + 1074)).
  { rewrite <- Z.shiftl_mul_pow2 by lia. apply Z.log2_shiftl; lia. }
  rewrite Hl.
  assert (Hlm : Z.log2 m <= 52).
  { destruct (Z.log2_spec m Hm) as [Hlo _].
    destruct (Z_le_gt_dec (Z.log2 m) 52); [assumption|exfalso].
    assert (2 ^ 53 <= 2 ^ Z.log2 m) by (apply Z.pow_le_mono_r; lia). lia. }
  assert (HE : Z.max 0 (Z.log2 m + (e + 1074) - 52) = e + 1074).
  { destruct (Z_lt_le_dec m (2 ^ 52)) as [Hs|Hn].
    - rewrite (Hsub Hs). lia.
    - assert (52 <= Z.log2 m) by (apply Z.log2_le_pow2; lia). lia. }
  rewrite HE.
  replace (m * 2 ^ (e + 1074) * q) with (m * (q * 2 ^ (e + 1074))) by ring.
  assert (Hd : 0 < q * 2 ^ (e + 1074)) by lia.
  rewrite Z.div_mul by lia. rewrite Z.mod_mul by lia.
  replace (q * 2 ^ (e + 1074) <? 2 * 0) with false
    by (symmetry; apply Z.ltb_ge; lia).
  replace (q * 2 ^ (e + 1074) =? 2 * 0) with false
    by (symmetry; apply Z.eqb_neq; lia).
  simpl orb. cbv iota. unfold make_finite.
  replace (m =? 2 ^ 53) with false by (symmetry; apply Z.eqb_neq; lia).
  replace (e + 1074 - 1074) with e by lia.
  replace (971 <? e) with false by (symmetry; apply Z.ltb_ge; lia).
  reflexivity.
Qed.

(** [of_decimal neg m x] is the Number value of any fraction equal to
    [m * 10^x]. *)
Lemma of_decimal_ratio (neg : bool) (m x p q : Z) :
  0 < q ->
  (if 0 <=? x then p = m * 10 ^ x * q else p * 10 ^ (- x) = m * q) ->
  of_decimal neg m x = round_ratio neg p q.
Proof.
  intros Hq. unfold of_decimal. destruct (Z.leb_spec 0 x) as [Hx|Hx]; intros Heq.
  - apply round_ratio_ext; lia.
  - assert (0 < 10 ^ (- x)) by (apply Z.pow_pos_nonneg; lia).
    apply round_ratio_ext; lia.
Qed.

(** Two decimals with the same value have the same Number value. *)
Lemma of_decimal_shift (neg : bool) (m x j : Z) :
  0 <= j -> of_decimal neg (m * 10 ^ j) x = of_decimal neg m (x + j).
Proof.
  intros Hj. symmetry.
  assert (Hpj : 0 < 10 ^ j) by (apply Z.pow_pos_nonneg; lia).
  unfold of_decimal at 2. destruct (Z.leb_spec 0 x) as [Hx|Hx].
  - apply of_decimal_ratio; [lia|].
    replace (0 <=? x + j) with true by (symmetry; apply Z.leb_le; lia).
    rewrite Z.pow_add_r by lia. ring.
  - assert (0 < 10 ^ (- x)) by (apply Z.pow_pos_nonneg; lia).
    apply of_decimal_ratio; [lia|].
    destruct (Z.leb_spec 0 (x + j)) as [Hxj|Hxj].
    + replace j with ((x + j) + (- x)) at 1 by lia.
      rewrite Z.pow_add_r by lia. ring.
    + replace (- x) with (- (x + j) + j) by lia.
      rewrite Z.pow_add_r by lia. ring.
Qed.

(** **** Decimal digits *)

Lemma digits_value_fold (ds : list N) :
  digits_value ds = fold_left read_digit ds 0.
Proof. reflexivity. Qed.

Lemma digit_value_char (d : Z) : 0 <= d <= 9 -> digit_value (digit_char d) = d.
Proof. intros Hd. unfold digit_value, digit_char. lia. Qed.

Lemma is_digit_char (d : Z) : 0 <= d <= 9 -> is_digit (digit_char d) = true.
Proof.
  intros Hd. unfold is_digit, digit_char.
  apply andb_true_intro; split; apply N.leb_le; lia.
Qed.

Lemma log2_div10 (z : Z) : 10 <= z -> Z.log2 (z / 10) < Z.log2 z.
Proof.
  intros Hz.
  assert (Z.log2 (z / 10) <= Z.log2 (z / 2)).
  { apply Z.log2_le_mono. apply Z.div_le_lower_bound; [lia|].
    assert (H := Z.mul_div_le z 10 ltac:(lia)).
    assert (H2 := Z.mul_div_le z 2 ltac:(lia)).
    assert (H3 := Z.mod_pos_bound z 2 ltac:(lia)).
    assert (H4 := Z.div_mod z 2 ltac:(lia)).
    assert (H5 := Z.div_mod z 10 ltac:(lia)).
    assert (H6 := Z.mod_pos_bound z 10 ltac:(lia)). lia. }
  assert (Hh : 0 < z / 2) by (apply Z.div_str_pos; lia).
  assert (Hd := Z.div_mod z 2 ltac:(lia)).
  assert (Hm := Z.mod_pos_bound z 2 ltac:(lia)).
  destruct (Z.eq_dec (z mod 2) 0) as [H0|H1].
  - rewrite Hd at 2. rewrite H0, Z.add_0_r.
    rewrite Z.log2_double by lia. lia.
  - replace (z mod 2) with 1 in Hd by lia. rewrite Hd at 2.
    rewrite Z.log2_succ_double by lia. lia.
Qed.

Lemma digits_aux_value (fuel : nat) (z : Z) (acc : list N) :
  0 <= z -> Z.log2 z < Z.of_nat fuel ->
  fold_left read_digit (digits_aux fuel z acc) 0 = fold_left read_digit acc z.
Proof.
  revert z acc. induction fuel as [|f IH]; intros z acc Hz Hf.
  - assert (0 <= Z.log2 z) by apply Z.log2_nonneg. lia.
  - simpl digits_aux. destruct (Z.ltb_spec z 10) as [Hlt|Hge].
    + simpl. unfold read_digit at 2. rewrite digit_value_char by lia.
      f_equal.
    + assert (Hm := Z.mod_pos_bound z 10 ltac:(lia)).
      rewrite IH.
      * simpl. unfold read_digit at 2. rewrite digit_value_char by lia.
        f_equal. rewrite (Z.div_mod z 10) at 3 by lia. reflexivity.
      * apply Z.div_pos; lia.
      * assert (H := log2_div10 z Hge). lia.
Qed.

Lemma digits_value_digits (z : Z) : 0 <= z -> digits_value (digits z) = z.
Proof.
  intros Hz. rewrite digits_value_fold. unfold digits.
  rewrite digits_aux_value; [reflexivity|assumption|].
  assert (0 <= Z.log2 z) by apply Z.log2_nonneg. lia.
Qed.

Lemma digits_aux_all_digits (fuel : nat) (z : Z) (acc : list N) :
  0 <= z -> forallb is_digit acc = true ->
  forallb is_digit (digits_aux fuel z acc) = true.
Proof.
  revert z acc. induction fuel as [|f IH]; intros z acc Hz Hacc; [exact Hacc|].
  simpl digits_aux. destruct (Z.ltb_spec z 10) as [Hlt|Hge].
  - simpl. rewrite is_digit_char by lia. exact Hacc.
  - assert (Hm := Z.mod_pos_bound z 10 ltac:(lia)).
    apply IH; [apply Z.div_pos; lia|].
    simpl. rewrite is_digit_char by lia. exact Hacc.
Qed.

Lemma digits_all_digits (z : Z) : 0 <= z -> forallb is_digit (digits z) = true.
Proof. intros Hz. apply digits_aux_all_digits; [assumption|reflexivity]. Qed.

(** The first digit of a positive number is not a zero. *)
Lemma digits_aux_head (fuel : nat) (z : Z) (acc : list N) :
  0 < z -> Z.log2 z < Z.of_nat fuel ->
  exists d r, digits_aux fuel z acc = digit_char d :: r /\ 1 <= d <= 9.
Proof.
  revert z acc. induction fuel as [|f IH]; intros z acc Hz Hf.
  - assert (0 <= Z.log2 z) by apply Z.log2_nonneg. lia.
  - simpl digits_aux. destruct (Z.ltb_spec z 10) as [Hlt|Hge].
    + exists z, acc. split; [reflexivity|lia].
    + apply IH.
      * apply Z.div_str_pos; lia.
      * assert (H := log2_div10 z Hge). lia.
Qed.

Lemma digits_head (z : Z) :
  0 < z -> exists d r, digits z = digit_char d :: r /\ 1 <= d <= 9.
Proof.
  intros Hz. apply digits_aux_head; [assumption|].
  assert (0 <= Z.log2 z) by apply Z.log2_nonneg. lia.
Qed.

Lemma digits_value_app (a b : list N) :
  digits_value (a ++ b)
  = digits_value a * 10 ^ Z.of_nat (length b) + digits_value b.
Proof.
  rewrite !digits_value_fold. rewrite fold_left_app.
  generalize (fold_left read_digit a 0). clear a.
  induction b as [|c b IH]; intros z.
  - simpl. lia.
  - simpl fold_left. rewrite IH. rewrite (IH (read_digit 0 c)).
    replace (Z.of_nat (length (c :: b))) with (Z.of_nat (length b) + 1)
      by (simpl length; lia).
    rewrite Z.pow_add_r by lia. unfold read_digit. ring.
Qed.

Lemma digits_value_zeros (n : Z) : digits_value (zeros n) = 0.
Proof.
  unfold zeros. rewrite digits_value_fold.
  induction (Z.to_nat n) as [|k IH]; [reflexivity|].
  simpl. exact IH.
Qed.

Lemma zeros_length (n : Z) : 0 <= n -> Z.of_nat (length (zeros n)) = n.
Proof. intros Hn. unfold zeros. rewrite repeat_length. lia. Qed.

Lemma zeros_all_digits (n : Z) : forallb is_digit (zeros n) = true.
Proof.
  unfold zeros. induction (Z.to_nat n) as [|k IH]; [reflexivity|exact IH].
Qed.

(** **** Number::toString finds digits that read back as the number *)

Lemma number_eqb_eq (x y : number) : number_eqb x y = true -> x = y.
Proof.
  destruct x as [|a|a m e], y as [|b|b m' e']; simpl; try discriminate;
    try reflexivity.
  - intros H. apply eqb_prop in H. congruence.
  - intros H. apply andb_prop in H as [H He]. apply andb_prop in H as [Hs Hm].
    apply eqb_prop in Hs. apply Z.eqb_eq in Hm, He. congruence.
Qed.

Lemma number_eqb_refl (x : number) : number_eqb x x = true.
Proof.
  destruct x as [|a|a m e]; simpl; [reflexivity|apply eqb_reflx|].
  rewrite eqb_reflx, !Z.eqb_refl. reflexivity.
Qed.

Lemma scale10_pos (a b t n d : Z) :
  0 <= a -> 0 < b -> scale10 a b t = (n, d) -> 0 <= n /\ 0 < d.
Proof.
  intros Ha Hb. unfold scale10. destruct (Z.leb_spec 0 t) as [Ht|Ht];
    intros [= <- <-].
  - assert (0 < 10 ^ t) by (apply Z.pow_pos_nonneg; lia). nia.
  - assert (0 < 10 ^ (- t)) by (apply Z.pow_pos_nonneg; lia). nia.
Qed.

Lemma shortest_sound (fuel : nat) (x : number) (a b t s t' : Z) :
  0 <= a -> 0 < b ->
  shortest fuel x a b t = Some (s, t') ->
  0 < s /\ of_decimal false s t' = x.
Proof.
  intros Ha Hb. revert t. induction fuel as [|f IH]; intros t; [discriminate|].
  simpl shortest. destruct (scale10 a b t) as [n d] eqn:Hsc.
  destruct (scale10_pos a b t n d Ha Hb Hsc) as [Hn Hd].
  assert (Hlo : 0 <= n / d) by (apply Z.div_pos; lia).
  destruct ((0 <? n / d) && number_eqb (of_decimal false (n / d) t) x) eqn:Hoklo;
    destruct (number_eqb (of_decimal false (n / d + 1) t) x) eqn:Hokhi;
    simpl andb; cbv iota.
  - apply andb_prop in Hoklo as [Hp Hq]. apply Z.ltb_lt in Hp.
    apply number_eqb_eq in Hq, Hokhi.
    destruct (_ || _); intros [= <- <-]; split; (lia || assumption).
  - apply andb_prop in Hoklo as [Hp Hq]. apply Z.ltb_lt in Hp.
    apply number_eqb_eq in Hq. intros [= <- <-]. split; assumption.
  - apply number_eqb_eq in Hokhi. intros [= <- <-]. split; [lia|assumption].
  - apply IH.
Qed.

Lemma pow10_split (k : Z) : 0 <= k -> 10 ^ k = 2 ^ k * 5 ^ k.
Proof. intros Hk. rewrite <- Z.pow_mul_l. reflexivity. Qed.

(** Far enough to the right the decimal expansion of a double is exact,
    so the search ends. *)
Lemma shortest_exact_step (m e t : Z) :
  0 < m -> canonical_number (NFin false m e) -> t <= Z.min e 0 ->
  let '(n, d) := scale10 (m * 2 ^ (e + 1074)) (2 ^ 1074) t in
  (0 <? n / d) && number_eqb (of_decimal false (n / d) t) (NFin false m e)
  = true.
Proof.
  intros Hm Hc Ht.
  assert (Hc' := Hc). destruct Hc' as (Hmb & Heb & Hsub).
  set (lo := m * 5 ^ (- t) * 2 ^ (e - t)).
  assert (H5 : 0 < 5 ^ (- t)) by (apply Z.pow_pos_nonneg; lia).
  assert (H2 : 0 < 2 ^ (e - t)) by (apply Z.pow_pos_nonneg; lia).
  assert (Hb : 0 < 2 ^ 1074) by (apply Z.pow_pos_nonneg; lia).
  assert (Hlo : 0 < lo) by (unfold lo; nia).
  assert (Hn : m * 2 ^ (e + 1074) * 10 ^ (- t) = lo * 2 ^ 1074).
  { assert (P : 2 ^ (e + 1074) * 2 ^ (- t) = 2 ^ (e - t) * 2 ^ 1074).
    { rewrite <- !Z.pow_add_r by lia. f_equal. lia. }
    unfold lo. rewrite pow10_split by lia.
    replace (m * 2 ^ (e + 1074) * (2 ^ (- t) * 5 ^ (- t)))
      with (m * 5 ^ (- t) * (2 ^ (e + 1074) * 2 ^ (- t))) by ring.
    rewrite P. ring. }
  assert (Hsc : scale10 (m * 2 ^ (e + 1074)) (2 ^ 1074) t
                = (if 0 <=? t then m * 2 ^ (e + 1074) else lo * 2 ^ 1074,
                   if 0 <=? t then 2 ^ 1074 * 10 ^ t else 2 ^ 1074)).
  { unfold scale10. destruct (0 <=? t); [reflexivity|]. rewrite Hn. reflexivity. }
  rewrite Hsc.
  assert (Hq : (if 0 <=? t then m * 2 ^ (e + 1074) else lo * 2 ^ 1074)
               / (if 0 <=? t then 2 ^ 1074 * 10 ^ t else 2 ^ 1074) = lo).
  { destruct (Z.leb_spec 0 t) as [H0|H0].
    - assert (t = 0) by lia. subst t. simpl (10 ^ 0). rewrite Z.mul_1_r.
      simpl (- 0) in Hn. simpl (10 ^ 0) in Hn. rewrite Z.mul_1_r in Hn.
      rewrite Hn. apply Z.div_mul. lia.
    - apply Z.div_mul. lia. }
  rewrite Hq.
  replace (0 <? lo) with true by (symmetry; apply Z.ltb_lt; lia).
  simpl andb.
  rewrite (of_decimal_ratio false lo t lo (10 ^ (- t))).
  - rewrite (round_ratio_exact false lo (10 ^ (- t)) m e);
      [apply number_eqb_refl| | | |].
    + apply Z.pow_pos_nonneg; lia.
    + assumption.
    + assumption.
    + rewrite <- Hn. reflexivity.
  - apply Z.pow_pos_nonneg; lia.
  - destruct (Z.leb_spec 0 t) as [H0|H0]; [|reflexivity].
    assert (t = 0) by lia. subst t. simpl. lia.
Qed.

Lemma shortest_total (fuel : nat) (m e t : Z) :
  0 < m -> canonical_number (NFin false m e) ->
  (0 < fuel)%nat -> t - Z.min e 0 < Z.of_nat fuel ->
  exists r,
    shortest fuel (NFin false m e) (m * 2 ^ (e + 1074)) (2 ^ 1074) t = Some r.
Proof.
  intros Hm Hc. revert t. induction fuel as [|f IH]; intros t Hpos Hf.
  - lia.
  - simpl shortest.
    assert (Hex := shortest_exact_step m e t Hm Hc).
    destruct (scale10 (m * 2 ^ (e + 1074)) (2 ^ 1074) t) as [n d].
    destruct ((0 <? n / d)
              && number_eqb (of_decimal false (n / d) t) (NFin false m e))
      eqn:Hoklo.
    + destruct (number_eqb (of_decimal false (n / d + 1) t) (NFin false m e));
        simpl andb; cbv iota.
      * destruct (_ || _); eexists; reflexivity.
      * eexists; reflexivity.
    + simpl andb. cbv iota.
      destruct (number_eqb (of_decimal false (n / d + 1) t) (NFin false m e)).
      * eexists; reflexivity.
      * destruct (Z_le_gt_dec t (Z.min e 0)) as [Hle|Hgt].
        -- specialize (Hex Hle). congruence.
        -- apply IH; lia.
Qed.

Lemma strip_zeros_sound (fuel : nat) (s t s' t' : Z) :
  0 < s -> strip_zeros fuel s t = (s', t') ->
  0 < s' /\ of_decimal false s' t' = of_decimal false s t.
Proof.
  revert s t. induction fuel as [|f IH]; intros s t Hs; simpl.
  - intros [= <- <-]. split; [assumption|reflexivity].
  - destruct (Z.eqb_spec (s mod 10) 0) as [H0|H0].
    + intros H. assert (Hd := Z.div_mod s 10 ltac:(lia)).
      apply IH in H; [|lia]. destruct H as [Hp Heq]. split; [assumption|].
      rewrite Heq. rewrite <- (of_decimal_shift false (s / 10) t 1) by lia.
      f_equal. simpl (10 ^ 1). lia.
    + intros [= <- <-]. split; [assumption|reflexivity].
Qed.

Lemma shortest_decimal_spec (m e : Z) :
  0 < m -> canonical_number (NFin false m e) ->
  0 < (shortest_decimal m e).1
  /\ of_decimal false (shortest_decimal m e).1 (shortest_decimal m e).2
     = NFin false m e.
Proof.
  intros Hm Hc. unfold shortest_decimal.
  set (a := m * 2 ^ (e + 1074)). set (b := 2 ^ 1074).
  set (n := decimal_exponent a b).
  assert (Hb : 0 < b) by (apply Z.pow_pos_nonneg; lia).
  assert (Ha : 0 <= a).
  { destruct Hc as (_ & He & _).
    assert (0 < 2 ^ (e + 1074)) by (apply Z.pow_pos_nonneg; lia).
    unfold a. nia. }
  destruct (shortest_total (S (Z.to_nat (n - Z.min e 0))) m e (n - 1) Hm Hc)
    as [[s t] Hst]; [lia|lia|].
  fold a b in Hst. rewrite Hst.
  apply shortest_sound in Hst as [Hs Heq]; [|assumption..].
  destruct (strip_zeros (S (Z.to_nat (Z.log2 s))) s t) as [s' t'] eqn:Hz.
  apply strip_zeros_sound in Hz as [Hs' Heq']; [|assumption].
  simpl. split; [assumption|congruence].
Qed.

Lemma round_ratio_sign (neg : bool) (p q m e : Z) :
  round_ratio false p q = NFin false m e -> round_ratio neg p q = NFin neg m e.
Proof.
  unfold round_ratio, make_finite.
  repeat match goal with |- context [if ?c then _ else _] => destruct c end;
    congruence.
Qed.

Lemma of_decimal_sign (neg : bool) (s t m e : Z) :
  of_decimal false s t = NFin false m e -> of_decimal neg s t = NFin neg m e.
Proof. unfold of_decimal. destruct (0 <=? t); apply round_ratio_sign. Qed.

(** **** Reading back what Number::toString wrote *)

Lemma span_digits_app (ds rest : list N) :
  forallb is_digit ds = true -> no_digit_head rest ->
  span_digits (ds ++ rest) = (ds, rest).
Proof.
  intros Hds Hrest. induction ds as [|c ds IH]; simpl.
  - destruct rest as [|c r]; [reflexivity|]. simpl in Hrest.
    simpl. rewrite Hrest. reflexivity.
  - simpl in Hds. apply andb_prop in Hds as [Hc Hds].
    rewrite Hc, (IH Hds). reflexivity.
Qed.

Lemma digits_aux_nonempty (fuel : nat) (z : Z) (acc : list N) :
  acc <> [] -> digits_aux fuel z acc <> [].
Proof.
  revert z acc. induction fuel as [|f IH]; intros z acc Hacc; simpl;
    [assumption|].
  destruct (z <? 10); [discriminate|]. apply IH. discriminate.
Qed.

Lemma digits_nonempty (z : Z) : digits z <> [].
Proof.
  unfold digits. simpl. destruct (z <? 10); [discriminate|].
  apply digits_aux_nonempty. discriminate.
Qed.

Lemma eqb_digit_false (c k : N) :
  is_digit c = true -> (k < 48 \/ 57 < k)%N -> (c =? k)%N = false.
Proof.
  unfold is_digit. intros H Hk. apply andb_prop in H as [H1 H2].
  apply N.leb_le in H1, H2. apply N.eqb_neq. lia.
Qed.

Lemma read_exponent_part (n : Z) :
  read_exponent (exponent_part n) = Some (n - 1).
Proof.
  unfold exponent_part, read_exponent.
  replace ((101 =? 101)%N || (101 =? 69)%N) with true by reflexivity.
  assert (Hds := digits_all_digits (Z.abs (n - 1)) ltac:(lia)).
  assert (Hne := digits_nonempty (Z.abs (n - 1))).
  assert (Hv := digits_value_digits (Z.abs (n - 1)) ltac:(lia)).
  destruct (Z.ltb_spec (n - 1) 0) as [Hn|Hn]; simpl read_exponent_sign.
  - rewrite <- (app_nil_r (digits _)), span_digits_app by (assumption || exact I).
    rewrite bool_decide_eq_false_2 by assumption.
    rewrite bool_decide_eq_true_2 by reflexivity.
    simpl. rewrite Hv. f_equal. lia.
  - rewrite <- (app_nil_r (digits _)), span_digits_app by (assumption || exact I).
    rewrite bool_decide_eq_false_2 by assumption.
    rewrite bool_decide_eq_true_2 by reflexivity.
    simpl. rewrite Hv. f_equal. lia.
Qed.

Lemma number_of_chars_parts (neg : bool) (ip fp etxt : list N) (x : Z) :
  valid_integer_part ip -> forallb is_digit fp = true ->
  read_exponent etxt = Some x ->
  match etxt with [] => True | c :: _ => c = 101%N \/ c = 69%N end ->
  number_of_chars ((if neg then [45%N] else []) ++ ip ++ fraction_text fp ++ etxt)
  = Some (of_decimal neg (digits_value (ip ++ fp)) (x - Z.of_nat (length fp))).
Proof.
  intros [Hip Hhd] Hfp Hex Hetxt. unfold number_of_chars.
  assert (Hm : read_minus ((if neg then [45%N] else []) ++ ip ++ fraction_text fp ++ etxt)
               = (neg, ip ++ fraction_text fp ++ etxt)).
  { destruct neg; [reflexivity|]. destruct ip as [|d r]; [contradiction|].
    simpl in Hip. apply andb_prop in Hip as [Hd _]. simpl.
    rewrite (eqb_digit_false d 45 Hd) by lia. reflexivity. }
  rewrite Hm.
  assert (Het : no_digit_head etxt /\ match etxt with [] => True | c :: _ => (c =? 46)%N = false end).
  { destruct etxt as [|c r]; [split; exact I|].
    destruct Hetxt as [->| ->]; split; reflexivity. }
  destruct Het as [Het1 Het2].
  rewrite span_digits_app; [| assumption |].
  2:{ destruct fp as [|c r]; simpl; [assumption|reflexivity]. }
  destruct ip as [|d r]; [contradiction|].
  assert (Hz : (d =? 48)%N && negb (bool_decide (r = [])) = false).
  { destruct (N.eqb_spec d 48) as [->|]; [|reflexivity].
    rewrite (Hhd eq_refl). reflexivity. }
  rewrite Hz.
  assert (Hf : read_fraction (fraction_text fp ++ etxt) = Some (fp, etxt)).
  { destruct fp as [|c r'].
    - unfold fraction_text. rewrite app_nil_l.
      destruct etxt as [|c r']; [reflexivity|].
      unfold read_fraction. rewrite Het2. reflexivity.
    - unfold fraction_text, read_fraction.
      change ((46%N :: c :: r') ++ etxt) with (46%N :: (c :: r') ++ etxt).
      cbv beta iota. rewrite N.eqb_refl.
      rewrite span_digits_app by assumption.
      reflexivity. }
  rewrite Hf, Hex. reflexivity.
Qed.

Lemma forallb_take_drop (f : N -> bool) (n : nat) (l : list N) :
  forallb f l = true -> forallb f (take n l) = true /\ forallb f (drop n l) = true.
Proof.
  intros H. rewrite <- (take_drop n l) in H.
  rewrite forallb_app in H. apply andb_prop in H. exact H.
Qed.

Lemma number_of_chars_layout (neg : bool) (s t : Z) :
  0 < s ->
  number_of_chars
    ((if neg then [45%N] else [])
     ++ layout (digits s) (t + Z.of_nat (length (digits s))))
  = Some (of_decimal neg s t).
Proof.
  intros Hs.
  destruct (digits_head s Hs) as (d & r & Hds & Hd).
  assert (Hall := digits_all_digits s ltac:(lia)).
  assert (Hval := digits_value_digits s ltac:(lia)).
  set (ds := digits s) in *. set (k := Z.of_nat (length ds)).
  set (n := t + k). unfold layout. fold k.
  assert (Hk : 1 <= k) by (unfold k; rewrite Hds; simpl length; lia).
  assert (Hd48 : digit_char d <> 48%N) by (unfold digit_char; lia).
  destruct ((k <=? n) && (n <=? 21)) eqn:C1.
  { apply andb_prop in C1 as [C1 _]. apply Z.leb_le in C1.
    replace (ds ++ zeros (n - k))
      with ((ds ++ zeros (n - k)) ++ fraction_text [] ++ [])
      by (simpl; rewrite app_nil_r; reflexivity).
    rewrite (number_of_chars_parts neg (ds ++ zeros (n - k)) [] [] 0);
      [| |reflexivity|reflexivity|exact I].
    - rewrite app_nil_r, digits_value_app, digits_value_zeros, Hval.
      rewrite zeros_length by lia. rewrite Z.add_0_r.
      rewrite of_decimal_shift by lia. do 2 f_equal. simpl length.
      unfold n. lia.
    - split.
      + rewrite forallb_app, Hall, zeros_all_digits. reflexivity.
      + rewrite Hds. simpl. intros ?. contradiction. }
  destruct ((0 <? n) && (n <=? 21)) eqn:C2.
  { apply andb_prop in C2 as [C2 C2']. apply Z.ltb_lt in C2.
    apply Z.leb_le in C2'.
    assert (Hnk : n < k).
    { destruct (Z_lt_le_dec n k); [assumption|].
      rewrite (proj2 (Z.leb_le k n)), (proj2 (Z.leb_le n 21)) in C1
        by assumption. discriminate. }
    destruct (forallb_take_drop is_digit (Z.to_nat n) ds Hall) as [Ht Hdr].
    assert (Hdne : drop (Z.to_nat n) ds <> []).
    { intros E. apply (f_equal length) in E. rewrite length_drop in E.
      simpl in E. unfold k in Hnk. lia. }
    assert (Hft : 46%N :: drop (Z.to_nat n) ds
                  = fraction_text (drop (Z.to_nat n) ds) ++ []).
    { rewrite app_nil_r. unfold fraction_text.
      destruct (drop (Z.to_nat n) ds); [contradiction|reflexivity]. }
    rewrite Hft.
    rewrite (number_of_chars_parts neg (take (Z.to_nat n) ds) _ [] 0);
      [| |assumption|reflexivity|exact I].
    - rewrite take_drop, Hval. do 2 f_equal. rewrite length_drop.
      unfold n, k in *. lia.
    - split; [assumption|].
      rewrite Hds. destruct (Z.to_nat n) eqn:E; [lia|]. simpl.
      intros ?. contradiction. }
  destruct ((-6 <? n) && (n <=? 0)) eqn:C3.
  { apply andb_prop in C3 as [C3 C3']. apply Z.ltb_lt in C3.
    apply Z.leb_le in C3'.
    assert (Hft : 48%N :: 46%N :: zeros (- n) ++ ds
                  = [48%N] ++ fraction_text (zeros (- n) ++ ds) ++ []).
    { rewrite app_nil_r. unfold fraction_text.
      destruct (zeros (- n) ++ ds) eqn:E; [|reflexivity].
      apply app_eq_nil in E as [_ E]. rewrite Hds in E. discriminate. }
    rewrite Hft.
    rewrite (number_of_chars_parts neg _ _ [] 0);
      [| |rewrite forallb_app, Hall, zeros_all_digits; reflexivity
       |reflexivity|exact I].
    - do 2 f_equal.
      + change ([48%N] ++ zeros (- n) ++ ds) with (zeros 1 ++ zeros (- n) ++ ds).
        rewrite !digits_value_app, !digits_value_zeros, Hval. ring.
      + rewrite length_app, Nat2Z.inj_add, zeros_length by lia.
        unfold n, k in *. lia.
    - split; [reflexivity|]. intros _. reflexivity. }
  assert (Hex := read_exponent_part n).
  assert (Hehd : match exponent_part n with
                 | [] => True
                 | c :: _ => c = 101%N \/ c = 69%N
                 end)
    by (left; reflexivity).
  rewrite Hds. destruct r as [|c r].
  - change (digit_char d :: exponent_part n)
      with ([digit_char d] ++ fraction_text [] ++ exponent_part n).
    assert (H1 : valid_integer_part [digit_char d]).
    { split; [rewrite <- Hds; exact Hall|intros ?; contradiction]. }
    rewrite (number_of_chars_parts neg [digit_char d] [] (exponent_part n)
               (n - 1) H1 eq_refl Hex Hehd).
    rewrite app_nil_r, <- Hds, Hval. do 2 f_equal.
    unfold n, k. rewrite Hds. simpl length. lia.
  - change (digit_char d :: 46%N :: (c :: r) ++ exponent_part n)
      with ([digit_char d] ++ fraction_text (c :: r) ++ exponent_part n).
    assert (Hr : forallb is_digit (c :: r) = true).
    { rewrite Hds in Hall. simpl in Hall. apply andb_prop in Hall as [_ Hall].
      exact Hall. }
    assert (H1 : valid_integer_part [digit_char d]).
    { split; [|intros ?; contradiction].
      rewrite Hds in Hall. simpl in Hall. apply andb_prop in Hall as [Hall _].
      simpl. rewrite Hall. reflexivity. }
    rewrite (number_of_chars_parts neg [digit_char d] (c :: r)
               (exponent_part n) (n - 1) H1 Hr Hex Hehd).
    change ([digit_char d] ++ c :: r) with (digit_char d :: c :: r).
    rewrite <- Hds, Hval. do 2 f_equal.
    unfold n, k. rewrite Hds. simpl length. lia.
Qed.

Lemma number_of_chars_to_string (x : number) :
  canonical_number x -> is_finite x = true ->
  number_of_chars (to_string x) = Some (positive_zero x).
Proof.
  destruct x as [| |neg m e]; try discriminate. intros Hc _.
  unfold to_string, positive_zero.
  destruct (Z.eqb_spec m 0) as [->|Hm].
  - destruct Hc as (_ & _ & He). rewrite He by lia. reflexivity.
  - assert (Hpos : 0 < m) by (destruct Hc; lia).
    destruct (shortest_decimal_spec m e Hpos Hc) as [Hs Heq].
    destruct (shortest_decimal m e) as [s t]. simpl in Hs, Heq.
    rewrite number_of_chars_layout by assumption.
    f_equal. apply of_decimal_sign. exact Heq.
Qed.

End NumberFacts.

Section StringFacts.
Import JSON.

Lemma hex_value_char (d : N) : d < 16 -> hex_value (hex_char d) = Some d.
Proof.
  intros Hd. unfold hex_value, hex_char, is_digit.
  destruct (N.ltb_spec d 10) as [H|H].
  - replace ((48 <=? 48 + d) && (48 + d <=? 57)) with true.
    + f_equal. lia.
    + symmetry. apply andb_true_intro. split; apply N.leb_le; lia.
  - replace ((48 <=? 87 + d) && (87 + d <=? 57)) with false.
    + replace ((97 <=? 87 + d) && (87 + d <=? 102)) with true.
      * f_equal. lia.
      * symmetry. apply andb_true_intro. split; apply N.leb_le; lia.
    + symmetry. apply andb_false_intro2. apply N.leb_gt. lia.
Qed.

Lemma hex_char_plain (d : N) :
  d < 16 -> (hex_char d =? 92) = false /\ (hex_char d =? 34) = false.
Proof.
  intros Hd. unfold hex_char.
  destruct (N.ltb_spec d 10); split; apply N.eqb_neq; lia.
Qed.

Lemma hex4_escape (c : N) :
  c < 65536 ->
  hex4 (hex_char (c / 4096 mod 16)) (hex_char (c / 256 mod 16))
    (hex_char (c / 16 mod 16)) (hex_char (c mod 16)) = Some c.
Proof.
  intros Hc. unfold hex4.
  rewrite !hex_value_char by (apply N.mod_upper_bound; lia).
  f_equal.
  assert (H1 := N.div_mod c 16 ltac:(lia)).
  assert (H2 := N.div_mod (c / 16) 16 ltac:(lia)).
  assert (H3 := N.div_mod (c / 256) 16 ltac:(lia)).
  assert (H4 := N.div_mod (c / 4096) 16 ltac:(lia)).
  replace (c / 256) with (c / 16 / 16) in *
    by (rewrite N.Div0.div_div; f_equal; lia).
  replace (c / 4096) with (c / 16 / 16 / 16) in *
    by (rewrite !N.Div0.div_div; f_equal; lia).
  assert (c / 16 / 16 / 16 / 16 = 0).
  { rewrite !N.Div0.div_div. apply N.div_small. lia. }
  lia.
Qed.

Lemma unescape_unicode (c : N) (rest : list N) :
  c < 65536 ->
  unescape (unicode_escape c ++ rest) = cons c <$> unescape rest.
Proof.
  intros Hc. unfold unicode_escape. simpl app. unfold unescape at 1.
  fold unescape. rewrite N.eqb_refl, N.eqb_refl.
  rewrite hex4_escape by assumption. reflexivity.
Qed.

Lemma closes_unicode (c : N) (rest : list N) :
  closes false (unicode_escape c ++ rest) = closes false rest.
Proof.
  unfold unicode_escape. simpl app.
  assert (H1 := hex_char_plain (c / 4096 mod 16) ltac:(apply N.mod_upper_bound; lia)).
  assert (H2 := hex_char_plain (c / 256 mod 16) ltac:(apply N.mod_upper_bound; lia)).
  assert (H3 := hex_char_plain (c / 16 mod 16) ltac:(apply N.mod_upper_bound; lia)).
  assert (H4 := hex_char_plain (c mod 16) ltac:(apply N.mod_upper_bound; lia)).
  destruct H1 as [A1 B1], H2 as [A2 B2], H3 as [A3 B3], H4 as [A4 B4].
  unfold closes; fold closes.
  rewrite N.eqb_refl. rewrite A1, B1, A2, B2, A3, B3, A4, B4. reflexivity.
Qed.

Lemma short_escape_inverse (c e : N) :
  short_escape c = Some e ->
  (e =? 117) = false /\ single_escape e = Some c.
Proof.
  unfold short_escape.
  repeat match goal with
         | |- context [if ?a =? ?b then _ else _] =>
             destruct (N.eqb_spec a b) as [->|?]
         end; intros [= <-]; split; reflexivity.
Qed.

Lemma short_escape_none (c : N) :
  short_escape c = None -> (c =? 92) = false /\ (c =? 34) = false.
Proof.
  unfold short_escape.
  repeat match goal with
         | |- context [if ?a =? ?b then _ else _] =>
             destruct (N.eqb_spec a b) as [->|?]
         end; try discriminate.
  intros _. split; (reflexivity || (apply N.eqb_neq; assumption)).
Qed.

Lemma unescape_plain (c : N) (rest : list N) :
  (c =? 92) = false -> (c =? 34) = false -> (c <? 0x20) = false ->
  unescape (c :: rest) = cons c <$> unescape rest.
Proof.
  intros H1 H2 H3. unfold unescape; fold unescape.
  rewrite H1, H2, H3. reflexivity.
Qed.

Lemma closes_plain (c : N) (rest : list N) :
  (c =? 92) = false -> (c =? 34) = false ->
  closes false (c :: rest) = closes false rest.
Proof. intros H1 H2. simpl. rewrite H1, H2. reflexivity. Qed.

Lemma surrogate_range (c : N) :
  is_leading_surrogate c = true \/ is_trailing_surrogate c = true ->
  c < 65536 /\ (c =? 92) = false /\ (c =? 34) = false /\ (c <? 0x20) = false.
Proof.
  unfold is_leading_surrogate, is_trailing_surrogate.
  intros [H|H]; apply andb_prop in H as [H1 H2]; apply N.leb_le in H1, H2;
    (split; [lia|]); (split; [apply N.eqb_neq; lia|]);
    (split; [apply N.eqb_neq; lia|]); apply N.ltb_ge; lia.
Qed.

(** QuoteJSONString writes a string literal whose value is the string. *)
Lemma quote_body_spec (s : jsstring) :
  unescape (quote_body s) = Some s /\ closes false (quote_body s) = true.
Proof.
  remember (length s) as n eqn:Hn.
  revert s Hn. induction n as [n IH] using lt_wf_ind. intros s Hn.
  destruct s as [|c r]; [split; reflexivity|].
  assert (IHr : unescape (quote_body r) = Some r
                /\ closes false (quote_body r) = true).
  { apply (IH (length r)); [subst n; simpl; lia|reflexivity]. }
  destruct IHr as [Ur Cr].
  assert (Hesc : c < 65536 ->
                 unescape (unicode_escape c ++ quote_body r) = Some (c :: r)
                 /\ closes false (unicode_escape c ++ quote_body r) = true).
  { intros Hc. rewrite unescape_unicode, closes_unicode, Ur, Cr by assumption.
    split; reflexivity. }
  simpl quote_body.
  destruct (short_escape c) as [e|] eqn:Hse.
  { destruct (short_escape_inverse c e Hse) as [Hu Hs].
    split.
    - unfold unescape; fold unescape. rewrite N.eqb_refl, Hu, Hs, Ur.
      reflexivity.
    - simpl. exact Cr. }
  destruct (short_escape_none c Hse) as [H92 H34].
  destruct (N.ltb_spec c 0x20) as [Hlt|Hge]; [apply Hesc; lia|].
  assert (Hplain : unescape (c :: quote_body r) = Some (c :: r)
                   /\ closes false (c :: quote_body r) = true).
  { rewrite unescape_plain, closes_plain, Ur, Cr;
      [split; reflexivity|assumption..|apply N.ltb_ge; lia]. }
  destruct (is_leading_surrogate c) eqn:Hlead.
  - destruct (surrogate_range c (or_introl Hlead)) as (Hc & _).
    destruct r as [|c2 r'].
    + rewrite <- (app_nil_r (unicode_escape c)).
      change (@nil N) with (quote_body []) at 1 3. apply Hesc. exact Hc.
    + destruct (is_trailing_surrogate c2) eqn:Htrail; [|apply Hesc; exact Hc].
      destruct (surrogate_range c2 (or_intror Htrail)) as (_ & A & B & C).
      assert (IHr' : unescape (quote_body r') = Some r'
                     /\ closes false (quote_body r') = true).
      { apply (IH (length r')); [subst n; simpl; lia|reflexivity]. }
      destruct IHr' as [Ur' Cr'].
      rewrite !unescape_plain, !closes_plain, Ur', Cr';
        [split; reflexivity|try assumption..].
      apply N.ltb_ge; lia.
  - destruct (is_trailing_surrogate c) eqn:Htrail; [|exact Hplain].
    apply Hesc. apply (surrogate_range c (or_intror Htrail)).
Qed.

(** **** The scanner on a string literal *)

Lemma lex_string_body (body : list N) (escaped : bool) (buf rest : list N) :
  closes escaped body = true ->
  lex (LString buf escaped) (body ++ 34 :: rest)
  = match unescape (rev buf ++ body) with
    | Some str => cons (TString str) <$> lex LIdle rest
    | None => None
    end.
Proof.
  revert escaped buf. induction body as [|c body IH]; intros escaped buf Hc.
  - destruct escaped; [discriminate|]. simpl app. rewrite app_nil_r.
    unfold lex; fold lex. unfold lex_step.
    replace (34 =? 92) with false by reflexivity. rewrite N.eqb_refl.
    destruct (unescape (rev buf)); [|reflexivity].
    destruct (lex LIdle rest); reflexivity.
  - simpl app. unfold lex; fold lex. simpl in Hc.
    replace (rev buf ++ c :: body) with (rev (c :: buf) ++ body)
      by (simpl; rewrite <- app_assoc; reflexivity).
    destruct escaped.
    + unfold lex_step. rewrite IH by assumption.
      destruct (unescape _); [|reflexivity].
      destruct (lex LIdle rest); reflexivity.
    + unfold lex_step. destruct (c =? 92).
      * rewrite IH by assumption.
        destruct (unescape _); [|reflexivity].
        destruct (lex LIdle rest); reflexivity.
      * destruct (c =? 34); [discriminate|].
        rewrite IH by assumption.
        destruct (unescape _); [|reflexivity].
        destruct (lex LIdle rest); reflexivity.
Qed.

Lemma lex_quote (s : jsstring) (rest : list N) :
  lex LIdle (quote s ++ rest) = cons (TString s) <$> lex LIdle rest.
Proof.
  destruct (quote_body_spec s) as [Hu Hc].
  unfold quote. simpl app. rewrite <- app_assoc. simpl app.
  unfold lex at 1; fold lex. unfold lex_step, lex_idle.
  replace (is_json_space 34) with false by reflexivity.
  simpl. rewrite lex_string_body by assumption.
  simpl rev. rewrite app_nil_l, Hu.
  destruct (lex LIdle rest); reflexivity.
Qed.

End StringFacts.

Section LexerFacts.
Import JSON.

Lemma lex_idle_word_char (c : N) :
  is_word_char c = true -> lex_idle c = Some (LWord [c], []).
Proof.
  intros H. unfold lex_idle. rewrite H. unfold is_json_space.
  repeat match goal with
         | |- context [?a =? ?b] => destruct (N.eqb_spec a b) as [->|?]
         end; try discriminate H; reflexivity.
Qed.

Lemma lex_word_buf (w buf rest : list N) :
  forallb is_word_char w = true -> delimited rest ->
  lex (LWord buf) (w ++ rest)
  = match word_token (rev buf ++ w) with
    | Some tok => cons tok <$> lex LIdle rest
    | None => None
    end.
Proof.
  intros Hw Hrest. revert buf. induction w as [|c w IH]; intros buf.
  - rewrite app_nil_l, app_nil_r. destruct rest as [|c r].
    + simpl. destruct (word_token (rev buf)); reflexivity.
    + simpl in Hrest. unfold lex; fold lex. unfold lex_step.
      rewrite Hrest.
      destruct (word_token (rev buf)) as [tok|]; [|reflexivity].
      destruct (lex_idle c) as [[st' toks]|]; [|reflexivity].
      destruct (lex st' r); reflexivity.
  - simpl in Hw. apply andb_prop in Hw as [Hc Hw].
    simpl app. unfold lex; fold lex. unfold lex_step. rewrite Hc.
    rewrite (IH Hw). simpl rev. rewrite <- app_assoc. simpl app.
    destruct (word_token _); [|reflexivity].
    destruct (lex LIdle rest); reflexivity.
Qed.

Lemma lex_word (w rest : list N) (tok : token) (trest : list token) :
  w <> [] -> forallb is_word_char w = true -> word_token w = Some tok ->
  delimited rest -> lex LIdle rest = Some trest ->
  lex LIdle (w ++ rest) = Some (tok :: trest).
Proof.
  intros Hne Hw Htok Hd Hrest. destruct w as [|c w]; [contradiction|].
  simpl in Hw. apply andb_prop in Hw as [Hc Hw].
  simpl app. unfold lex; fold lex. unfold lex_step.
  rewrite (lex_idle_word_char c Hc).
  rewrite (lex_word_buf w [c] rest Hw Hd). simpl rev. simpl app.
  rewrite Htok, Hrest. reflexivity.
Qed.

Lemma lex_space (c : N) (rest : list N) :
  is_json_space c = true -> lex LIdle (c :: rest) = lex LIdle rest.
Proof.
  intros Hc. unfold lex; fold lex. unfold lex_step, lex_idle. rewrite Hc.
  destruct (lex LIdle rest); reflexivity.
Qed.

Lemma lex_spaces (ws rest : list N) :
  forallb is_json_space ws = true -> lex LIdle (ws ++ rest) = lex LIdle rest.
Proof.
  induction ws as [|c ws IH]; intros H; [reflexivity|].
  simpl in H. apply andb_prop in H as [Hc H].
  simpl app. rewrite lex_space by assumption. apply IH. assumption.
Qed.

Lemma lex_punctuation (c : N) (tok : token) (rest : list N) :
  (c, tok) ∈ [(123, TLBrace); (125, TRBrace); (91, TLBracket);
              (93, TRBracket); (44, TComma); (58, TColon)] ->
  lex LIdle (c :: rest) = cons tok <$> lex LIdle rest.
Proof.
  intros H. unfold lex; fold lex.
  repeat (apply elem_of_cons in H as [[= -> ->]|H];
          [simpl; destruct (lex LIdle rest); reflexivity|]).
  apply elem_of_nil in H. contradiction.
Qed.

(** **** The characters of a number *)

Lemma digit_is_word_char (c : N) : is_digit c = true -> is_word_char c = true.
Proof. intros H. unfold is_word_char. rewrite H. reflexivity. Qed.

Lemma digits_are_word_chars (ds : list N) :
  forallb is_digit ds = true -> forallb is_word_char ds = true.
Proof.
  induction ds as [|c ds IH]; [reflexivity|]. simpl. intros H.
  apply andb_prop in H as [Hc H]. rewrite (digit_is_word_char c Hc). auto.
Qed.

Lemma layout_word_chars (ds : list N) (n : Z) :
  forallb is_digit ds = true -> forallb is_word_char (layout ds n) = true.
Proof.
  intros Hds. assert (Hw := digits_are_word_chars ds Hds).
  assert (Hz : forall k, forallb is_word_char (zeros k) = true)
    by (intros k; apply digits_are_word_chars, zeros_all_digits).
  assert (He : forallb is_word_char (exponent_part n) = true).
  { unfold exponent_part. simpl.
    rewrite digits_are_word_chars by (apply digits_all_digits; lia).
    destruct (n - 1 <? 0)%Z; reflexivity. }
  unfold layout.
  destruct (_ && _); [rewrite forallb_app, Hw, Hz; reflexivity|].
  destruct (_ && _).
  { destruct (forallb_take_drop is_word_char (Z.to_nat n) ds Hw) as [H1 H2].
    rewrite forallb_app. simpl. rewrite H1, H2. reflexivity. }
  destruct (_ && _).
  { simpl. rewrite forallb_app, Hw, Hz. reflexivity. }
  destruct ds as [|d [|c r]]; [reflexivity| |].
  - change (d :: exponent_part n) with ([d] ++ exponent_part n).
    rewrite forallb_app, Hw, He. reflexivity.
  - change (d :: 46 :: (c :: r) ++ exponent_part n)
      with ([d] ++ [46] ++ (c :: r) ++ exponent_part n).
    change (d :: c :: r) with ([d] ++ c :: r) in Hw.
    rewrite forallb_app in Hw. apply andb_prop in Hw as [Hd Hcr].
    rewrite !forallb_app, Hd, Hcr, He. reflexivity.
Qed.

Lemma to_string_word_chars (x : number) :
  canonical_number x -> is_finite x = true ->
  forallb is_word_char (to_string x) = true.
Proof.
  destruct x as [| |neg m e]; try discriminate. intros Hc _.
  unfold to_string. destruct (Z.eqb_spec m 0) as [|Hm]; [reflexivity|].
  assert (Hpos : (0 < m)%Z) by (destruct Hc; lia).
  destruct (shortest_decimal_spec m e Hpos Hc) as [Hs _].
  destruct (shortest_decimal m e) as [s t]. simpl in Hs.
  rewrite forallb_app, layout_word_chars by (apply digits_all_digits; lia).
  destruct neg; reflexivity.
Qed.

Lemma lex_number (x : number) (rest : list N) (trest : list token) :
  canonical_number x -> is_finite x = true ->
  delimited rest -> lex LIdle rest = Some trest ->
  lex LIdle (serialize_number x ++ rest)
  = Some (TNumber (positive_zero x) :: trest).
Proof.
  intros Hc Hf Hd Hrest. unfold serialize_number. rewrite Hf.
  assert (Hn := number_of_chars_to_string x Hc Hf).
  apply lex_word; try assumption.
  - intros E. rewrite E in Hn. discriminate.
  - apply to_string_word_chars; assumption.
  - unfold word_token.
    destruct (bool_decide (to_string x = [116; 114; 117; 101])) eqn:E1.
    { apply bool_decide_eq_true_1 in E1. rewrite E1 in Hn. discriminate. }
    destruct (bool_decide (to_string x = [102; 97; 108; 115; 101])) eqn:E2.
    { apply bool_decide_eq_true_1 in E2. rewrite E2 in Hn. discriminate. }
    destruct (bool_decide (to_string x = [110; 117; 108; 108])) eqn:E3.
    { apply bool_decide_eq_true_1 in E3. rewrite E3 in Hn. discriminate. }
    rewrite Hn. reflexivity.
Qed.

End LexerFacts.

Section SerializeFacts.
Import JSON.

Local Ltac mem :=
  repeat first [apply list_elem_of_here | apply list_elem_of_further].

Lemma well_formed_array (l : list value) :
  well_formed (JArray l) <-> Forall well_formed l.
Proof.
  simpl. induction l as [|x r IH]; [split; auto|].
  rewrite Forall_cons, IH. reflexivity.
Qed.

Lemma well_formed_object (ps : list (jsstring * value)) :
  well_formed (JObject ps)
  <-> ordered_keys (map fst ps) /\ Forall (fun p => well_formed p.2) ps.
Proof.
  simpl. apply and_iff_compat_l.
  induction ps as [|x r IH]; [split; auto|].
  rewrite Forall_cons, IH. reflexivity.
Qed.

Lemma join_cons (sep p : list N) (r : list (list N)) :
  join sep (p :: r) = p ++ concat (map (app sep) r).
Proof.
  revert p. induction r as [|q r IH]; intros p.
  - simpl. rewrite app_nil_r. reflexivity.
  - change (join sep (p :: q :: r)) with (p ++ sep ++ join sep (q :: r)).
    rewrite IH. simpl. rewrite <- app_assoc. reflexivity.
Qed.

(** The scanner on the elements after the first, up to the end of the
    container. *)
Lemma lex_tail {A : Type} (text : A -> list N) (toks : A -> list token)
  (indent stepback : list N) (closing : N) (tclose : token)
  (l : list A) (rest : list N) (trest : list token) :
  spaces indent -> spaces stepback ->
  (forall r, lex LIdle (closing :: r) = cons tclose <$> lex LIdle r) ->
  Forall (fun x => forall rest trest, delimited rest ->
                     lex LIdle rest = Some trest ->
                     lex LIdle (text x ++ rest) = Some (toks x ++ trest)) l ->
  lex LIdle rest = Some trest ->
  lex LIdle (concat (map (fun x => (44 :: 10 :: indent) ++ text x) l)
             ++ 10 :: stepback ++ [closing] ++ rest)
  = Some (concat (map (fun x => TComma :: toks x) l) ++ tclose :: trest)
  /\ delimited (concat (map (fun x => (44 :: 10 :: indent) ++ text x) l)
                ++ 10 :: stepback ++ [closing] ++ rest).
Proof.
  intros Hind Hstep Hclose Hl Hrest. induction Hl as [|x l Hx Hl IH].
  - simpl concat. rewrite !app_nil_l. split; [|reflexivity].
    rewrite lex_space by reflexivity. rewrite (lex_spaces stepback) by exact Hstep.
    simpl app. rewrite Hclose, Hrest. reflexivity.
  - destruct IH as [IH Hdel]. split; [|reflexivity].
    set (T := concat (map (fun x => (44 :: 10 :: indent) ++ text x) l)
              ++ 10 :: stepback ++ [closing] ++ rest) in *.
    replace (concat (map (fun x => (44 :: 10 :: indent) ++ text x) (x :: l))
             ++ 10 :: stepback ++ [closing] ++ rest)
      with (44 :: 10 :: indent ++ text x ++ T)
      by (unfold T; simpl; rewrite <- !app_assoc; reflexivity).
    rewrite (lex_punctuation 44 TComma) by mem.
    rewrite lex_space by reflexivity.
    rewrite (lex_spaces indent) by exact Hind.
    rewrite (Hx T _ Hdel IH). simpl. rewrite <- app_assoc. reflexivity.
Qed.

Lemma lex_wrap {A : Type} (text : A -> list N) (toks : A -> list token)
  (gap indent stepback : list N) (opening closing : N) (topen tclose : token)
  (x : A) (l : list A) (rest : list N) (trest : list token) :
  gap <> [] -> spaces indent -> spaces stepback ->
  (forall r, lex LIdle (opening :: r) = cons topen <$> lex LIdle r) ->
  (forall r, lex LIdle (closing :: r) = cons tclose <$> lex LIdle r) ->
  Forall (fun x => forall rest trest, delimited rest ->
                     lex LIdle rest = Some trest ->
                     lex LIdle (text x ++ rest) = Some (toks x ++ trest))
    (x :: l) ->
  lex LIdle rest = Some trest ->
  lex LIdle
    (wrap opening closing gap indent stepback (map text (x :: l)) ++ rest)
  = Some (topen :: toks x ++ concat (map (fun y => TComma :: toks y) l)
          ++ tclose :: trest).
Proof.
  intros Hgap Hind Hstep Hopen Hclose Hall Hrest.
  apply Forall_cons in Hall as [Hx Hl].
  destruct (lex_tail text toks indent stepback closing tclose l rest trest
              Hind Hstep Hclose Hl Hrest) as [Htail Hdel].
  set (T := concat (map (fun x => (44 :: 10 :: indent) ++ text x) l)
            ++ 10 :: stepback ++ [closing] ++ rest) in *.
  replace (wrap opening closing gap indent stepback (map text (x :: l))
           ++ rest)
    with (opening :: 10 :: indent ++ text x ++ T).
  2:{ unfold wrap, T. rewrite bool_decide_eq_false_2 by assumption.
      simpl map. rewrite join_cons, map_map.
      simpl. rewrite <- !app_assoc. simpl. rewrite <- !app_assoc.
      reflexivity. }
  rewrite Hopen.
  rewrite lex_space by reflexivity.
  rewrite (lex_spaces indent) by exact Hind.
  rewrite (Hx T _ Hdel Htail). reflexivity.
Qed.

Lemma spaces_app (a b : list N) : spaces a -> spaces b -> spaces (a ++ b).
Proof.
  unfold spaces. intros Ha Hb. rewrite forallb_app, Ha, Hb. reflexivity.
Qed.

Lemma serialize_object_members (gap indent : list N)
  (ps : list (jsstring * value)) :
  gap <> [] ->
  map (fun p => match p with
                | (k, w) =>
                    quote k ++ 58
                    :: (if bool_decide (gap = []) then [] else [32])
                    ++ serialize gap indent w
                end) ps
  = map (fun p => quote p.1 ++ 58 :: 32 :: serialize gap indent p.2) ps.
Proof.
  intros Hgap. apply map_ext. intros [k w].
  rewrite bool_decide_eq_false_2 by assumption. reflexivity.
Qed.

(** The scanner reads the text of a value as the tokens of the value. *)
Lemma lex_serialize (gap : list N) (v : value) :
  gap <> [] -> spaces gap -> well_formed v -> all_finite v = true ->
  forall stepback rest trest,
    spaces stepback -> delimited rest -> lex LIdle rest = Some trest ->
    lex LIdle (serialize gap stepback v ++ rest) = Some (tokens v ++ trest).
Proof.
  intros Hne Hgap. induction v as [|b|x|s|l IH|ps IH] using value_induction;
    intros Hwf Hfin stepback rest trest Hstep Hdel Hrest.
  - apply lex_word; (discriminate || reflexivity || assumption).
  - destruct b; apply lex_word; (discriminate || reflexivity || assumption).
  - apply lex_number; assumption.
  - simpl serialize. rewrite lex_quote, Hrest. reflexivity.
  - destruct l as [|x l].
    + simpl. rewrite Hrest. reflexivity.
    + apply well_formed_array in Hwf.
      change (forallb all_finite (x :: l) = true) in Hfin.
      rewrite List.forallb_forall in Hfin. rewrite <- List.Forall_forall in Hfin.
      change (serialize gap stepback (JArray (x :: l)))
        with (wrap 91 93 gap (stepback ++ gap) stepback
                (map (serialize gap (stepback ++ gap)) (x :: l))).
      replace (tokens (JArray (x :: l)) ++ trest)
        with (TLBracket :: tokens x
              ++ concat (map (fun y => TComma :: tokens y) l)
              ++ TRBracket :: trest)
        by (simpl; rewrite <- !app_assoc; reflexivity).
      apply (lex_wrap (serialize gap (stepback ++ gap)) tokens);
        try assumption.
      * apply spaces_app; assumption.
      * intros r. apply lex_punctuation. mem.
      * intros r. apply lex_punctuation. mem.
      * clear Hrest Hdel. revert IH Hwf Hfin. generalize (x :: l).
        intros l' IH Hwf Hfin.
        induction IH as [|y l' Hy _ IHl]; constructor.
        -- apply Forall_cons in Hwf as [Hwy _].
           apply Forall_cons in Hfin as [Hfy _].
           intros rest' trest' Hd' Hr'.
           apply Hy; try assumption. apply spaces_app; assumption.
        -- apply Forall_cons in Hwf as [_ Hwl].
           apply Forall_cons in Hfin as [_ Hfl]. apply IHl; assumption.
  - destruct ps as [|p ps].
    + simpl. rewrite Hrest. reflexivity.
    + apply well_formed_object in Hwf as [_ Hwf].
      change (forallb (fun p => all_finite p.2) (p :: ps) = true) in Hfin.
      rewrite List.forallb_forall in Hfin. rewrite <- List.Forall_forall in Hfin.
      replace (serialize gap stepback (JObject (p :: ps)))
        with (wrap 123 125 gap (stepback ++ gap) stepback
                (map (fun p => quote p.1 ++ 58 :: 32
                                 :: serialize gap (stepback ++ gap) p.2)
                   (p :: ps)))
        by (rewrite <- serialize_object_members by assumption; reflexivity).
      replace (tokens (JObject (p :: ps)) ++ trest)
        with (TLBrace :: (fun q => TString q.1 :: TColon :: tokens q.2) p
              ++ concat (map (fun q => TComma :: (fun q => TString q.1
                                :: TColon :: tokens q.2) q) ps)
              ++ TRBrace :: trest)
        by (simpl; rewrite <- !app_assoc; reflexivity).
      apply (lex_wrap
               (fun p => quote p.1 ++ 58 :: 32
                           :: serialize gap (stepback ++ gap) p.2)
               (fun q => TString q.1 :: TColon :: tokens q.2));
        try assumption.
      * apply spaces_app; assumption.
      * intros r. apply lex_punctuation. mem.
      * intros r. apply lex_punctuation. mem.
      * clear Hrest Hdel. revert IH Hwf Hfin. generalize (p :: ps).
        intros l' IH Hwf Hfin.
        induction IH as [|y l' Hy _ IHl]; constructor.
        -- apply Forall_cons in Hwf as [Hwy _].
           apply Forall_cons in Hfin as [Hfy _].
           intros rest' trest' Hd' Hr'.
           rewrite <- app_assoc. rewrite lex_quote. simpl app.
           rewrite (lex_punctuation 58 TColon) by mem.
           rewrite lex_space by reflexivity.
           rewrite (Hy Hwy Hfy (stepback ++ gap) rest' trest');
             try assumption; [reflexivity|].
           apply spaces_app; assumption.
        -- apply Forall_cons in Hwf as [_ Hwl].
           apply Forall_cons in Hfin as [_ Hfl]. apply IHl; assumption.
Qed.

End SerializeFacts.

Section IndexFacts.
Import JSON.
Local Open Scope Z_scope.

Lemma digit_value_range (c : N) :
  is_digit c = true -> 0 <= digit_value c <= 9.
Proof.
  unfold is_digit, digit_value. intros H. apply andb_prop in H as [H1 H2].
  apply N.leb_le in H1, H2. lia.
Qed.

Lemma digit_value_inj (c d : N) :
  is_digit c = true -> is_digit d = true ->
  digit_value c = digit_value d -> c = d.
Proof.
  unfold is_digit, digit_value. intros Hc Hd.
  apply andb_prop in Hc as [H1 H2]. apply andb_prop in Hd as [H3 H4].
  apply N.leb_le in H1, H2, H3, H4. lia.
Qed.

Lemma digits_value_cons (c : N) (l : list N) :
  digits_value (c :: l)
  = digit_value c * 10 ^ Z.of_nat (length l) + digits_value l.
Proof.
  change (c :: l) with ([c] ++ l). rewrite digits_value_app.
  reflexivity.
Qed.

Lemma digits_value_bounds (l : list N) :
  forallb is_digit l = true -> 0 <= digits_value l < 10 ^ Z.of_nat (length l).
Proof.
  induction l as [|c l IH]; intros H.
  - unfold digits_value. simpl. lia.
  - simpl in H. apply andb_prop in H as [Hc Hl].
    rewrite digits_value_cons. specialize (IH Hl).
    assert (Hd := digit_value_range c Hc).
    replace (Z.of_nat (length (c :: l))) with (Z.of_nat (length l) + 1)
      by (simpl length; lia).
    rewrite Z.pow_add_r by lia. nia.
Qed.

Lemma digits_value_inj (a b : list N) :
  forallb is_digit a = true -> forallb is_digit b = true ->
  length a = length b -> digits_value a = digits_value b -> a = b.
Proof.
  revert b. induction a as [|c a IH]; intros [|d b] Ha Hb Hlen Hv;
    try discriminate; [reflexivity|].
  simpl in Ha, Hb. apply andb_prop in Ha as [Hc Ha].
  apply andb_prop in Hb as [Hd Hb]. injection Hlen as Hlen.
  rewrite !digits_value_cons, <- Hlen in Hv.
  assert (Ba := digits_value_bounds a Ha).
  assert (Bb := digits_value_bounds b Hb). rewrite <- Hlen in Bb.
  assert (Rc := digit_value_range c Hc).
  assert (Rd := digit_value_range d Hd).
  assert (digit_value c = digit_value d) by nia.
  f_equal.
  - apply digit_value_inj; assumption.
  - apply IH; try assumption. nia.
Qed.

Lemma array_index_canonical (k : jsstring) (i : Z) :
  array_index k = Some i ->
  forallb is_digit k = true /\ digits_value k = i
  /\ exists c r, k = c :: r /\ (c = 48%N -> r = []).
Proof.
  unfold array_index. destruct k as [|c r]; [discriminate|].
  destruct (forallb is_digit (c :: r)) eqn:Hd; [|discriminate].
  destruct (negb (c =? 48)%N || bool_decide (r = [])) eqn:Hz; [|discriminate].
  simpl andb. cbv iota.
  destruct (digits_value (c :: r) <? 2 ^ 32 - 1); [|discriminate].
  intros [= <-]. split; [reflexivity|]. split; [reflexivity|].
  exists c, r. split; [reflexivity|]. intros ->.
  simpl in Hz. apply bool_decide_eq_true_1 in Hz. exact Hz.
Qed.

(** Two keys that are the same array index are the same key. *)
Lemma array_index_inj (k k' : jsstring) (i : Z) :
  array_index k = Some i -> array_index k' = Some i -> k = k'.
Proof.
  intros H H'.
  apply array_index_canonical in H as (Hd & Hv & c & r & -> & Hz).
  apply array_index_canonical in H' as (Hd' & Hv' & c' & r' & -> & Hz').
  assert (Hlow : forall c r, forallb is_digit (c :: r) = true ->
                   (c = 48%N -> r = []) -> c <> 48%N ->
                   10 ^ Z.of_nat (length r) <= digits_value (c :: r)).
  { intros d l Hdl _ Hne. simpl in Hdl. apply andb_prop in Hdl as [Hdd Hdl].
    rewrite digits_value_cons.
    assert (B := digits_value_bounds l Hdl).
    assert (R := digit_value_range d Hdd).
    assert (digit_value d <> 0).
    { unfold digit_value. unfold is_digit in Hdd.
      apply andb_prop in Hdd as [H1 H2]. apply N.leb_le in H1, H2. lia. }
    nia. }
  assert (Hzero : forall c r, forallb is_digit (c :: r) = true ->
                    (c = 48%N -> r = []) -> c = 48%N ->
                    digits_value (c :: r) = 0 /\ r = []).
  { intros d l _ Hl E. rewrite (Hl E). subst d. split; reflexivity. }
  assert (Bk := digits_value_bounds _ Hd).
  assert (Bk' := digits_value_bounds _ Hd').
  destruct (N.eq_dec c 48%N) as [E|E], (N.eq_dec c' 48%N) as [E'|E'].
  - destruct (Hzero c r Hd Hz E) as [_ ->].
    destruct (Hzero c' r' Hd' Hz' E') as [_ ->]. congruence.
  - destruct (Hzero c r Hd Hz E) as [Z0 _].
    assert (L := Hlow c' r' Hd' Hz' E').
    assert (0 < 10 ^ Z.of_nat (length r')) by (apply Z.pow_pos_nonneg; lia).
    lia.
  - destruct (Hzero c' r' Hd' Hz' E') as [Z0 _].
    assert (L := Hlow c r Hd Hz E).
    assert (0 < 10 ^ Z.of_nat (length r)) by (apply Z.pow_pos_nonneg; lia).
    lia.
  - assert (L := Hlow c r Hd Hz E). assert (L' := Hlow c' r' Hd' Hz' E').
    apply digits_value_inj; try assumption; [|lia].
    simpl length in *. f_equal.
    destruct (Nat.lt_trichotomy (length r) (length r')) as [Hlt|[Heq|Hgt]];
      [exfalso|assumption|exfalso].
    + assert (10 ^ Z.of_nat (S (length r)) <= 10 ^ Z.of_nat (length r'))
        by (apply Z.pow_le_mono_r; lia). lia.
    + assert (10 ^ Z.of_nat (S (length r')) <= 10 ^ Z.of_nat (length r))
        by (apply Z.pow_le_mono_r; lia). lia.
Qed.

End IndexFacts.

Section ObjectFacts.
Import JSON.
Local Open Scope Z_scope.

Lemma string_eqb_eq (s t : jsstring) : string_eqb s t = true <-> s = t.
Proof. unfold string_eqb. apply bool_decide_eq_true. Qed.

Lemma has_key_false (k : jsstring) (ps : list (jsstring * value)) :
  has_key k ps = false <-> k ∉ keys ps.
Proof.
  induction ps as [|[k' v'] r IH]; simpl.
  - split; [intros _; apply not_elem_of_nil|reflexivity].
  - rewrite not_elem_of_cons, <- IH, orb_false_iff.
    unfold string_eqb. rewrite bool_decide_eq_false. reflexivity.
Qed.

Lemma keys_replace_property (k : jsstring) (v : value)
  (ps : list (jsstring * value)) :
  keys (replace_property k v ps) = keys ps.
Proof.
  induction ps as [|[k' v'] r IH]; [reflexivity|]. simpl.
  destruct (string_eqb k k') eqn:E.
  - apply string_eqb_eq in E. subst k'. reflexivity.
  - simpl. rewrite IH. reflexivity.
Qed.

Lemma keys_insert_index (i : Z) (k : jsstring) (v : value)
  (ps : list (jsstring * value)) :
  keys (insert_index i k v ps) ≡ₚ k :: keys ps.
Proof.
  induction ps as [|[k' v'] r IH]; [reflexivity|]. simpl.
  destruct (array_index k') as [j|]; [|reflexivity].
  destruct (j <? i); [|reflexivity].
  simpl. rewrite IH. apply Permutation_swap.
Qed.

Lemma index_sorted_insert (lo i : Z) (k : jsstring) (v : value)
  (ps : list (jsstring * value)) :
  index_sorted lo (map array_index (keys ps)) -> lo < i ->
  array_index k = Some i -> k ∉ keys ps ->
  index_sorted lo (map array_index (keys (insert_index i k v ps))).
Proof.
  intros Hs Hlo Hk Hnk. revert lo Hs Hlo.
  induction ps as [|[k' v'] r IH]; intros lo Hs Hlo.
  - simpl. rewrite Hk. simpl. auto.
  - simpl in Hs |- *. apply not_elem_of_cons in Hnk as [Hne Hnk].
    destruct (array_index k') as [j|] eqn:Hj.
    + destruct Hs as [Hlj Hs]. destruct (Z.ltb_spec j i) as [Hji|Hji].
      * simpl. rewrite Hj. simpl. split; [assumption|]. apply IH; assumption.
      * simpl. rewrite Hk, Hj. simpl.
        assert (i <> j).
        { intros ->. apply Hne. apply (array_index_inj k k' j); assumption. }
        repeat split; (lia || assumption).
    + simpl. rewrite Hk, Hj. simpl. split; [assumption|]. exact Hs.
Qed.

Lemma index_sorted_app_none (lo : Z) (ixs : list (option Z)) :
  index_sorted lo ixs -> index_sorted lo (ixs ++ [None]).
Proof.
  revert lo. induction ixs as [|[i|] r IH]; intros lo; simpl.
  - intros _. constructor.
  - intros [H1 H2]. split; [assumption|]. apply IH. assumption.
  - intros H. apply Forall_app. split; [assumption|]. repeat constructor.
Qed.

(** CreateDataProperty keeps the properties distinct and in order. *)
Lemma set_property_ordered (k : jsstring) (v : value)
  (ps : list (jsstring * value)) :
  ordered_keys (keys ps) -> ordered_keys (keys (set_property k v ps)).
Proof.
  intros [Hnd Hs]. unfold set_property.
  destruct (has_key k ps) eqn:Hk.
  - rewrite keys_replace_property. split; assumption.
  - apply has_key_false in Hk.
    destruct (array_index k) as [i|] eqn:Hi.
    + split.
      * rewrite keys_insert_index. apply NoDup_cons. split; assumption.
      * apply index_sorted_insert; try assumption.
        apply array_index_canonical in Hi as (Hd & Hv & _).
        assert (B := digits_value_bounds k Hd). lia.
    + rewrite map_app. simpl. split.
      * apply NoDup_app. split; [assumption|]. split.
        -- intros x Hx Hx'. apply list_elem_of_singleton in Hx'. subst x.
           contradiction.
        -- apply NoDup_singleton.
      * rewrite map_app. simpl. rewrite Hi.
        apply index_sorted_app_none. assumption.
Qed.

Lemma index_sorted_last (lo i : Z) (ixs : list (option Z)) :
  index_sorted lo (ixs ++ [Some i]) ->
  lo < i /\ Forall (fun o => exists j, o = Some j /\ j < i) ixs.
Proof.
  revert lo. induction ixs as [|[j|] r IH]; intros lo; simpl.
  - intros [H _]. split; [assumption|constructor].
  - intros [H1 H2]. destruct (IH j H2) as [Hji Hall].
    split; [lia|]. constructor; [eauto|assumption].
  - intros H. apply Forall_app in H as [_ H].
    apply Forall_cons in H as [H _]. discriminate.
Qed.

Lemma insert_index_last (i : Z) (k : jsstring) (v : value)
  (ps : list (jsstring * value)) :
  Forall (fun o => exists j, o = Some j /\ j < i) (map array_index (keys ps)) ->
  insert_index i k v ps = ps ++ [(k, v)].
Proof.
  induction ps as [|[k' v'] r IH]; [reflexivity|]. simpl.
  intros H. apply Forall_cons in H as [(j & Hj & Hji) H].
  rewrite Hj. rewrite (proj2 (Z.ltb_lt j i) Hji). rewrite (IH H).
  reflexivity.
Qed.

(** Creating the properties of an object in their order gives the
    object back. *)
Lemma set_property_last (k : jsstring) (v : value)
  (ps : list (jsstring * value)) :
  ordered_keys (keys ps ++ [k]) -> set_property k v ps = ps ++ [(k, v)].
Proof.
  intros [Hnd Hs]. unfold set_property.
  apply NoDup_app in Hnd as (_ & Hnk & _).
  assert (Hk : has_key k ps = false).
  { apply has_key_false. intros Hin. apply (Hnk k Hin).
    apply list_elem_of_singleton. reflexivity. }
  rewrite Hk. destruct (array_index k) as [i|] eqn:Hi; [|reflexivity].
  rewrite map_app in Hs. simpl in Hs. rewrite Hi in Hs.
  apply index_sorted_last in Hs as [_ Hs].
  apply insert_index_last. assumption.
Qed.

Lemma index_sorted_prefix (lo : Z) (a b : list (option Z)) :
  index_sorted lo (a ++ b) -> index_sorted lo a.
Proof.
  revert lo. induction a as [|[i|] r IH]; intros lo; simpl; [auto| |].
  - intros [H1 H2]. split; [assumption|]. apply IH. assumption.
  - intros H. apply Forall_app in H as [H _]. assumption.
Qed.

Lemma ordered_keys_prefix (a b : list jsstring) :
  ordered_keys (a ++ b) -> ordered_keys a.
Proof.
  intros [Hnd Hs]. split.
  - apply NoDup_app in Hnd as [H _]. assumption.
  - rewrite map_app in Hs. apply index_sorted_prefix in Hs. assumption.
Qed.

End ObjectFacts.

Section ParserFacts.
Import JSON.

(** The text of a value does not start with a closing bracket. *)
Lemma tokens_head (v : value) :
  exists t r, tokens v = t :: r /\ t <> TRBracket.
Proof.
  destruct v as [|[]|x|s|[|x l]|[|p ps]]; simpl; eexists _, _;
    (split; [reflexivity|discriminate]).
Qed.

Lemma run_array_open (v : value) (stk : list frame) (rest : list token) :
  run (SArrayOpen stk) (tokens v ++ rest)
  = run (SValue (FArray [] :: stk)) (tokens v ++ rest).
Proof.
  destruct (tokens_head v) as (t & r & -> & Ht). simpl.
  destruct t; try reflexivity. contradiction.
Qed.

Lemma run_elements (l : list value) (acc : list value) (stk : list frame)
  (rest : list token) :
  Forall reads_back l ->
  run (SArrayNext acc stk)
    (concat (map (fun y => TComma :: tokens y) l) ++ TRBracket :: rest)
  = run (reduce (JArray (rev acc ++ map positive_zeros l)) stk) rest.
Proof.
  intros Hl. revert acc. induction Hl as [|x l Hx _ IH]; intros acc.
  - simpl. rewrite app_nil_r. reflexivity.
  - replace (concat (map (fun y => TComma :: tokens y) (x :: l))
             ++ TRBracket :: rest)
      with (TComma :: tokens x
            ++ (concat (map (fun y => TComma :: tokens y) l)
                ++ TRBracket :: rest))
      by (simpl; rewrite <- app_assoc; reflexivity).
    change (run (SArrayNext acc stk) (TComma :: ?t))
      with (run (SValue (FArray acc :: stk)) t).
    rewrite Hx.
    change (reduce (positive_zeros x) (FArray acc :: stk))
      with (SArrayNext (positive_zeros x :: acc) stk).
    rewrite IH. simpl rev. rewrite <- app_assoc. reflexivity.
Qed.

Lemma run_members (qs acc : list (jsstring * value)) (stk : list frame)
  (rest : list token) :
  Forall (fun q => reads_back q.2) qs ->
  ordered_keys (keys acc ++ keys qs) ->
  run (SObjectNext acc stk)
    (concat (map (fun q => TComma :: TString q.1 :: TColon :: tokens q.2) qs)
     ++ TRBrace :: rest)
  = run (reduce
           (JObject (acc ++ map (fun p => (p.1, positive_zeros p.2)) qs)) stk)
      rest.
Proof.
  intros Hqs. revert acc. induction Hqs as [|[k v] qs Hq _ IH]; intros acc Hord.
  - simpl. rewrite app_nil_r. reflexivity.
  - replace (concat (map (fun q => TComma :: TString q.1 :: TColon
                                       :: tokens q.2) ((k, v) :: qs))
             ++ TRBrace :: rest)
      with (TComma :: TString k :: TColon :: tokens v
            ++ (concat (map (fun q => TComma :: TString q.1 :: TColon
                                        :: tokens q.2) qs)
                ++ TRBrace :: rest))
      by (simpl; rewrite <- app_assoc; reflexivity).
    change (run (SObjectNext acc stk) (TComma :: TString k :: TColon :: ?t))
      with (run (SValue (FObject acc k :: stk)) t).
    simpl in Hq. rewrite Hq.
    change (reduce (positive_zeros v) (FObject acc k :: stk))
      with (SObjectNext (set_property k (positive_zeros v) acc) stk).
    rewrite set_property_last.
    + rewrite IH.
      * rewrite <- app_assoc. reflexivity.
      * rewrite map_app. simpl. rewrite <- app_assoc. exact Hord.
    + simpl in Hord.
      change (k :: keys qs) with ([k] ++ keys qs) in Hord.
      rewrite app_assoc in Hord. apply ordered_keys_prefix in Hord.
      exact Hord.
Qed.

Lemma set_property_first (k : jsstring) (v : value) :
  set_property k v [] = [(k, v)].
Proof. unfold set_property. simpl. destruct (array_index k); reflexivity. Qed.

(** The recognizer rebuilds a value from its tokens, up to the sign of
    zeros. *)
Lemma run_tokens (v : value) : well_formed v -> reads_back v.
Proof.
  induction v as [|b|x|s|l IH|ps IH] using value_induction; intros Hwf.
  - intros stk rest. reflexivity.
  - intros stk rest. destruct b; reflexivity.
  - intros stk rest. reflexivity.
  - intros stk rest. reflexivity.
  - apply well_formed_array in Hwf.
    assert (Hl : Forall reads_back l).
    { clear -IH Hwf. induction IH as [|x l Hx _ IHl]; constructor.
      - apply Hx. apply Forall_cons in Hwf as [H _]. exact H.
      - apply IHl. apply Forall_cons in Hwf as [_ H]. exact H. }
    clear IH Hwf. intros stk rest. destruct l as [|x l]; [reflexivity|].
    apply Forall_cons in Hl as [Hx Hl].
    change (tokens (JArray (x :: l)))
      with (TLBracket :: tokens x
            ++ concat (map (fun y => TComma :: tokens y) l) ++ [TRBracket]).
    replace ((TLBracket :: tokens x
              ++ concat (map (fun y => TComma :: tokens y) l) ++ [TRBracket])
             ++ rest)
      with (TLBracket :: tokens x
            ++ (concat (map (fun y => TComma :: tokens y) l)
                ++ TRBracket :: rest))
      by (simpl; rewrite <- !app_assoc; reflexivity).
    change (run (SValue stk) (TLBracket :: ?t)) with (run (SArrayOpen stk) t).
    rewrite run_array_open, Hx.
    change (reduce (positive_zeros x) (FArray [] :: stk))
      with (SArrayNext [positive_zeros x] stk).
    rewrite run_elements by assumption. reflexivity.
  - apply well_formed_object in Hwf as [Hord Hwf].
    assert (Hl : Forall (fun q => reads_back q.2) ps).
    { clear -IH Hwf. induction IH as [|x l Hx _ IHl]; constructor.
      - apply Hx. apply Forall_cons in Hwf as [H _]. exact H.
      - apply IHl. apply Forall_cons in Hwf as [_ H]. exact H. }
    clear IH Hwf. intros stk rest. destruct ps as [|[k v] ps]; [reflexivity|].
    apply Forall_cons in Hl as [Hx Hl]. simpl in Hx.
    change (tokens (JObject ((k, v) :: ps)))
      with (TLBrace :: TString k :: TColon :: tokens v
            ++ concat (map (fun q => TComma :: TString q.1 :: TColon
                                       :: tokens q.2) ps)
            ++ [TRBrace]).
    replace ((TLBrace :: TString k :: TColon :: tokens v
              ++ concat (map (fun q => TComma :: TString q.1 :: TColon
                                         :: tokens q.2) ps)
              ++ [TRBrace]) ++ rest)
      with (TLBrace :: TString k :: TColon :: tokens v
            ++ (concat (map (fun q => TComma :: TString q.1 :: TColon
                                        :: tokens q.2) ps)
                ++ TRBrace :: rest))
      by (simpl; rewrite <- !app_assoc; reflexivity).
    change (run (SValue stk) (TLBrace :: TString k :: TColon :: ?t))
      with (run (SValue (FObject [] k :: stk)) t).
    rewrite Hx.
    change (reduce (positive_zeros v) (FObject [] k :: stk))
      with (SObjectNext (set_property k (positive_zeros v) []) stk).
    rewrite set_property_first.
    rewrite run_members by assumption. reflexivity.
Qed.

End ParserFacts.

Section ParseResults.
Import JSON.

Lemma digits_value_nonneg (ds : list N) : (0 <= digits_value ds)%Z.
Proof.
  rewrite digits_value_fold.
  assert (H : forall z, (0 <= z)%Z -> (0 <= fold_left read_digit ds z)%Z).
  { induction ds as [|c ds IH]; intros z Hz; [exact Hz|].
    simpl. apply IH. unfold read_digit, digit_value. lia. }
  apply H. lia.
Qed.

Lemma number_of_chars_canonical (w : list N) (x : number) :
  number_of_chars w = Some x -> canonical_number x.
Proof.
  unfold number_of_chars.
  destruct (read_minus w) as [neg w1].
  destruct (span_digits w1) as [ip w2].
  destruct ip as [|d ip']; [discriminate|].
  destruct (_ && _); [discriminate|].
  destruct (read_fraction w2) as [[fp w3]|]; [|discriminate].
  destruct (read_exponent w3) as [e|]; [|discriminate].
  intros [= <-]. apply of_decimal_canonical. apply digits_value_nonneg.
Qed.

Lemma word_token_ok (w : list N) (tok : token) :
  word_token w = Some tok -> token_ok tok.
Proof.
  unfold word_token.
  repeat (destruct (bool_decide _); [intros [= <-]; exact I|]).
  destruct (number_of_chars w) as [x|] eqn:E; [|discriminate].
  intros [= <-]. apply (number_of_chars_canonical w x E).
Qed.

Lemma lex_idle_ok (c : N) (st : lex_state) (toks : list token) :
  lex_idle c = Some (st, toks) -> Forall token_ok toks.
Proof.
  unfold lex_idle.
  repeat match goal with
         | |- context [if ?b then _ else _] => destruct b
         end; intros [= <- <-]; repeat constructor.
Qed.

Lemma lex_step_ok (st st' : lex_state) (c : N) (toks : list token) :
  lex_step st c = Some (st', toks) -> Forall token_ok toks.
Proof.
  destruct st as [|buf|buf [|]]; simpl.
  - apply lex_idle_ok.
  - destruct (is_word_char c); [intros [= <- <-]; constructor|].
    destruct (word_token (rev buf)) as [tok|] eqn:E; [|discriminate].
    destruct (lex_idle c) as [[st'' toks']|] eqn:E'; [|discriminate].
    intros [= <- <-]. constructor.
    + apply (word_token_ok _ _ E).
    + apply (lex_idle_ok _ _ _ E').
  - intros [= <- <-]. constructor.
  - destruct (c =? 92); [intros [= <- <-]; constructor|].
    destruct (c =? 34); [|intros [= <- <-]; constructor].
    destruct (unescape (rev buf)); [|discriminate].
    intros [= <- <-]. repeat constructor.
Qed.

Lemma lex_ok (s : list N) (st : lex_state) (toks : list token) :
  lex st s = Some toks -> Forall token_ok toks.
Proof.
  revert st toks. induction s as [|c s IH]; intros st toks; simpl.
  - destruct st as [|buf|buf e]; simpl.
    + intros [= <-]. constructor.
    + destruct (word_token (rev buf)) as [tok|] eqn:E; [|discriminate].
      intros [= <-]. constructor; [apply (word_token_ok _ _ E)|constructor].
    + discriminate.
  - destruct (lex_step st c) as [[st' toks']|] eqn:E; [|discriminate].
    destruct (lex st' s) as [rest|] eqn:E'; [|discriminate].
    intros [= <-]. apply Forall_app. split.
    + apply (lex_step_ok _ _ _ _ E).
    + apply (IH _ _ E').
Qed.

Lemma Forall_values_replace (P : value -> Prop) (k : jsstring) (v : value)
  (ps : list (jsstring * value)) :
  P v -> Forall (fun p => P p.2) ps ->
  Forall (fun p => P p.2) (replace_property k v ps).
Proof.
  intros Hv Hps. induction Hps as [|[k' v'] r Hp Hr IH]; [constructor|].
  simpl. destruct (string_eqb k k'); constructor; assumption.
Qed.

Lemma Forall_values_insert (P : value -> Prop) (i : Z) (k : jsstring)
  (v : value) (ps : list (jsstring * value)) :
  P v -> Forall (fun p => P p.2) ps ->
  Forall (fun p => P p.2) (insert_index i k v ps).
Proof.
  intros Hv Hps. induction Hps as [|[k' v'] r Hp Hr IH].
  - repeat constructor. exact Hv.
  - simpl. destruct (array_index k') as [j|].
    + destruct (j <? i)%Z; constructor; try assumption.
      constructor; assumption.
    + constructor; [assumption|]. constructor; assumption.
Qed.

Lemma set_property_well_formed (k : jsstring) (v : value)
  (ps : list (jsstring * value)) :
  well_formed v -> well_formed (JObject ps) ->
  well_formed (JObject (set_property k v ps)).
Proof.
  intros Hv Hps. apply well_formed_object in Hps as [Hord Hall].
  apply well_formed_object. split; [apply set_property_ordered; assumption|].
  unfold set_property. destruct (has_key k ps).
  - apply Forall_values_replace; assumption.
  - destruct (array_index k).
    + apply Forall_values_insert; assumption.
    + apply Forall_app. split; [assumption|]. repeat constructor. exact Hv.
Qed.

Lemma reduce_ok (v : value) (stk : list frame) :
  well_formed v -> Forall frame_ok stk -> state_ok (reduce v stk).
Proof.
  intros Hv Hstk. destruct Hstk as [|[acc|ps k] stk Hf Hstk]; simpl reduce.
  - exact Hv.
  - split; [constructor; assumption|assumption].
  - split; [|assumption]. apply set_property_well_formed; assumption.
Qed.

Lemma well_formed_empty_object : well_formed (JObject []).
Proof. simpl. repeat split; constructor. Qed.

Lemma parse_value_ok (stk : list frame) (tok : token) (st' : parse_state) :
  Forall frame_ok stk -> token_ok tok ->
  parse_value stk tok = Some st' -> state_ok st'.
Proof.
  intros Hstk Htok. destruct tok; simpl; try discriminate;
    intros [= <-]; try (apply reduce_ok; [exact I || exact Htok|assumption]);
    assumption.
Qed.

Lemma parse_step_ok (st st' : parse_state) (tok : token) :
  state_ok st -> token_ok tok -> parse_step st tok = Some st' -> state_ok st'.
Proof.
  intros Hst Htok. destruct st as [stk|stk|stk|ps stk|ps k stk|acc stk|ps stk|v];
    simpl in Hst |- *.
  - apply parse_value_ok; assumption.
  - destruct tok; try (apply parse_value_ok; [|assumption];
                       constructor; [constructor|assumption]).
    intros [= <-]. apply reduce_ok; [exact I|assumption].
  - destruct tok; try discriminate; intros [= <-].
    + apply reduce_ok; [apply well_formed_empty_object|assumption].
    + split; [apply well_formed_empty_object|assumption].
  - destruct tok; try discriminate; intros [= <-]. exact Hst.
  - destruct tok; try discriminate; intros [= <-].
    destruct Hst as [Hps Hstk]. constructor; assumption.
  - destruct Hst as [Hacc Hstk].
    destruct tok; try discriminate; intros [= <-].
    + apply reduce_ok; [|assumption]. apply well_formed_array.
      apply Forall_rev. assumption.
    + constructor; assumption.
  - destruct Hst as [Hps Hstk].
    destruct tok; try discriminate; intros [= <-].
    + apply reduce_ok; assumption.
    + split; assumption.
  - discriminate.
Qed.

Lemma run_ok (toks : list token) (st st' : parse_state) :
  state_ok st -> Forall token_ok toks -> run st toks = Some st' ->
  state_ok st'.
Proof.
  intros Hst Htoks. revert st Hst.
  induction Htoks as [|tok toks Htok _ IH]; intros st Hst; simpl.
  - intros [= <-]. exact Hst.
  - destruct (parse_step st tok) as [st1|] eqn:E; [|discriminate].
    apply IH. apply (parse_step_ok st st1 tok); assumption.
Qed.

(** What [JSON.parse] returns is well formed. *)
Lemma parse_well_formed (text : jsstring) (v : value) :
  parse text = Some v -> well_formed v.
Proof.
  unfold parse. destruct (lex LIdle text) as [toks|] eqn:El; [|discriminate].
  destruct (run (SValue []) toks) as [st|] eqn:Er; [|discriminate].
  destruct st; try discriminate. intros [= <-].
  apply (run_ok toks (SValue []) (SDone v0)); [constructor| |assumption].
  apply (lex_ok _ _ _ El).
Qed.

Lemma spaces_repeat (n : nat) : spaces (repeat 32 n).
Proof. unfold spaces. induction n as [|n IH]; [reflexivity|exact IH]. Qed.

(** Parsing what [JSON.stringify] wrote gives the value back, up to the
    sign of zeros. *)
Lemma parse_stringify (v : value) (space : Z) :
  (1 <= space)%Z -> well_formed v -> all_finite v = true ->
  parse (stringify v space) = Some (positive_zeros v).
Proof.
  intros Hs Hwf Hfin. unfold parse, stringify.
  assert (Hgap : repeat 32 (Z.to_nat (Z.min 10 space)) <> []).
  { destruct (Z.to_nat (Z.min 10 space)) eqn:E; [lia|discriminate]. }
  rewrite <- (app_nil_r (serialize _ _ _)).
  rewrite (lex_serialize _ v Hgap (spaces_repeat _) Hwf Hfin [] [] []
             eq_refl I eq_refl).
  rewrite (run_tokens v Hwf). reflexivity.
Qed.

Lemma get_property_nodup (k : jsstring) (w : value)
  (ps : list (jsstring * value)) :
  NoDup (keys ps) -> (k, w) ∈ ps -> get_property k ps = Some w.
Proof.
  induction ps as [|[k' v'] r IH]; intros Hnd Hin.
  - apply elem_of_nil in Hin. contradiction.
  - simpl in Hnd. apply NoDup_cons in Hnd as [Hk' Hnd]. simpl.
    apply elem_of_cons in Hin as [[= -> ->]|Hin].
    + unfold string_eqb. rewrite bool_decide_eq_true_2 by reflexivity.
      reflexivity.
    + destruct (string_eqb k k') eqn:E.
      * apply string_eqb_eq in E. subst k'. exfalso. apply Hk'.
        apply (list_elem_of_fmap_2 fst) in Hin. exact Hin.
      * apply IH; assumption.
Qed.

(** A value without negative zeros has no zero to change. *)
Lemma positive_zeros_id (v : value) :
  no_negative_zero v = true -> positive_zeros v = v.
Proof.
  induction v as [|b|x|s|l IH|ps IH] using value_induction; intros Hz;
    try reflexivity.
  - destruct x as [| |neg m e]; try reflexivity.
    destruct m as [|p|p]; try reflexivity.
    destruct neg; [discriminate Hz|reflexivity].
  - simpl in Hz. change (forallb no_negative_zero l = true) in Hz.
    simpl. f_equal.
    induction IH as [|x l Hx _ IHl]; [reflexivity|].
    simpl in Hz. apply andb_prop in Hz as [Hzx Hzl]. simpl.
    rewrite (Hx Hzx), (IHl Hzl). reflexivity.
  - simpl in Hz.
    change (forallb (fun p => no_negative_zero p.2) ps = true) in Hz.
    simpl. f_equal.
    induction IH as [|[k w] l Hx _ IHl]; [reflexivity|].
    simpl in Hz. apply andb_prop in Hz as [Hzx Hzl]. simpl in *.
    rewrite (Hx Hzx), (IHl Hzl). reflexivity.
Qed.

(** A value that [JSON.parse] builds is deep-equal to itself. *)
Lemma deep_equal_refl (v : value) :
  well_formed v -> deep_equal v v = true.
Proof.
  induction v as [|b|x|s|l IH|ps IH] using value_induction; intros Hwf.
  - reflexivity.
  - simpl. apply eqb_reflx.
  - apply number_eqb_refl.
  - simpl. unfold string_eqb. apply bool_decide_eq_true_2. reflexivity.
  - apply well_formed_array in Hwf.
    simpl. induction IH as [|x l Hx _ IHl]; [reflexivity|].
    apply Forall_cons in Hwf as [Hwx Hwl].
    rewrite (Hx Hwx). simpl. apply IHl; assumption.
  - apply well_formed_object in Hwf as [[Hnd _] Hwf].
    simpl. rewrite Nat.eqb_refl. simpl.
    assert (Hsub : forall p, p ∈ ps -> get_property p.1 ps = Some p.2).
    { intros [k w] Hin. apply get_property_nodup; assumption. }
    clear Hnd.
    assert (Haux : forall l qs,
               Forall (fun p => well_formed p.2 ->
                                deep_equal p.2 p.2 = true) l ->
               Forall (fun p => well_formed p.2) l ->
               (forall p, p ∈ l -> get_property p.1 qs = Some p.2) ->
               forallb (fun p => match p with
                                 | (k, v) =>
                                     match get_property k qs with
                                     | Some w => deep_equal v w
                                     | None => false
                                     end
                                 end) l = true).
    { clear. intros l qs Hl. induction Hl as [|[k w] l Hx _ IHl];
        intros Hwf Hsub; [reflexivity|].
      apply Forall_cons in Hwf as [Hwx Hwl]. simpl.
      assert (Hk := Hsub (k, w) ltac:(apply list_elem_of_here)).
      simpl in Hk, Hx. rewrite Hk, (Hx Hwx). simpl.
      apply IHl; try assumption.
      intros p Hp. apply Hsub. apply list_elem_of_further. exact Hp. }
    apply Haux; assumption.
Qed.

End ParseResults.

Section GrammarStrings.
Import JSON.

Lemma string_characters_unescape (body : list N) (s : jsstring) :
  string_characters body s -> unescape body = Some s.
Proof.
  induction 1 as [|c body s Hc H34 H92 _ IH|e u body s He _ IH
                 |h1 h2 h3 h4 u body s Hh _ IH].
  - reflexivity.
  - apply N.eqb_neq in H34, H92. apply N.ltb_ge in Hc.
    rewrite unescape_plain, IH by assumption. reflexivity.
  - unfold unescape; fold unescape. rewrite N.eqb_refl.
    destruct (N.eqb_spec e 117) as [->|_]; [discriminate He|].
    rewrite He, IH. reflexivity.
  - unfold unescape; fold unescape. rewrite !N.eqb_refl, Hh, IH. reflexivity.
Qed.

Lemma unescape_string_characters (body : list N) (s : jsstring) :
  unescape body = Some s -> string_characters body s.
Proof.
  remember (length body) as n eqn:Hn. revert body s Hn.
  induction n as [n IH] using lt_wf_ind. intros body s Hn.
  destruct body as [|c r]; [intros [= <-]; constructor|].
  unfold unescape; fold unescape.
  destruct (N.eqb_spec c 92) as [->|H92].
  - destruct r as [|e r']; [discriminate|].
    destruct (N.eqb_spec e 117) as [->|H117].
    + destruct r' as [|h1 [|h2 [|h3 [|h4 r'']]]]; try discriminate.
      destruct (hex4 h1 h2 h3 h4) as [u|] eqn:Hh; [|discriminate].
      destruct (unescape r'') as [t|] eqn:Hu; [|discriminate].
      intros [= <-]. apply characters_unicode; [exact Hh|].
      apply (IH (length r'')); [subst n; simpl; lia|reflexivity|exact Hu].
    + destruct (single_escape e) as [u|] eqn:He; [|discriminate].
      destruct (unescape r') as [t|] eqn:Hu; [|discriminate].
      intros [= <-]. apply characters_escape; [exact He|].
      apply (IH (length r')); [subst n; simpl; lia|reflexivity|exact Hu].
  - destruct (N.ltb_spec c 0x20) as [Hlt|Hge]; [discriminate|].
    destruct (N.eqb_spec c 34) as [->|H34]; [discriminate|]. simpl orb.
    cbv iota. destruct (unescape r) as [t|] eqn:Hu; [|discriminate].
    intros [= <-]. apply characters_plain; try assumption.
    apply (IH (length r)); [subst n; simpl; lia|reflexivity|exact Hu].
Qed.

Lemma string_characters_closes (body : list N) (s : jsstring) :
  string_characters body s -> closes false body = true.
Proof.
  induction 1 as [|c body s Hc H34 H92 _ IH|e u body s He _ IH
                 |h1 h2 h3 h4 u body s Hh _ IH].
  - reflexivity.
  - apply N.eqb_neq in H34, H92. rewrite closes_plain; assumption.
  - simpl. exact IH.
  - unfold hex4 in Hh.
    destruct (hex_value h1) eqn:E1; [|discriminate].
    destruct (hex_value h2) eqn:E2; [|discriminate].
    destruct (hex_value h3) eqn:E3; [|discriminate].
    destruct (hex_value h4) eqn:E4; [|discriminate].
    assert (Hx : forall h v, hex_value h = Some v ->
                   (h =? 92) = false /\ (h =? 34) = false).
    { clear. intros h v. unfold hex_value, is_digit.
      destruct (N.leb_spec 48 h), (N.leb_spec h 57); simpl;
        [intros _; split; apply N.eqb_neq; lia| | |];
        (destruct (N.leb_spec 97 h), (N.leb_spec h 102); simpl;
         [intros _; split; apply N.eqb_neq; lia| | |]);
        (destruct (N.leb_spec 65 h), (N.leb_spec h 70); simpl;
         [intros _; split; apply N.eqb_neq; lia| | |]); discriminate. }
    destruct (Hx _ _ E1) as [A1 B1], (Hx _ _ E2) as [A2 B2],
      (Hx _ _ E3) as [A3 B3], (Hx _ _ E4) as [A4 B4].
    simpl. rewrite A1, B1, A2, B2, A3, B3, A4, B4. exact IH.
Qed.

End GrammarStrings.

Section GrammarNumbers.
Import JSON.

Lemma span_digits_inv (s ds rest : list N) :
  span_digits s = (ds, rest) ->
  s = ds ++ rest /\ forallb is_digit ds = true /\ no_digit_head rest.
Proof.
  revert ds rest. induction s as [|c s IH]; intros ds rest; simpl.
  - intros [= <- <-]. repeat split.
  - destruct (is_digit c) eqn:Hc.
    + destruct (span_digits s) as [ds' rest'].
      destruct (IH ds' rest' eq_refl) as (Hs & Hds & Hrest).
      intros [= <- <-]. simpl. rewrite Hc, Hds, <- Hs. repeat split.
      exact Hrest.
    + intros [= <- <-]. repeat split. exact Hc.
Qed.

Lemma digit_head_not (c k : N) (ds : list N) :
  forallb is_digit (c :: ds) = true -> (k < 48 \/ 57 < k) -> (c =? k) = false.
Proof.
  simpl. intros H Hk. apply andb_prop in H as [Hc _].
  apply eqb_digit_false; assumption.
Qed.

Lemma read_exponent_text (ex : option exponent) :
  valid_exponent ex -> read_exponent (exponent_text ex) = Some (exponent_value ex).
Proof.
  destruct ex as [[mark sign ds]|]; [|reflexivity].
  intros [Hmark [Hne Hds]]. simpl in Hmark, Hne, Hds.
  unfold exponent_text, exponent_value, read_exponent. simpl.
  replace ((mark =? 101) || (mark =? 69)) with true
    by (destruct Hmark as [->| ->]; reflexivity).
  assert (Hsign : read_exponent_sign
                    (match sign with
                     | Some true => [45]
                     | Some false => [43]
                     | None => []
                     end ++ ds)
                  = (match sign with Some true => true | _ => false end, ds)).
  { destruct sign as [[|]|]; try reflexivity.
    destruct ds as [|c r]; [contradiction|]. simpl.
    rewrite (digit_head_not c 45 r Hds), (digit_head_not c 43 r Hds) by lia.
    reflexivity. }
  rewrite Hsign.
  rewrite <- (app_nil_r ds) at 1. rewrite span_digits_app by (exact Hds || exact I).
  rewrite bool_decide_eq_false_2 by assumption.
  rewrite bool_decide_eq_true_2 by reflexivity. simpl.
  destruct sign as [[|]|]; reflexivity.
Qed.

Lemma number_text_of_chars (w : list N) (x : number) :
  number_text w x -> number_of_chars w = Some x.
Proof.
  intros [neg ip fp ex Hip Hfp Hex].
  apply number_of_chars_parts; try assumption.
  - apply read_exponent_text. exact Hex.
  - destruct ex as [[mark sign ds]|]; [|exact I]. destruct Hex as [Hmark _].
    exact Hmark.
Qed.

Lemma read_minus_inv (w w1 : list N) (neg : bool) :
  read_minus w = (neg, w1) -> w = (if neg then [45] else []) ++ w1.
Proof.
  unfold read_minus. destruct w as [|c r]; [intros [= <- <-]; reflexivity|].
  destruct (N.eqb_spec c 45) as [->|_]; intros [= <- <-]; reflexivity.
Qed.

Lemma read_fraction_inv (w fp rest : list N) :
  read_fraction w = Some (fp, rest) ->
  w = fraction_text fp ++ rest /\ forallb is_digit fp = true.
Proof.
  unfold read_fraction. destruct w as [|c r]; [intros [= <- <-]; split; reflexivity|].
  destruct (N.eqb_spec c 46) as [->|_]; [|intros [= <- <-]; split; reflexivity].
  destruct (span_digits r) as [ds rest'] eqn:E.
  apply span_digits_inv in E as (Hr & Hds & _).
  destruct (bool_decide (ds = [])) eqn:Hne; [discriminate|].
  apply bool_decide_eq_false_1 in Hne.
  intros [= <- <-]. split; [|exact Hds]. rewrite Hr.
  destruct ds as [|d ds]; [contradiction|reflexivity].
Qed.

Lemma read_exponent_inv (w : list N) (e : Z) :
  read_exponent w = Some e ->
  exists ex, valid_exponent ex /\ w = exponent_text ex /\ e = exponent_value ex.
Proof.
  unfold read_exponent. destruct w as [|c r].
  - intros [= <-]. exists None. repeat split.
  - destruct ((c =? 101) || (c =? 69)) eqn:Hc; [|discriminate].
    assert (Hmark : c = 101 \/ c = 69).
    { apply orb_prop in Hc as [H|H]; apply N.eqb_eq in H; auto. }
    destruct (read_exponent_sign r) as [eneg r1] eqn:Hs.
    destruct (span_digits r1) as [ds rest] eqn:Hd.
    apply span_digits_inv in Hd as (Hr1 & Hds & _).
    destruct (bool_decide (ds = [])) eqn:Hne; [discriminate|].
    apply bool_decide_eq_false_1 in Hne.
    destruct (bool_decide (rest = [])) eqn:Hrest; [|discriminate].
    apply bool_decide_eq_true_1 in Hrest. subst rest. rewrite app_nil_r in Hr1.
    subst r1. simpl. intros [= <-].
    unfold read_exponent_sign in Hs. destruct r as [|s r'].
    + injection Hs as <- <-. contradiction.
    + destruct (N.eqb_spec s 45) as [->|H45].
      * injection Hs as <- <-.
        exists (Some {| exponent_mark := c; exponent_sign := Some true;
                        exponent_digits := r' |}).
        repeat split; assumption.
      * destruct (N.eqb_spec s 43) as [->|H43].
        -- injection Hs as <- <-.
           exists (Some {| exponent_mark := c; exponent_sign := Some false;
                           exponent_digits := r' |}).
           repeat split; assumption.
        -- injection Hs as <- <-.
           exists (Some {| exponent_mark := c; exponent_sign := None;
                           exponent_digits := s :: r' |}).
           repeat split; assumption.
Qed.

Lemma number_of_chars_text (w : list N) (x : number) :
  number_of_chars w = Some x -> number_text w x.
Proof.
  unfold number_of_chars.
  destruct (read_minus w) as [neg w1] eqn:Hm. apply read_minus_inv in Hm.
  destruct (span_digits w1) as [ip w2] eqn:Hi.
  apply span_digits_inv in Hi as (Hw1 & Hip & _).
  destruct ip as [|d ip']; [discriminate|].
  destruct ((d =? 48) && negb (bool_decide (ip' = []))) eqn:Hz; [discriminate|].
  destruct (read_fraction w2) as [[fp w3]|] eqn:Hf; [|discriminate].
  apply read_fraction_inv in Hf as (Hw2 & Hfp).
  destruct (read_exponent w3) as [e|] eqn:He; [|discriminate].
  apply read_exponent_inv in He as (ex & Hex & Hw3 & ->).
  intros [= <-]. rewrite Hm, Hw1, Hw2, Hw3.
  apply number_text_intro; try assumption.
  split; [exact Hip|]. intros ->. rewrite N.eqb_refl in Hz. simpl in Hz.
  apply negb_false_iff, bool_decide_eq_true_1 in Hz. exact Hz.
Qed.

(** The texts of the literals and of the numbers. *)
Lemma word_token_spec (w : list N) (tok : token) :
  word_token w = Some tok
  <-> literal w = Some tok
      \/ exists x, tok = TNumber x /\ number_text w x.
Proof.
  unfold word_token, literal. split.
  - repeat (destruct (bool_decide _); [intros [= <-]; left; reflexivity|]).
    destruct (number_of_chars w) as [x|] eqn:E; [|discriminate].
    intros [= <-]. right. exists x. split; [reflexivity|].
    apply number_of_chars_text. exact E.
  - intros [H|(x & -> & H)]; [destruct (bool_decide _); [exact H|];
      destruct (bool_decide _); [exact H|];
      destruct (bool_decide _); [exact H|discriminate]|].
    apply number_text_of_chars in H.
    destruct (bool_decide (w = [116; 114; 117; 101])) eqn:E1.
    { apply bool_decide_eq_true_1 in E1. subst w. discriminate H. }
    destruct (bool_decide (w = [102; 97; 108; 115; 101])) eqn:E2.
    { apply bool_decide_eq_true_1 in E2. subst w. discriminate H. }
    destruct (bool_decide (w = [110; 117; 108; 108])) eqn:E3.
    { apply bool_decide_eq_true_1 in E3. subst w. discriminate H. }
    rewrite H. reflexivity.
Qed.

End GrammarNumbers.

Section GrammarScanner.
Import JSON.

Lemma lex_idle_inv (c : N) (st : lex_state) (toks : list token) :
  lex_idle c = Some (st, toks) ->
  (is_json_space c = true /\ st = LIdle /\ toks = [])
  \/ (exists tok, punctuation c = Some tok /\ st = LIdle /\ toks = [tok])
  \/ (c = 34 /\ st = LString [] false /\ toks = [])
  \/ (is_word_char c = true /\ st = LWord [c] /\ toks = []).
Proof.
  unfold lex_idle, punctuation.
  destruct (is_json_space c); [intros [= <- <-]; auto|].
  repeat (match goal with
          | |- context [if ?a =? ?b then _ else _] =>
              destruct (N.eqb_spec a b) as [->|?]
          end;
          [intros [= <- <-]; right; left; eexists; repeat split; reflexivity|]).
  destruct (N.eqb_spec c 34) as [->|?]; [intros [= <- <-]; auto 6|].
  destruct (is_word_char c); [intros [= <- <-]; auto 6|discriminate].
Qed.

Lemma scans_word (w : list N) (tok : token) (s : list N) (toks : list token) :
  word_token w = Some tok -> scans s toks -> scans (w ++ s) (tok :: toks).
Proof.
  intros Hw Hs. apply word_token_spec in Hw as [Hl|(x & -> & Hn)].
  - apply scans_literal; assumption.
  - apply scans_number; assumption.
Qed.

(** What the scanner accepts is a sequence of tokens of the grammar. *)
Lemma lex_scans (s : list N) :
  (forall toks, lex LIdle s = Some toks -> scans s toks)
  /\ (forall buf toks,
        lex (LWord buf) s = Some toks ->
        exists w rest tok toks',
          s = w ++ rest /\ word_token (rev buf ++ w) = Some tok
          /\ toks = tok :: toks' /\ scans rest toks')
  /\ (forall buf esc toks,
        lex (LString buf esc) s = Some toks ->
        exists body rest str toks',
          s = body ++ 34 :: rest /\ unescape (rev buf ++ body) = Some str
          /\ toks = TString str :: toks' /\ scans rest toks').
Proof.
  induction s as [|c s (IHi & IHw & IHs)].
  - split; [|split].
    + intros toks [= <-]. constructor.
    + intros buf toks. simpl.
      destruct (word_token (rev buf)) as [tok|] eqn:E; [|discriminate].
      intros [= <-]. exists [], [], tok, [].
      repeat split; [rewrite app_nil_r; exact E|constructor].
    + intros buf esc toks. discriminate.
  - assert (Hidle : forall toks, lex LIdle (c :: s) = Some toks ->
                                 scans (c :: s) toks).
    { intros toks. simpl.
      destruct (lex_idle c) as [[st' toks1]|] eqn:E; [|discriminate].
      destruct (lex st' s) as [rest|] eqn:E'; [|discriminate].
      intros [= <-].
      apply lex_idle_inv in E
        as [(Hc & -> & ->)|[(tok & Hc & -> & ->)|[(-> & -> & ->)|(Hc & -> & ->)]]].
      - apply scans_space; [exact Hc|]. apply IHi. exact E'.
      - apply scans_punctuation; [exact Hc|]. apply IHi. exact E'.
      - destruct (IHs _ _ _ E') as (body & rest' & str & toks' & -> & Hu & -> & Hr).
        apply scans_string; [|exact Hr].
        apply unescape_string_characters. exact Hu.
      - destruct (IHw _ _ E') as (w & rest' & tok & toks' & -> & Hw & -> & Hr).
        change (c :: w ++ rest') with ((c :: w) ++ rest').
        apply scans_word; assumption. }
    split; [exact Hidle|]. split.
    + intros buf toks. simpl. destruct (is_word_char c) eqn:Hc.
      * destruct (lex (LWord (c :: buf)) s) as [rest|] eqn:E; [|discriminate].
        intros [= <-].
        destruct (IHw _ _ E) as (w & rest' & tok & toks' & -> & Hw & -> & Hr).
        exists (c :: w), rest', tok, toks'. repeat split; [|exact Hr].
        simpl in Hw. rewrite <- app_assoc in Hw. exact Hw.
      * destruct (word_token (rev buf)) as [tok|] eqn:Hw; [|discriminate].
        destruct (lex_idle c) as [[st' toks1]|] eqn:E; [|discriminate].
        destruct (lex st' s) as [rest|] eqn:E'; [|discriminate].
        intros [= <-].
        exists [], (c :: s), tok, (toks1 ++ rest).
        repeat split; [rewrite app_nil_r; exact Hw|].
        apply Hidle. simpl. rewrite E, E'. reflexivity.
    + intros buf esc toks. simpl.
      assert (Hpush : forall e,
                 lex (LString (c :: buf) e) s = Some toks ->
                 exists body rest str toks',
                   c :: s = body ++ 34 :: rest
                   /\ unescape (rev buf ++ body) = Some str
                   /\ toks = TString str :: toks' /\ scans rest toks').
      { intros e E.
        destruct (IHs _ _ _ E) as (body & rest' & str & toks' & -> & Hu & -> & Hr).
        exists (c :: body), rest', str, toks'. repeat split; [|exact Hr].
        simpl in Hu. rewrite <- app_assoc in Hu. exact Hu. }
      destruct esc.
      * destruct (lex (LString (c :: buf) false) s) as [rest|] eqn:E;
          [|discriminate].
        intros [= <-]. apply (Hpush false). exact E.
      * destruct (N.eqb_spec c 92) as [->|H92].
        -- destruct (lex (LString (92 :: buf) true) s) as [rest|] eqn:E;
             [|discriminate].
           intros [= <-]. apply (Hpush true). exact E.
        -- destruct (N.eqb_spec c 34) as [->|H34].
           ++ destruct (unescape (rev buf)) as [str|] eqn:Hu; [|discriminate].
              destruct (lex LIdle s) as [rest|] eqn:E; [|discriminate].
              intros [= <-]. exists [], s, str, rest.
              repeat split; [rewrite app_nil_r; exact Hu|]. apply IHi.
              reflexivity.
           ++ destruct (lex (LString (c :: buf) false) s) as [rest|] eqn:E;
                [|discriminate].
              intros [= <-]. apply (Hpush false). exact E.
Qed.

Lemma literal_word (w : list N) (tok : token) :
  literal w = Some tok ->
  w <> [] /\ forallb is_word_char w = true /\ is_word_token tok = true.
Proof.
  unfold literal.
  repeat (destruct (bool_decide _) eqn:E;
          [apply bool_decide_eq_true_1 in E; subst w; intros [= <-];
           repeat split; discriminate|clear E]).
  discriminate.
Qed.

Lemma number_text_word (w : list N) (x : number) :
  number_text w x -> w <> [] /\ forallb is_word_char w = true.
Proof.
  intros [neg ip fp ex [Hip Hhd] Hfp Hex]. split.
  - destruct ip as [|d r]; [contradiction|]. destruct neg; discriminate.
  - rewrite !forallb_app. rewrite (digits_are_word_chars ip Hip).
    assert (Hf : forallb is_word_char (fraction_text fp) = true).
    { destruct fp as [|c r]; [reflexivity|].
      change (fraction_text (c :: r)) with ([46] ++ c :: r).
      rewrite forallb_app, (digits_are_word_chars _ Hfp). reflexivity. }
    assert (He : forallb is_word_char (exponent_text ex) = true).
    { destruct ex as [[mark sign ds]|]; [|reflexivity].
      destruct Hex as [Hmark [_ Hds]]. simpl in Hmark, Hds.
      unfold exponent_text. simpl.
      change (mark :: ?a ++ ds) with ([mark] ++ a ++ ds).
      rewrite !forallb_app, (digits_are_word_chars ds Hds).
      destruct Hmark as [->| ->], sign as [[|]|]; reflexivity. }
    rewrite Hf, He. destruct neg; reflexivity.
Qed.

Lemma lex_punctuation_token (c : N) (tok : token) (rest : list N) :
  punctuation c = Some tok ->
  lex LIdle (c :: rest) = cons tok <$> lex LIdle rest.
Proof.
  unfold punctuation. intros H. apply lex_punctuation. revert H.
  repeat (match goal with
          | |- context [if ?a =? ?b then _ else _] =>
              destruct (N.eqb_spec a b) as [->|?]
          end;
          [intros [= <-];
           repeat first [apply list_elem_of_here | apply list_elem_of_further]|]).
  discriminate.
Qed.

Lemma word_char_plain (c : N) :
  is_word_char c = true ->
  is_json_space c = false /\ punctuation c = None /\ c <> 34.
Proof.
  intros H. assert (Hi := lex_idle_word_char c H). unfold lex_idle in Hi.
  destruct (is_json_space c); [discriminate|]. split; [reflexivity|].
  unfold punctuation.
  repeat (match goal with
          | |- context [if ?a =? ?b then _ else _] =>
              destruct (N.eqb_spec a b) as [->|?]
          end; [discriminate Hi|]).
  split; [reflexivity|]. intros ->. discriminate Hi.
Qed.

(** A text that starts with a character of a literal or of a number starts
    with a literal or a number. *)
Lemma scans_word_head (c : N) (s : list N) (toks : list token) :
  scans (c :: s) toks -> is_word_char c = true ->
  exists tok r, toks = tok :: r /\ is_word_token tok = true.
Proof.
  intros Hs Hc. destruct (word_char_plain c Hc) as (Hsp & Hp & H34).
  inversion Hs as [|c' s' toks' Hc' Hs' E|c' tok s' toks' Hc' Hs' E
                  |body str s' toks' Hb Hs' E|w tok s' toks' Hw Hs' E
                  |w x s' toks' Hw Hs' E]; subst.
  - congruence.
  - congruence.
  - contradiction.
  - destruct (literal_word w tok Hw) as (_ & _ & Ht). eauto.
  - eauto.
Qed.

(** The scanner reads a sequence of tokens of the grammar as it is, when a
    literal or a number is followed by a comma or a closing bracket. *)
Lemma scans_lex (s : list N) (toks : list token) :
  scans s toks -> follows_ok toks -> lex LIdle s = Some toks.
Proof.
  induction 1 as [|c s toks Hc _ IH|c tok s toks Hc _ IH
                 |body str s toks Hb _ IH|w tok s toks Hw Hs IH
                 |w x s toks Hw Hs IH]; intros Hok.
  - reflexivity.
  - rewrite lex_space by assumption. apply IH. exact Hok.
  - rewrite (lex_punctuation_token c tok) by assumption.
    rewrite IH; [reflexivity|]. destruct Hok as [_ Hok]. exact Hok.
  - simpl lex. unfold lex_step, lex_idle.
    replace (is_json_space 34) with false by reflexivity. simpl.
    rewrite lex_string_body by (apply (string_characters_closes body str Hb)).
    simpl rev. rewrite app_nil_l.
    rewrite (string_characters_unescape body str Hb).
    rewrite IH; [reflexivity|]. destruct Hok as [_ Hok]. exact Hok.
  - destruct (literal_word w tok Hw) as (Hne & Hwc & Ht).
    destruct Hok as [Hnext Hok].
    apply lex_word; try assumption.
    + apply word_token_spec. left. exact Hw.
    + destruct s as [|c s']; [exact I|]. simpl.
      destruct (is_word_char c) eqn:Hc; [exfalso|reflexivity].
      destruct (scans_word_head c s' toks Hs Hc) as (tok2 & r & -> & Ht2).
      specialize (Hnext Ht). destruct tok2; discriminate.
    + apply IH. exact Hok.
  - destruct (number_text_word w x Hw) as (Hne & Hwc).
    destruct Hok as [Hnext Hok].
    apply lex_word; try assumption.
    + apply word_token_spec. right. eauto.
    + destruct s as [|c s']; [exact I|]. simpl.
      destruct (is_word_char c) eqn:Hc; [exfalso|reflexivity].
      destruct (scans_word_head c s' toks Hs Hc) as (tok2 & r & -> & Ht2).
      specialize (Hnext eq_refl). destruct tok2; discriminate.
    + apply IH. exact Hok.
Qed.

End GrammarScanner.

Section GrammarRecognizer.
Import JSON.

Lemma follows_ok_closer (a : list token) (t : token) (b : list token) :
  follows_ok a -> is_closer t = true -> follows_ok (t :: b) ->
  follows_ok (a ++ t :: b).
Proof.
  intros Ha Ht Hb. induction a as [|x a IH]; [exact Hb|].
  destruct Ha as [Hx Ha]. simpl app. split; [|apply IH; exact Ha].
  destruct a as [|y a']; simpl; [intros _; exact Ht|exact Hx].
Qed.

Lemma follows_ok_opener (t : token) (a : list token) :
  is_word_token t = false -> follows_ok a -> follows_ok (t :: a).
Proof.
  intros Ht Ha. split; [|exact Ha]. destruct a; [exact I|].
  rewrite Ht. discriminate.
Qed.

(** In a text of the grammar a literal or a number is followed by a comma
    or a closing bracket. *)
Lemma grammar_follows_ok :
  (forall ts, value_tokens ts -> follows_ok ts)
  /\ (forall ts, element_tokens ts -> follows_ok ts)
  /\ (forall ts, member_tokens ts -> follows_ok ts).
Proof.
  apply grammar_induction; intros; try (repeat split; discriminate).
  - apply follows_ok_opener; [reflexivity|].
    apply follows_ok_closer; [assumption|reflexivity|repeat split].
  - apply follows_ok_opener; [reflexivity|].
    apply follows_ok_closer; [assumption|reflexivity|repeat split].
  - assumption.
  - apply follows_ok_closer; [assumption|reflexivity|].
    apply follows_ok_opener; [reflexivity|assumption].
  - repeat (apply follows_ok_opener; [reflexivity|]). assumption.
  - repeat (apply follows_ok_opener; [reflexivity|]).
    apply follows_ok_closer; [assumption|reflexivity|].
    apply follows_ok_opener; [reflexivity|assumption].
Qed.

Lemma grammar_heads :
  (forall ts, value_tokens ts -> exists t r, ts = t :: r /\ t <> TRBracket)
  /\ (forall ts, element_tokens ts -> exists t r, ts = t :: r /\ t <> TRBracket)
  /\ (forall ts, member_tokens ts -> exists k r, ts = TString k :: r).
Proof.
  apply grammar_induction; intros;
    try (eexists _, _; split; [reflexivity|discriminate]);
    try (eexists _, _; reflexivity).
  - assumption.
  - destruct H0 as (t & r' & -> & Ht). exists t, (r' ++ TComma :: r).
    split; [reflexivity|exact Ht].
Qed.

(** The recognizer accepts the texts of the value grammar. *)
Lemma grammar_accepted :
  (forall ts, value_tokens ts -> value_accepted ts)
  /\ (forall ts, element_tokens ts -> elements_accepted ts)
  /\ (forall ts, member_tokens ts -> members_accepted ts).
Proof.
  apply grammar_induction.
  - intros stk rest. exists JNull. reflexivity.
  - intros stk rest. exists (JBool true). reflexivity.
  - intros stk rest. exists (JBool false). reflexivity.
  - intros x stk rest. exists (JNumber x). reflexivity.
  - intros s stk rest. exists (JString s). reflexivity.
  - intros stk rest. exists (JArray []). reflexivity.
  - intros ts Hts IH stk rest.
    destruct (proj1 (proj2 grammar_heads) ts Hts) as (t & r & E & Ht).
    destruct (IH [] stk rest) as [l Hl]. exists (JArray l). rewrite <- Hl.
    replace ((TLBracket :: ts ++ [TRBracket]) ++ rest)
      with (TLBracket :: ts ++ TRBracket :: rest)
      by (simpl; rewrite <- app_assoc; reflexivity).
    rewrite E. simpl. destruct t; try reflexivity. contradiction.
  - intros stk rest. exists (JObject []). reflexivity.
  - intros ts Hts IH stk rest.
    destruct (proj2 (proj2 grammar_heads) ts Hts) as (k & r & E).
    destruct (IH [] stk rest) as [ps' Hps]. exists (JObject ps').
    rewrite <- Hps.
    replace ((TLBrace :: ts ++ [TRBrace]) ++ rest)
      with (TLBrace :: ts ++ TRBrace :: rest)
      by (simpl; rewrite <- app_assoc; reflexivity).
    rewrite E. reflexivity.
  - intros ts _ IH acc stk rest.
    destruct (IH (FArray acc :: stk) (TRBracket :: rest)) as [v Hv].
    exists (rev (v :: acc)). rewrite Hv. reflexivity.
  - intros ts r _ IHv _ IHr acc stk rest.
    destruct (IHv (FArray acc :: stk) (TComma :: r ++ TRBracket :: rest))
      as [v Hv].
    destruct (IHr (v :: acc) stk rest) as [l Hl]. exists l.
    rewrite <- Hl. rewrite <- app_assoc. simpl app. rewrite Hv. reflexivity.
  - intros k ts _ IH ps stk rest.
    destruct (IH (FObject ps k :: stk) (TRBrace :: rest)) as [v Hv].
    exists (set_property k v ps).
    change (run (SKey ps stk) ((TString k :: TColon :: ts) ++ TRBrace :: rest))
      with (run (SValue (FObject ps k :: stk)) (ts ++ TRBrace :: rest)).
    rewrite Hv. reflexivity.
  - intros k ts r _ IHv _ IHr ps stk rest.
    destruct (IHv (FObject ps k :: stk) (TComma :: r ++ TRBrace :: rest))
      as [v Hv].
    destruct (IHr (set_property k v ps) stk rest) as [ps' Hps]. exists ps'.
    rewrite <- Hps.
    replace ((TString k :: TColon :: ts ++ TComma :: r) ++ TRBrace :: rest)
      with (TString k :: TColon :: ts ++ TComma :: r ++ TRBrace :: rest)
      by (simpl; rewrite <- app_assoc; reflexivity).
    change (run (SKey ps stk) (TString k :: TColon :: ?t))
      with (run (SValue (FObject ps k :: stk)) t).
    rewrite Hv. reflexivity.
Qed.

Lemma reduce_expects (v : value) (stk : list frame) (toks : list token) :
  expects (reduce v stk) toks -> completes stk toks.
Proof. destruct stk as [|[acc|ps k] stk]; simpl; auto. Qed.

Lemma elements_extend (ts r : list token) :
  value_tokens ts -> more_elements r -> element_tokens (ts ++ r).
Proof.
  intros Hts [->|(es & -> & Hes)].
  - rewrite app_nil_r. apply elements_one. exact Hts.
  - apply elements_more; assumption.
Qed.

Lemma members_extend (k : jsstring) (ts r : list token) :
  value_tokens ts -> more_members r ->
  member_tokens (TString k :: TColon :: ts ++ r).
Proof.
  intros Hts [->|(ms & -> & Hms)].
  - rewrite app_nil_r. apply members_one. exact Hts.
  - apply members_more; assumption.
Qed.

Lemma parse_value_expects (stk : list frame) (tok : token)
  (st' : parse_state) (r : list token) :
  parse_value stk tok = Some st' -> expects st' r ->
  expects (SValue stk) (tok :: r).
Proof.
  destruct tok; simpl; try discriminate; intros [= <-] H.
  - destruct H as [(rest & -> & Hc)|(ms & rest & -> & Hms & Hc)].
    + exists [TLBrace; TRBrace], rest. repeat split; [constructor|exact Hc].
    + exists (TLBrace :: ms ++ [TRBrace]), rest.
      split; [simpl; rewrite <- app_assoc; reflexivity|].
      split; [apply value_object; exact Hms|exact Hc].
  - destruct H as [(rest & -> & Hc)|(es & rest & -> & Hes & Hc)].
    + exists [TLBracket; TRBracket], rest. repeat split; [constructor|exact Hc].
    + exists (TLBracket :: es ++ [TRBracket]), rest.
      split; [simpl; rewrite <- app_assoc; reflexivity|].
      split; [apply value_array; exact Hes|exact Hc].
  - exists [TString s], r. repeat split; [constructor|].
    apply (reduce_expects _ _ _ H).
  - exists [TNumber x], r. repeat split; [constructor|].
    apply (reduce_expects _ _ _ H).
  - exists [TTrue], r. repeat split; [constructor|].
    apply (reduce_expects _ _ _ H).
  - exists [TFalse], r. repeat split; [constructor|].
    apply (reduce_expects _ _ _ H).
  - exists [TNull], r. repeat split; [constructor|].
    apply (reduce_expects _ _ _ H).
Qed.

Lemma parse_step_expects (st st' : parse_state) (tok : token)
  (r : list token) :
  parse_step st tok = Some st' -> expects st' r -> expects st (tok :: r).
Proof.
  destruct st as [stk|stk|stk|ps stk|ps k stk|acc stk|ps stk|v]; simpl.
  - apply parse_value_expects.
  - intros Hstep H.
    assert (Hval : parse_value (FArray [] :: stk) tok = Some st' ->
                   exists es rest,
                     tok :: r = es ++ TRBracket :: rest /\ element_tokens es
                     /\ completes stk rest).
    { intros Hv.
      destruct (parse_value_expects _ _ _ _ Hv H)
        as (ts & rest' & E & Hts & (r' & rest & -> & Hr' & Hc)).
      exists (ts ++ r'), rest. rewrite <- app_assoc.
      split; [exact E|]. split; [apply elements_extend; assumption|exact Hc]. }
    destruct tok; try (right; apply Hval; exact Hstep).
    injection Hstep as <-. left. exists r. split; [reflexivity|].
    apply (reduce_expects _ _ _ H).
  - destruct tok; try discriminate; intros [= <-] H.
    + left. exists r. split; [reflexivity|]. apply (reduce_expects _ _ _ H).
    + right. destruct H as (ts & r' & rest & -> & Hts & Hr' & Hc).
      exists (TString s :: TColon :: ts ++ r'), rest.
      split; [simpl; rewrite <- app_assoc; reflexivity|].
      split; [apply members_extend; assumption|exact Hc].
  - destruct tok; try discriminate; intros [= <-] H.
    destruct H as (ts & r' & rest & -> & Hts & Hr' & Hc).
    exists (TString s :: TColon :: ts ++ r'), rest.
    split; [simpl; rewrite <- app_assoc; reflexivity|].
    split; [apply members_extend; assumption|exact Hc].
  - destruct tok; try discriminate; intros [= <-] H.
    destruct H as (ts & rest' & -> & Hts & (r' & rest & -> & Hr' & Hc)).
    exists ts, r', rest. repeat split; assumption.
  - destruct tok; try discriminate; intros [= <-] H.
    + exists [], r. repeat split; [left; reflexivity|].
      apply (reduce_expects _ _ _ H).
    + destruct H as (ts & rest' & -> & Hts & (r' & rest & -> & Hr' & Hc)).
      exists (TComma :: ts ++ r'), rest.
      split; [simpl; rewrite <- app_assoc; reflexivity|].
      split; [|exact Hc]. right. exists (ts ++ r').
      split; [reflexivity|apply elements_extend; assumption].
  - destruct tok; try discriminate; intros [= <-] H.
    + exists [], r. repeat split; [left; reflexivity|].
      apply (reduce_expects _ _ _ H).
    + destruct H as (ms & rest & -> & Hms & Hc).
      exists (TComma :: ms), rest. repeat split; [|exact Hc].
      right. exists ms. split; [reflexivity|exact Hms].
  - discriminate.
Qed.

(** What the recognizer accepts is a text of the value grammar. *)
Lemma run_expects (toks : list token) (st : parse_state) (v : value) :
  run st toks = Some (SDone v) -> expects st toks.
Proof.
  revert st. induction toks as [|tok r IH]; intros st; simpl.
  - intros [= ->]. reflexivity.
  - destruct (parse_step st tok) as [st'|] eqn:E; [|discriminate].
    intros H. apply (parse_step_expects st st' tok r E). apply IH. exact H.
Qed.

(** [JSON.parse] returns a value for the JSON texts and throws for every
    other string. *)
Lemma parse_json_text (text : jsstring) :
  json_text text <-> exists v, parse text = Some v.
Proof.
  unfold parse. split.
  - intros (toks & Hs & Hv).
    rewrite (scans_lex text toks Hs (proj1 grammar_follows_ok toks Hv)).
    destruct (proj1 grammar_accepted toks Hv [] []) as [v Hrun].
    rewrite app_nil_r in Hrun. exists v. rewrite Hrun. reflexivity.
  - intros [v H].
    destruct (lex LIdle text) as [toks|] eqn:El; [|discriminate].
    destruct (run (SValue []) toks) as [[]|] eqn:Er; try discriminate.
    exists toks. split; [apply (proj1 (lex_scans text)); exact El|].
    destruct (run_expects toks _ _ Er) as (ts & rest & -> & Hts & ->).
    rewrite app_nil_r. exact Hts.
Qed.

End GrammarRecognizer.

Section TrimFacts.

Lemma trim_start_split (s : jsstring) :
  exists pre, s = pre ++ trim_start s /\ forallb is_trimmable pre = true.
Proof.
  induction s as [|c s (pre & Hs & Hpre)]; [exists []; split; reflexivity|].
  simpl. destruct (is_trimmable c) eqn:Hc.
  - exists (c :: pre). simpl. rewrite Hc, Hpre, <- Hs. split; reflexivity.
  - exists []. split; reflexivity.
Qed.

Lemma trim_start_head (s : jsstring) :
  match trim_start s with
  | [] => True
  | c :: _ => is_trimmable c = false
  end.
Proof.
  induction s as [|c s IH]; [exact I|]. simpl.
  destruct (is_trimmable c) eqn:Hc; [exact IH|exact Hc].
Qed.

Lemma trim_start_nil (s : jsstring) :
  trim_start s = [] <-> forallb is_trimmable s = true.
Proof.
  induction s as [|c s IH]; [split; reflexivity|]. simpl.
  destruct (is_trimmable c); [exact IH|]. split; discriminate.
Qed.

Lemma forallb_rev (f : N -> bool) (l : list N) :
  forallb f (rev l) = forallb f l.
Proof.
  induction l as [|c l IH]; [reflexivity|]. simpl.
  rewrite forallb_app, IH. simpl. rewrite andb_true_r. apply andb_comm.
Qed.

(** The trimmed string is empty exactly when the string is empty or has
    white space only. *)
Lemma trim_nil (s : jsstring) :
  trim s = [] <-> forallb is_trimmable s = true.
Proof.
  unfold trim, trim_end. split.
  - intros H. apply (f_equal (@rev N)) in H. rewrite rev_involutive in H.
    simpl in H. apply trim_start_nil in H. rewrite forallb_rev in H.
    assert (Hh := trim_start_head s).
    destruct (trim_start s) as [|c r] eqn:E; [apply trim_start_nil; exact E|].
    simpl in H. rewrite Hh in H. discriminate.
  - intros H. apply trim_start_nil in H. rewrite H. reflexivity.
Qed.

(** [trim] removes white space at both ends, and all of it. *)
Lemma trim_spec (s : jsstring) :
  exists pre post,
    s = pre ++ trim s ++ post
    /\ forallb is_trimmable pre = true /\ forallb is_trimmable post = true
    /\ match trim s with
       | [] => True
       | c :: _ => is_trimmable c = false
       end
    /\ match rev (trim s) with
       | [] => True
       | c :: _ => is_trimmable c = false
       end.
Proof.
  destruct (trim_start_split s) as (pre & Hs & Hpre).
  destruct (trim_start_split (rev (trim_start s))) as (tsop & Hr & Hpost).
  exists pre, (rev tsop). unfold trim, trim_end.
  assert (Hmid : trim_start s = rev (trim_start (rev (trim_start s))) ++ rev tsop).
  { rewrite <- rev_app_distr, <- Hr, rev_involutive. reflexivity. }
  split; [rewrite <- Hmid; exact Hs|].
  split; [exact Hpre|]. split; [rewrite forallb_rev; exact Hpost|].
  split.
  - assert (Hh := trim_start_head s). rewrite Hmid in Hh.
    destruct (rev (trim_start (rev (trim_start s)))); [exact I|exact Hh].
  - rewrite rev_involutive. apply trim_start_head.
Qed.

End TrimFacts.

Section HandlerFacts.

(** The run of a submission whose trimmed name is empty. *)
Lemma submit_rejected_locally (transport : jsstring -> settled)
  (st : AppState) :
  truthy (trim (nodeName st)) = false ->
  (submit transport st).1
  = [Did preventDefault;
     Did (setErrorMessage (Some (JS "请输入节点名称")));
     Did (setResponse None);
     Did (toast_error (JS "请输入节点名称"))].
Proof.
  intros H. unfold submit, handleSubmit. rewrite H. reflexivity.
Qed.

(** The run of a submission that reaches the remote call and is
    fulfilled. *)
Lemma submit_fulfilled (transport : jsstring -> settled) (st : AppState)
  (result : GetNodeConfigResponse) :
  truthy (trim (nodeName st)) = true ->
  transport (trim (nodeName st)) = Fulfilled result ->
  (submit transport st).1
  = [Did preventDefault; Did (setLoading true); Did (setErrorMessage None);
     Called (trim (nodeName st));
     Did (setResponse (Some result));
     Did (toast_success
            (JS "已加载节点「" ++ or_else (name result) (trim (nodeName st))
             ++ JS "」的配置"))]
    ++ (if bool_decide (is_Some (portMapping result)) then []
        else [Did (toast_info (JS "该节点没有配置端口映射"))])
    ++ [Did (setLoading false)].
Proof.
  intros H Ht. unfold submit, handleSubmit. rewrite H. simpl.
  rewrite Ht. simpl.
  destruct (bool_decide (is_Some (portMapping result))); reflexivity.
Qed.

(** The run of a submission that reaches the remote call and is
    rejected. *)
Lemma submit_rejected (transport : jsstring -> settled) (st : AppState)
  (reason : thrown) :
  truthy (trim (nodeName st)) = true ->
  transport (trim (nodeName st)) = Rejected reason ->
  let message :=
    match reason with
    | ConnectError rawMessage _ => rawMessage
    | Error message => message
    | NotAnError => JS "无法获取节点配置"
    end in
  (submit transport st).1
  = [Did preventDefault; Did (setLoading true); Did (setErrorMessage None);
     Called (trim (nodeName st));
     Did (setErrorMessage (Some message)); Did (setResponse None);
     Did (toast_error message); Did (setLoading false)].
Proof.
  intros H Ht. unfold submit, handleSubmit. rewrite H. simpl.
  rewrite Ht. destruct reason; reflexivity.
Qed.

Lemma submit_state (transport : jsstring -> settled) (st : AppState) :
  (submit transport st).2 = state_after st (submit transport st).1.
Proof.
  unfold submit. destruct (exec transport (handleSubmit st)). reflexivity.
Qed.

End HandlerFacts.

Section SubmissionFacts.

Lemma trim_start_padding (ws s : jsstring) :
  forallb is_trimmable ws = true -> trim_start (ws ++ s) = trim_start s.
Proof.
  induction ws as [|c ws IH]; intros H; [reflexivity|].
  simpl in H. apply andb_prop in H as [Hc H].
  simpl. rewrite Hc. apply IH. exact H.
Qed.

Lemma trim_start_app (s t : jsstring) :
  trim_start (s ++ t)
  = match trim_start s with
    | [] => trim_start t
    | _ :: _ => trim_start s ++ t
    end.
Proof.
  induction s as [|c s IH]; [reflexivity|].
  simpl. destruct (is_trimmable c); [exact IH|reflexivity].
Qed.

Lemma trim_end_padding (s ws : jsstring) :
  forallb is_trimmable ws = true -> trim_end (s ++ ws) = trim_end s.
Proof.
  intros H. unfold trim_end. rewrite rev_app_distr.
  rewrite trim_start_padding by (rewrite forallb_rev; exact H).
  reflexivity.
Qed.

(** White space around a string does not change what [trim] returns. *)
Lemma trim_padding (before s after : jsstring) :
  forallb is_trimmable before = true ->
  forallb is_trimmable after = true ->
  trim (before ++ s ++ after) = trim s.
Proof.
  intros Hb Ha. unfold trim.
  rewrite trim_start_padding by exact Hb. rewrite trim_start_app.
  destruct (trim_start s) as [|c r] eqn:E.
  - apply trim_start_nil in Ha. rewrite Ha. reflexivity.
  - apply trim_end_padding. exact Ha.
Qed.

Lemma handleSubmit_trimmed (st st' : AppState) :
  trim (nodeName st) = trim (nodeName st') ->
  handleSubmit st = handleSubmit st'.
Proof. intros H. unfold handleSubmit. rewrite H. reflexivity. Qed.

(** What a submission leaves of the state it starts in: the name that
    was typed, and the in-flight flag when no call is made. *)
Lemma submit_final_state (transport : jsstring -> settled) (st : AppState) :
  exists (e : option jsstring) (r : option GetNodeConfigResponse),
    (submit transport st).2
    = {| nodeName := nodeName st;
         loading := if truthy (trim (nodeName st)) then false
                    else loading st;
         errorMessage := e;
         response := r |}
    /\ forall st' : AppState,
         trim (nodeName st') = trim (nodeName st) ->
         errorMessage (submit transport st').2 = e
         /\ response (submit transport st').2 = r.
Proof.
  destruct (truthy (trim (nodeName st))) eqn:Hname.
  - destruct (transport (trim (nodeName st))) as [result|reason] eqn:Hcall.
    + eexists _, _. split.
      * rewrite submit_state,
          (submit_fulfilled transport st result Hname Hcall).
        destruct (bool_decide (is_Some (portMapping result))); reflexivity.
      * intros st' Hst'. rewrite <- Hst' in Hname, Hcall.
        rewrite submit_state,
          (submit_fulfilled transport st' result Hname Hcall).
        destruct (bool_decide (is_Some (portMapping result)));
          split; reflexivity.
    + eexists _, _. split.
      * rewrite submit_state,
          (submit_rejected transport st reason Hname Hcall).
        reflexivity.
      * intros st' Hst'. rewrite <- Hst' in Hname, Hcall.
        rewrite submit_state,
          (submit_rejected transport st' reason Hname Hcall).
        split; reflexivity.
  - eexists _, _. split.
    + rewrite submit_state, (submit_rejected_locally transport st Hname).
      reflexivity.
    + intros st' Hst'. rewrite <- Hst' in Hname.
      rewrite submit_state, (submit_rejected_locally transport st' Hname).
      split; reflexivity.
Qed.

Lemma submit_trace_trimmed (transport : jsstring -> settled)
  (st st' : AppState) :
  trim (nodeName st) = trim (nodeName st') ->
  (submit transport st).1 = (submit transport st').1.
Proof.
  intros H. unfold submit. rewrite (handleSubmit_trimmed st st' H).
  destruct (exec transport (handleSubmit st')). reflexivity.
Qed.

Lemma session_idle (qs : list query) : loading (session qs) = false.
Proof.
  unfold session. induction qs as [|q qs IH] using rev_ind; [reflexivity|].
  rewrite fold_left_app. simpl. unfold run_query at 1.
  fold (session qs) in IH |- *.
  destruct (submit_final_state (outcome q)
              (setNodeName (typedName q) (session qs)))
    as (e & r & Hfinal & _).
  rewrite Hfinal. simpl. rewrite IH.
  destruct (truthy (trim (typedName q))); reflexivity.
Qed.

End SubmissionFacts.

Section DisplayFacts.
Import JSON.

Lemma layout_nonempty (ds : list N) (n : Z) : ds <> [] -> layout ds n <> [].
Proof.
  intros Hds. destruct ds as [|d r]; [contradiction|]. unfold layout.
  destruct (_ && _); [discriminate|].
  destruct (_ && _).
  { intros H. apply app_eq_nil in H as [_ H]. discriminate H. }
  destruct (_ && _); [discriminate|].
  destruct r; discriminate.
Qed.

Lemma serialize_number_nonempty (x : number) : serialize_number x <> [].
Proof.
  unfold serialize_number. destruct x as [|neg|neg m e]; try discriminate.
  simpl. destruct (m =? 0)%Z; [discriminate|].
  destruct (shortest_decimal m e) as [s t].
  intros H. apply app_eq_nil in H as [_ H]. revert H.
  apply layout_nonempty, digits_nonempty.
Qed.

Lemma serialize_nonempty (gap stepback : list N) (v : value) :
  serialize gap stepback v <> [].
Proof.
  destruct v as [|b|x|s|l|ps]; simpl; try discriminate.
  - destruct b; discriminate.
  - apply serialize_number_nonempty.
  - unfold wrap. destruct (map _ l); [discriminate|].
    destruct (bool_decide _); discriminate.
  - unfold wrap. destruct (map _ ps); [discriminate|].
    destruct (bool_decide _); discriminate.
Qed.

Lemma stringify_truthy (v : value) (space : Z) :
  truthy (stringify v space) = true.
Proof.
  unfold stringify.
  destruct (serialize _ _ v) eqn:E; [|reflexivity].
  exfalso. exact (serialize_nonempty _ _ _ E).
Qed.

Lemma serialize_written (v : value) :
  forall gap stepback : list N,
    serialize gap stepback (written_value v) = serialize gap stepback v.
Proof.
  induction v as [|b|x|s|l IH|ps IH] using value_induction;
    intros gap stepback; try reflexivity.
  - simpl. unfold serialize_number.
    destruct (is_finite x) eqn:E; simpl; [|reflexivity].
    unfold serialize_number. rewrite E. reflexivity.
  - simpl. f_equal. rewrite List.map_map. apply List.map_ext_Forall.
    eapply List.Forall_impl; [|exact IH]. intros w Hw. apply Hw.
  - simpl. f_equal. rewrite List.map_map. apply List.map_ext_Forall.
    eapply List.Forall_impl; [|exact IH]. intros [k w] Hw. simpl in *.
    rewrite Hw. reflexivity.
Qed.

Lemma serialize_positive_zeros (v : value) :
  forall gap stepback : list N,
    serialize gap stepback (positive_zeros v) = serialize gap stepback v.
Proof.
  induction v as [|b|x|s|l IH|ps IH] using value_induction;
    intros gap stepback; try reflexivity.
  - simpl. destruct x as [|neg|neg m e]; try reflexivity. simpl.
    destruct (m =? 0)%Z eqn:E; [|reflexivity].
    unfold serialize_number. simpl. rewrite E. reflexivity.
  - simpl. f_equal. rewrite List.map_map. apply List.map_ext_Forall.
    eapply List.Forall_impl; [|exact IH]. intros w Hw. apply Hw.
  - simpl. f_equal. rewrite List.map_map. apply List.map_ext_Forall.
    eapply List.Forall_impl; [|exact IH]. intros [k w] Hw. simpl in *.
    rewrite Hw. reflexivity.
Qed.

Lemma all_finite_written (v : value) : all_finite (written_value v) = true.
Proof.
  induction v as [|b|x|s|l IH|ps IH] using value_induction;
    try reflexivity.
  - simpl. destruct (is_finite x) eqn:E; [exact E|reflexivity].
  - simpl. induction IH as [|w r Hw _ IHr]; [reflexivity|].
    simpl. rewrite Hw. exact IHr.
  - simpl. induction IH as [|w r Hw _ IHr]; [reflexivity|].
    simpl. rewrite Hw. exact IHr.
Qed.

Lemma well_formed_written (v : value) :
  well_formed v -> well_formed (written_value v).
Proof.
  induction v as [|b|x|s|l IH|ps IH] using value_induction;
    try (intros; exact I).
  - simpl. destruct (is_finite x); [trivial|intros; exact I].
  - change (written_value (JArray l)) with (JArray (map written_value l)).
    rewrite !well_formed_array. intros Hwf.
    apply List.Forall_map.
    induction IH as [|w r Hw _ IHr]; [constructor|].
    apply List.Forall_cons_iff in Hwf as [Hx Hr].
    constructor; [apply Hw; exact Hx|apply IHr; exact Hr].
  - change (written_value (JObject ps))
      with (JObject (map (fun p => (p.1, written_value p.2)) ps)).
    rewrite !well_formed_object. intros [Hkeys Hwf]. split.
    + rewrite List.map_map. exact Hkeys.
    + apply List.Forall_map. clear Hkeys.
      induction IH as [|w r Hw _ IHr]; [constructor|].
      apply List.Forall_cons_iff in Hwf as [Hx Hr].
      constructor; [apply Hw; exact Hx|apply IHr; exact Hr].
Qed.

(** What reading back the serialization of a value gives, whatever its
    Numbers. *)
Lemma parse_stringify_written (v : value) (space : Z) :
  (1 <= space)%Z -> well_formed v ->
  parse (stringify v space)
  = Some (positive_zeros (written_value v)).
Proof.
  intros Hs Hwf.
  replace (stringify v space) with (stringify (written_value v) space)
    by apply serialize_written.
  apply parse_stringify;
    [exact Hs|apply well_formed_written; exact Hwf|apply all_finite_written].
Qed.

Lemma stringify_read_back (v : value) (space : Z) :
  stringify (positive_zeros (written_value v)) space = stringify v space.
Proof.
  unfold stringify. rewrite serialize_positive_zeros. apply serialize_written.
Qed.

Lemma json_space_char (c : N) :
  is_json_space c = true ->
  is_word_char c = false /\ (c =? 92) = false /\ (c =? 34) = false
  /\ lex_idle c = Some (LIdle, []).
Proof.
  intros H. unfold lex_idle. rewrite H. unfold is_json_space in H.
  repeat (apply orb_prop in H as [H|H]);
    apply N.eqb_eq in H; subst c; repeat split.
Qed.

Lemma lex_only_spaces (ws : list N) :
  forallb is_json_space ws = true -> lex LIdle ws = Some [].
Proof.
  intros H. rewrite <- (app_nil_r ws). rewrite lex_spaces by exact H.
  reflexivity.
Qed.

Lemma lex_spaces_end (st : lex_state) (ws : list N) :
  forallb is_json_space ws = true -> lex st ws = lex_end st.
Proof.
  intros H. destruct st as [|buf|buf escaped].
  - apply lex_only_spaces. exact H.
  - destruct ws as [|c ws]; [reflexivity|].
    simpl in H. apply andb_prop in H as [Hc H].
    destruct (json_space_char c Hc) as (Hw & _ & _ & Hi).
    unfold lex; fold lex. unfold lex_step. rewrite Hw, Hi.
    simpl. destruct (word_token (rev buf)); [|reflexivity].
    rewrite (lex_only_spaces ws H). reflexivity.
  - revert buf escaped. induction ws as [|c ws IH]; intros buf escaped;
      [reflexivity|].
    simpl in H. apply andb_prop in H as [Hc H].
    destruct (json_space_char c Hc) as (_ & Hb & Hq & _).
    unfold lex; fold lex. unfold lex_step.
    destruct escaped.
    + rewrite (IH H). reflexivity.
    + rewrite Hb, Hq, (IH H). reflexivity.
Qed.

Lemma lex_trailing_spaces (s ws : list N) :
  forallb is_json_space ws = true ->
  forall st : lex_state, lex st (s ++ ws) = lex st s.
Proof.
  intros H. induction s as [|c s IH]; intros st.
  - apply lex_spaces_end. exact H.
  - simpl. destruct (lex_step st c) as [[st' toks]|]; [|reflexivity].
    rewrite IH. reflexivity.
Qed.

(** [JSON.parse] skips the white space around a text. *)
Lemma parse_padding (before text after : list N) :
  forallb is_json_space before = true ->
  forallb is_json_space after = true ->
  parse (before ++ text ++ after) = parse text.
Proof.
  intros Hb Ha. unfold parse.
  rewrite lex_spaces by exact Hb.
  rewrite lex_trailing_spaces by exact Ha. reflexivity.
Qed.

(** The details of a port mapping whose configuration is read as JSON
    and written again. *)
Lemma details_of_parsed (serializes : value -> bool) (m : Z)
  (text : jsstring) (v : value) :
  parse text = Some v -> serializes v = true ->
  portMappingDetails serializes (Some {| mode := m; configJson := text |})
  = {| hasConfig := true; isJson := true; pretty := stringify v 2 |}.
Proof.
  intros Hparse Hser. unfold portMappingDetails. simpl configJson.
  destruct text as [|c r]; [discriminate Hparse|].
  simpl truthy. simpl negb. cbv iota. rewrite Hparse. simpl.
  unfold stringify_within. rewrite Hser. reflexivity.
Qed.

(** The details of a port mapping whose configuration is read as JSON
    and that the engine fails to write. *)
Lemma details_of_unserialized (serializes : value -> bool) (m : Z)
  (text : jsstring) (v : value) :
  parse text = Some v -> serializes v = false ->
  portMappingDetails serializes (Some {| mode := m; configJson := text |})
  = {| hasConfig := true; isJson := false; pretty := text |}.
Proof.
  intros Hparse Hser. unfold portMappingDetails. simpl configJson.
  destruct text as [|c r]; [discriminate Hparse|].
  simpl truthy. simpl negb. cbv iota. rewrite Hparse. simpl.
  unfold stringify_within. rewrite Hser. reflexivity.
Qed.

(** The details of a port mapping whose configuration is not read as
    JSON. *)
Lemma details_of_invalid (serializes : value -> bool) (m : Z)
  (text : jsstring) :
  text <> [] -> parse text = None ->
  portMappingDetails serializes (Some {| mode := m; configJson := text |})
  = {| hasConfig := true; isJson := false; pretty := text |}.
Proof.
  intros Hne Hparse. unfold portMappingDetails. simpl configJson.
  destruct text as [|c r]; [contradiction|].
  simpl truthy. simpl negb. cbv iota. rewrite Hparse. reflexivity.
Qed.

(** The serialization of an array that is not empty goes to a new line
    after the bracket. *)
Lemma stringify_array_line (x : value) (l : list value) (space : Z) :
  (1 <= space)%Z -> nth 1 (stringify (JArray (x :: l)) space) 0 = 10.
Proof.
  intros Hs. unfold stringify.
  destruct (repeat 32 (Z.to_nat (Z.min 10 space))) as [|g gap] eqn:E.
  - destruct (Z.to_nat (Z.min 10 space)) eqn:E'; [lia|discriminate E].
  - reflexivity.
Qed.

Lemma details_has_config (serializes : value -> bool) (pm : PortMapping) :
  hasConfig (portMappingDetails serializes (Some pm)) = true.
Proof.
  unfold portMappingDetails.
  destruct (negb (truthy (configJson pm))); [reflexivity|].
  destruct (parse (configJson pm)) as [v|]; [|reflexivity]. simpl.
  unfold stringify_within. destruct (serializes v); reflexivity.
Qed.

Lemma parse_nonempty (text : jsstring) (v : value) :
  parse text = Some v -> text <> [].
Proof. intros H ->. discriminate H. Qed.

End DisplayFacts.

(** * Examples *)

Section Examples.
Import JSON.

(** Texts that are not JSON: trailing commas, superfluous zeros, missing
    digits, signs, names that are not literals, missing separators, bare
    keys, unbalanced brackets. *)
Example parse_throws :
  forallb (fun s => match parse (JS s) with
                    | None => true
                    | Some _ => false
                    end)
    ["[1,]"; "01"; "1."; ".5"; "+1"; "NaN"; "Infinity"; "tru"; "nulll";
     "[1 2]"; "1 2"; " "; "{a:1}"; "{1:2}"; "-"; "1e"; "1e+"; "1.e1";
     "0x10"; "- 1"; "[1]]"; "[[1]"; "{}{}"; "[,1]"; "{,}"; "'a'"; ":"]%string
  = true.
Proof. vm_compute. reflexivity. Qed.

(** The Number values of some literals, as [JSON.stringify] writes
    them. *)
Example numbers_read_and_written :
  map (fun s => match parse (JS s) with
                | Some v => stringify v 2
                | None => []
                end)
    ["8080"; "0.1"; "1e21"; "1E+2"; "1e-7"; "0.000001"; "-12.50";
     "123456789012345680000"; "9007199254740993"; "5e-324"; "2e-324";
     "1.7976931348623159e308"; "-0";
     "0.1000000000000000055511151231257827"]%string
  = map JS
      ["8080"; "0.1"; "1e+21"; "100"; "1e-7"; "0.000001"; "-12.5";
       "123456789012345680000"; "9007199254740992"; "5e-324"; "0";
       "null"; "0"; "0.1"]%string.
Proof. vm_compute. reflexivity. Qed.

(** Array indices come first among the properties, in ascending order,
    and a duplicate key keeps its place and takes the last value. *)
Example properties_in_order :
  parse (JS "{" ++ quote (JS "b") ++ JS ":1," ++ quote (JS "10") ++ JS ":2,"
         ++ quote (JS "9") ++ JS ":3," ++ quote (JS "b") ++ JS ":[],"
         ++ quote (JS "01") ++ JS ":null}")
  = Some (JObject [(JS "9", JNumber (of_decimal false 3 0));
                   (JS "10", JNumber (of_decimal false 2 0));
                   (JS "b", JArray []);
                   (JS "01", JNull)]).
Proof. vm_compute. reflexivity. Qed.

(** Escapes are read, and written again where they are needed: a lone
    surrogate is escaped, a pair is not. *)
Example strings_read_and_written :
  (parse (quote [0x0A; 0x22; 0xD83D; 0xDE00; 0xD83D; 0x41])
   = Some (JString [0x0A; 0x22; 0xD83D; 0xDE00; 0xD83D; 0x41]))
  /\ quote [0x0A; 0x22; 0xD83D; 0xDE00; 0xD83D; 0x41]
     = [34; 92; 110; 92; 34; 0xD83D; 0xDE00] ++ JS "\ud83dA" ++ [34].
Proof. split; vm_compute; reflexivity. Qed.

End Examples.

(** Scenario 2: the display of a SERVER mapping whose configuration is an
    object. *)
Example display_of_edge_01 :
  resultCard
    (render 0 1 2 (JSON.stack_of 1000)
       (submit (fun _ => Fulfilled edge_01) (typed (JS "edge-01"))).2)
  = ResultLoaded (JS "edge-01")
      (PortMappingPanel (JS "Server")
         (ConfigContent
            (JS "{" ++ [10] ++ JS "  " ++ JSON.quote (JS "port")
             ++ JS ": 8080" ++ [10] ++ JS "}")
            false)).
Proof. vm_compute. reflexivity. Qed.

(** Scenario 5: the display of a CLIENT mapping whose configuration is not
    JSON. *)
Example display_of_edge_04 :
  resultCard
    (render 0 1 2 (JSON.stack_of 1000)
       (submit (fun _ => Fulfilled edge_04) (typed (JS "edge-04"))).2)
  = ResultLoaded (JS "edge-04")
      (PortMappingPanel (JS "Client") (ConfigContent (JS "not json") true)).
Proof. vm_compute. reflexivity. Qed.

(** Scenario 6: a call rejected with "node not found" leaves the alert and
    no result. *)
Example display_of_node_not_found :
  render 0 1 2 (JSON.stack_of 1000)
    (submit (fun _ => Rejected node_not_found) (typed (JS "edge-09"))).2
  = {| alert := Some (JS "node not found"); submitDisabled := false;
       loadedNotice := None; resultCard := ResultPlaceholder |}.
Proof. vm_compute. reflexivity. Qed.

(** * The claims of the specification *)

(** C1. A failed remote call produces exactly one message, chosen by the
    shape of the fault: the [rawMessage] of a [ConnectError], the [message]
    of any other [Error], the fixed fallback otherwise.  The message is the
    one toast of the run and the error of the state, and the result that was
    displayed is cleared. *)
Theorem failed_call_one_message (transport : jsstring -> settled)
  (st : AppState) (reason : thrown) :
  truthy (trim (nodeName st)) = true ->
  transport (trim (nodeName st)) = Rejected reason ->
  let message :=
    match reason with
    | ConnectError rawMessage _ => rawMessage
    | Error message => message
    | NotAnError => JS "无法获取节点配置"
    end in
  toasts (submit transport st).1 = [toast_error message]
  /\ errorMessage (submit transport st).2 = Some message
  /\ response (submit transport st).2 = None.
Proof.
  intros Hname Hcall message.
  rewrite submit_state, (submit_rejected transport st reason Hname Hcall).
  fold message. repeat split.
Qed.

Lemma failed_call_one_message_witness :
  truthy (trim (nodeName (typed (JS "edge-09")))) = true
  /\ (fun _ => Rejected node_not_found) (trim (nodeName (typed (JS "edge-09"))))
     = Rejected node_not_found
  /\ toasts (submit (fun _ => Rejected node_not_found) (typed (JS "edge-09"))).1
     = [toast_error (JS "node not found")]
  /\ errorMessage (submit (fun _ => Rejected node_not_found)
                     (typed (JS "edge-09"))).2
     = Some (JS "node not found")
  /\ response (submit (fun _ => Rejected node_not_found)
                 (typed (JS "edge-09"))).2 = None.
Proof.
  split; [reflexivity|]. split; [reflexivity|].
  apply (failed_call_one_message (fun _ => Rejected node_not_found)
           (typed (JS "edge-09")) node_not_found); reflexivity.
Defined.

(** C2. A name that is empty or white space only is rejected locally: the
    transport is not invoked, the fixed validation message is reported, and
    the result that was displayed is cleared. *)
Theorem blank_name_rejected_locally (transport : jsstring -> settled)
  (st : AppState) :
  forallb is_trimmable (nodeName st) = true ->
  calls (submit transport st).1 = []
  /\ toasts (submit transport st).1 = [toast_error (JS "请输入节点名称")]
  /\ errorMessage (submit transport st).2 = Some (JS "请输入节点名称")
  /\ response (submit transport st).2 = None.
Proof.
  intros Hblank. apply trim_nil in Hblank.
  assert (Hname : truthy (trim (nodeName st)) = false)
    by (rewrite Hblank; reflexivity).
  rewrite submit_state, (submit_rejected_locally transport st Hname).
  repeat split.
Qed.

Lemma blank_name_rejected_locally_witness :
  forallb is_trimmable (nodeName (typed [32; 9; 0x3000; 10])) = true
  /\ calls (submit (fun _ => Fulfilled edge_02) (typed [32; 9; 0x3000; 10])).1
     = []
  /\ response (submit (fun _ => Fulfilled edge_02)
                 (typed [32; 9; 0x3000; 10])).2 = None.
Proof.
  split; [reflexivity|].
  destruct (blank_name_rejected_locally (fun _ => Fulfilled edge_02)
              (typed [32; 9; 0x3000; 10]) eq_refl) as (H1 & _ & _ & H4).
  split; assumption.
Defined.

(** C3 as stated fails, in three ways.  A number too large for a double
    is valid JSON, is parsed as an infinity and is displayed as [null],
    which reads back as the null value.  A negative zero is displayed as
    [0], which reads back as the positive zero.  And on arrays nested
    deeper than the stack of the engine allows, [JSON.stringify] throws
    inside the [try], so that the configuration is displayed as it came
    and is not serialized again. *)
Lemma round_trip_fails :
  ~ displays_round_trip (JSON.stack_of 1000)
      {| mode := 1; configJson := JS "1e400" |}
  /\ ~ displays_round_trip (JSON.stack_of 1000)
         {| mode := 1; configJson := JS "-0" |}
  /\ ~ displays_round_trip (JSON.stack_of 1000)
         {| mode := 1;
            configJson :=
              concat (repeat (JS "[") 1001) ++ concat (repeat (JS "]") 1001)
         |}.
Proof.
  split; [|split].
  - intros H.
    assert (Hvalid : JSON.json_text (JS "1e400")).
    { apply parse_json_text. eexists. vm_compute. reflexivity. }
    destruct (H Hvalid) as (v & v' & Hparse & _ & Hback & Heq).
    vm_compute in Hparse. injection Hparse as <-.
    vm_compute in Hback. injection Hback as <-. discriminate Heq.
  - intros H.
    assert (Hvalid : JSON.json_text (JS "-0")).
    { apply parse_json_text. eexists. vm_compute. reflexivity. }
    destruct (H Hvalid) as (v & v' & Hparse & _ & Hback & Heq).
    vm_compute in Hparse. injection Hparse as <-.
    vm_compute in Hback. injection Hback as <-. discriminate Heq.
  - intros H.
    assert (Hvalid :
      JSON.json_text
        (concat (repeat (JS "[") 1001) ++ concat (repeat (JS "]") 1001))).
    { apply parse_json_text. eexists. vm_compute. reflexivity. }
    destruct (H Hvalid) as (v & v' & Hparse & Hpretty & _ & _).
    simpl configJson in Hparse, Hpretty.
    assert (Hdeep : JSON.stack_of 1000 v = false).
    { vm_compute in Hparse. injection Hparse as <-. vm_compute. reflexivity. }
    rewrite (details_of_unserialized _ _ _ _ Hparse Hdeep) in Hpretty.
    simpl pretty in Hpretty.
    assert (Hline : nth 1 (JSON.stringify v 2) 0 = 10).
    { vm_compute in Hparse. injection Hparse as <-.
      apply stringify_array_line. lia. }
    rewrite <- Hpretty in Hline. vm_compute in Hline. discriminate Hline.
Qed.

(** C3, amended. For every [configJson] that is syntactically valid JSON,
    whatever its shape: when [JSON.stringify] returns on its value, the
    displayed text is the serialization of the value with 2-space
    indentation and is not flagged; when [JSON.stringify] throws, the
    displayed text is the configuration as it came, flagged as not JSON.
    When no number of the value is too large for a double and none is a
    negative zero, parsing the displayed text gives a value deep-equal to
    the value of the original. *)
Theorem round_trip_of_finite_json (serializes : JSON.value -> bool)
  (pm : PortMapping) :
  JSON.json_text (configJson pm) ->
  exists v : JSON.value,
    JSON.parse (configJson pm) = Some v
    /\ (serializes v = true ->
        pretty (portMappingDetails serializes (Some pm))
        = JSON.stringify v 2
        /\ isJson (portMappingDetails serializes (Some pm)) = true)
    /\ (serializes v = false ->
        pretty (portMappingDetails serializes (Some pm)) = configJson pm
        /\ isJson (portMappingDetails serializes (Some pm)) = false)
    /\ (JSON.all_finite v = true -> JSON.no_negative_zero v = true ->
        exists v' : JSON.value,
          JSON.parse (pretty (portMappingDetails serializes (Some pm)))
          = Some v'
          /\ JSON.deep_equal v' v = true).
Proof.
  intros Hvalid. apply parse_json_text in Hvalid as [v Hparse]. exists v.
  assert (Hwf := parse_well_formed _ _ Hparse).
  split; [exact Hparse|]. destruct pm as [m text]. simpl in Hparse.
  destruct (serializes v) eqn:Hser.
  - rewrite (details_of_parsed serializes m text v Hparse Hser). simpl.
    split; [intros _; split; reflexivity|].
    split; [discriminate|].
    intros Hfin Hzero. exists v. split; [|apply deep_equal_refl; exact Hwf].
    rewrite (parse_stringify v 2 ltac:(lia) Hwf Hfin).
    rewrite (positive_zeros_id v Hzero). reflexivity.
  - rewrite (details_of_unserialized serializes m text v Hparse Hser). simpl.
    split; [discriminate|].
    split; [intros _; split; reflexivity|].
    intros _ _. exists v. split; [exact Hparse|].
    apply deep_equal_refl. exact Hwf.
Qed.

Lemma round_trip_of_finite_json_witness :
  JSON.json_text (JS "{" ++ JSON.quote (JS "port") ++ JS ":8080}")
  /\ pretty (portMappingDetails (JSON.stack_of 1000) (portMapping edge_01))
     = JS "{" ++ [10] ++ JS "  " ++ JSON.quote (JS "port") ++ JS ": 8080"
       ++ [10] ++ JS "}"
  /\ exists v' : JSON.value,
       JSON.parse
         (pretty (portMappingDetails (JSON.stack_of 1000)
                    (portMapping edge_01)))
       = Some v'
       /\ JSON.deep_equal v'
            (JSON.JObject
               [(JS "port", JSON.JNumber (JSON.of_decimal false 8080 0))])
          = true.
Proof.
  assert (Hvalid :
    JSON.json_text (JS "{" ++ JSON.quote (JS "port") ++ JS ":8080}")).
  { apply parse_json_text. eexists. vm_compute. reflexivity. }
  split; [exact Hvalid|].
  destruct (round_trip_of_finite_json (JSON.stack_of 1000)
              {| mode := 1;
                 configJson := JS "{" ++ JSON.quote (JS "port") ++ JS ":8080}" |}
              Hvalid) as (v & Hparse & Hserialized & _ & Hback).
  vm_compute in Hparse. injection Hparse as <-.
  split.
  - destruct Hserialized as [Hpretty _]; [vm_compute; reflexivity|].
    etransitivity; [exact Hpretty|vm_compute; reflexivity].
  - apply Hback; vm_compute; reflexivity.
Defined.

(** C4 as stated fails: the empty string is not valid JSON, and for it the
    placeholder is displayed and the flag is not set. *)
Lemma raw_display_fails_on_empty :
  ~ JSON.json_text (configJson {| mode := 2; configJson := [] |})
  /\ ~ displays_raw (JSON.stack_of 1000) {| mode := 2; configJson := [] |}.
Proof.
  split.
  - intros H. apply parse_json_text in H as [v H]. discriminate H.
  - intros [Hpretty _]. discriminate Hpretty.
Qed.

(** C4, amended. For every non-empty [configJson] that is not syntactically
    valid JSON, the displayed text is the original string exactly and the
    "not JSON" flag is set. *)
Theorem raw_display_of_invalid_json (serializes : JSON.value -> bool)
  (pm : PortMapping) :
  configJson pm <> [] ->
  ~ JSON.json_text (configJson pm) ->
  displays_raw serializes pm
  /\ hasConfig (portMappingDetails serializes (Some pm)) = true.
Proof.
  intros Hne Hinvalid.
  assert (Hparse : JSON.parse (configJson pm) = None).
  { destruct (JSON.parse (configJson pm)) as [v|] eqn:E; [|reflexivity].
    exfalso. apply Hinvalid. apply parse_json_text. eauto. }
  destruct pm as [m text]. simpl in Hne, Hparse. unfold displays_raw.
  rewrite (details_of_invalid serializes m text Hne Hparse). repeat split.
Qed.

Lemma raw_display_of_invalid_json_witness :
  JS "not json" <> []
  /\ ~ JSON.json_text (JS "not json")
  /\ pretty (portMappingDetails (JSON.stack_of 1000) (portMapping edge_04))
     = JS "not json"
  /\ isJson (portMappingDetails (JSON.stack_of 1000) (portMapping edge_04))
     = false.
Proof.
  assert (Hinvalid : ~ JSON.json_text (JS "not json")).
  { intros H. apply parse_json_text in H as [v H]. vm_compute in H.
    discriminate H. }
  split; [discriminate|]. split; [exact Hinvalid|].
  destruct (raw_display_of_invalid_json (JSON.stack_of 1000)
              {| mode := 2; configJson := JS "not json" |}
              ltac:(discriminate) Hinvalid)
    as [[Hpretty Hflag] _].
  split; assumption.
Defined.

(** C5. A port mapping whose [configJson] is the empty string is in the
    "present but empty" state: the details hold the fixed placeholder and
    are not flagged, and the view shows the placeholder without the
    "not JSON" warning. *)
Theorem empty_config_placeholder (UNSPECIFIED SERVER CLIENT m : Z)
  (serializes : JSON.value -> bool) (nm : jsstring) (st : AppState) :
  portMappingDetails serializes (Some {| mode := m; configJson := [] |})
  = {| hasConfig := true; isJson := true; pretty := JS "（空配置）" |}
  /\ resultCard
       (render UNSPECIFIED SERVER CLIENT serializes
          {| nodeName := nodeName st; loading := loading st;
             errorMessage := errorMessage st;
             response :=
               Some {| name := nm;
                       portMapping := Some {| mode := m; configJson := [] |} |}
          |})
     = ResultLoaded nm
         (PortMappingPanel (getModeLabel UNSPECIFIED SERVER CLIENT m)
            (ConfigContent (JS "（空配置）") false)).
Proof. split; reflexivity. Qed.

(** C6. The label of a mode is defined for every mode: "Unspecified",
    "Server" and "Client" for the three members of the enum, and "Unknown"
    for every other value. *)
Theorem mode_label_total (UNSPECIFIED SERVER CLIENT : Z) :
  UNSPECIFIED <> SERVER -> UNSPECIFIED <> CLIENT -> SERVER <> CLIENT ->
  getModeLabel UNSPECIFIED SERVER CLIENT UNSPECIFIED = JS "Unspecified"
  /\ getModeLabel UNSPECIFIED SERVER CLIENT SERVER = JS "Server"
  /\ getModeLabel UNSPECIFIED SERVER CLIENT CLIENT = JS "Client"
  /\ forall mode : Z,
       mode <> UNSPECIFIED -> mode <> SERVER -> mode <> CLIENT ->
       getModeLabel UNSPECIFIED SERVER CLIENT mode = JS "Unknown".
Proof.
  intros Hus Huc Hsc. unfold getModeLabel, MODE_LABELS. repeat split.
  - rewrite lookup_insert_ne, lookup_insert_ne, lookup_insert_eq by congruence.
    reflexivity.
  - rewrite lookup_insert_ne, lookup_insert_eq by congruence. reflexivity.
  - rewrite lookup_insert_eq. reflexivity.
  - intros mode Hu Hs Hc.
    rewrite !lookup_insert_ne, lookup_empty by congruence. reflexivity.
Qed.

Lemma mode_label_total_witness :
  (0 <> 1)%Z /\ (0 <> 2)%Z /\ (1 <> 2)%Z
  /\ getModeLabel 0 1 2 1 = JS "Server"
  /\ getModeLabel 0 1 2 7 = JS "Unknown".
Proof.
  split; [discriminate|]. split; [discriminate|]. split; [discriminate|].
  destruct (mode_label_total 0 1 2 ltac:(discriminate) ltac:(discriminate)
              ltac:(discriminate)) as (_ & Hs & _ & Hunknown).
  split; [exact Hs|].
  apply (Hunknown 7%Z); discriminate.
Defined.

(** C7. In every submission that reaches the remote call the in-flight flag
    is set before the call is dispatched and is cleared when the call has
    settled, whether it was fulfilled or rejected: clearing it is the last
    thing the handler does, and it is not set in the state the submission
    ends in. *)
Theorem loading_brackets_the_call (transport : jsstring -> settled)
  (st : AppState) :
  truthy (trim (nodeName st)) = true ->
  exists before after : list event,
    (submit transport st).1
    = before ++ Called (trim (nodeName st)) :: after
    /\ calls before = [] /\ calls after = []
    /\ loading (state_after st before) = true
    /\ last (submit transport st).1 = Some (Did (setLoading false))
    /\ loading (submit transport st).2 = false.
Proof.
  intros Hname. rewrite submit_state.
  exists [Did preventDefault; Did (setLoading true); Did (setErrorMessage None)].
  destruct (transport (trim (nodeName st))) as [result|reason] eqn:Hcall.
  - rewrite (submit_fulfilled transport st result Hname Hcall).
    eexists. split; [reflexivity|].
    destruct (bool_decide (is_Some (portMapping result))); repeat split.
  - rewrite (submit_rejected transport st reason Hname Hcall).
    eexists. split; [reflexivity|]. repeat split.
Qed.

Lemma loading_brackets_the_call_witness :
  truthy (trim (nodeName (typed (JS "edge-02")))) = true
  /\ last (submit (fun _ => Fulfilled edge_02) (typed (JS "edge-02"))).1
     = Some (Did (setLoading false))
  /\ loading (submit (fun _ => Rejected node_not_found)
                (typed (JS "edge-02"))).2 = false.
Proof.
  split; [reflexivity|]. split.
  - destruct (loading_brackets_the_call (fun _ => Fulfilled edge_02)
                (typed (JS "edge-02")) eq_refl)
      as (before & after & _ & _ & _ & _ & Hlast & _).
    exact Hlast.
  - destruct (loading_brackets_the_call (fun _ => Rejected node_not_found)
                (typed (JS "edge-02")) eq_refl)
      as (before & after & _ & _ & _ & _ & _ & Hfinal).
    exact Hfinal.
Defined.

(** C8. A successful response without [portMapping] becomes the displayed
    result, the view shows the "no port-mapping configured" state, and an
    informational notice is raised after the success notice; no error is
    reported. *)
Theorem success_without_port_mapping (UNSPECIFIED SERVER CLIENT : Z)
  (serializes : JSON.value -> bool)
  (transport : jsstring -> settled) (st : AppState)
  (result : GetNodeConfigResponse) :
  truthy (trim (nodeName st)) = true ->
  transport (trim (nodeName st)) = Fulfilled result ->
  portMapping result = None ->
  response (submit transport st).2 = Some result
  /\ hasConfig (portMappingDetails serializes (portMapping result)) = false
  /\ resultCard (render UNSPECIFIED SERVER CLIENT serializes
           (submit transport st).2)
     = ResultLoaded (name result) NoPortMapping
  /\ toasts (submit transport st).1
     = [toast_success
          (JS "已加载节点「" ++ or_else (name result) (trim (nodeName st))
           ++ JS "」的配置");
        toast_info (JS "该节点没有配置端口映射")]
  /\ errorMessage (submit transport st).2 = None
  /\ alert (render UNSPECIFIED SERVER CLIENT serializes
           (submit transport st).2) = None.
Proof.
  intros Hname Hcall Hnone.
  rewrite submit_state, (submit_fulfilled transport st result Hname Hcall).
  rewrite Hnone.
  replace (bool_decide (is_Some (@None PortMapping))) with false
    by (symmetry; apply bool_decide_eq_false_2; intros [x Hx]; discriminate).
  unfold render. simpl. rewrite Hnone. repeat split.
Qed.

Lemma success_without_port_mapping_witness :
  truthy (trim (nodeName (typed (JS "edge-02")))) = true
  /\ portMapping edge_02 = None
  /\ resultCard (render 0 1 2 (JSON.stack_of 1000)
           (submit (fun _ => Fulfilled edge_02)
                                 (typed (JS "edge-02"))).2)
     = ResultLoaded (JS "edge-02") NoPortMapping
  /\ toast_info (JS "该节点没有配置端口映射")
     ∈ toasts (submit (fun _ => Fulfilled edge_02) (typed (JS "edge-02"))).1.
Proof.
  split; [reflexivity|]. split; [reflexivity|].
  destruct (success_without_port_mapping 0 1 2 (JSON.stack_of 1000)
           (fun _ => Fulfilled edge_02)
              (typed (JS "edge-02")) edge_02 eq_refl eq_refl eq_refl)
    as (_ & _ & Hcard & Htoasts & _).
  split; [exact Hcard|]. rewrite Htoasts.
  apply list_elem_of_further, list_elem_of_here.
Defined.

(** C9. When the trimmed name is not empty the transport is invoked once,
    with the trimmed name: the name as typed without the white space at its
    two ends. *)
Theorem transport_receives_trimmed_name (transport : jsstring -> settled)
  (st : AppState) :
  truthy (trim (nodeName st)) = true ->
  calls (submit transport st).1 = [trim (nodeName st)]
  /\ exists before after : jsstring,
       nodeName st = before ++ trim (nodeName st) ++ after
       /\ forallb is_trimmable before = true
       /\ forallb is_trimmable after = true
       /\ (exists c r, trim (nodeName st) = c :: r /\ is_trimmable c = false)
       /\ (exists c r, rev (trim (nodeName st)) = c :: r
                       /\ is_trimmable c = false).
Proof.
  intros Hname. split.
  - destruct (transport (trim (nodeName st))) as [result|reason] eqn:Hcall.
    + rewrite (submit_fulfilled transport st result Hname Hcall).
      destruct (bool_decide (is_Some (portMapping result))); reflexivity.
    + rewrite (submit_rejected transport st reason Hname Hcall). reflexivity.
  - destruct (trim_spec (nodeName st))
      as (before & after & Hsplit & Hbefore & Hafter & Hfirst & Hlast).
    exists before, after. repeat split; try assumption.
    + destruct (trim (nodeName st)) as [|c r]; [discriminate|]. eauto.
    + destruct (trim (nodeName st)) as [|c r] eqn:E; [discriminate|].
      destruct (rev (c :: r)) as [|d r'] eqn:E'; [|eauto].
      apply (f_equal (@rev N)) in E'. rewrite rev_involutive in E'.
      discriminate.
Qed.

Lemma transport_receives_trimmed_name_witness :
  truthy (trim (nodeName (typed (JS "  edge-01  ")))) = true
  /\ calls (submit (fun _ => Fulfilled edge_01) (typed (JS "  edge-01  "))).1
     = [JS "edge-01"].
Proof.
  split; [reflexivity|].
  destruct (transport_receives_trimmed_name (fun _ => Fulfilled edge_01)
              (typed (JS "  edge-01  ")) eq_refl) as [Hcalls _].
  exact Hcalls.
Defined.

(** C10. Whatever the state a submission starts in and however it ends
    (rejected locally, fulfilled or rejected), the state it ends in does not
    hold both an error message and a displayed result, so the view does not
    show the failure alert next to a result. *)
Theorem error_and_result_exclusive (UNSPECIFIED SERVER CLIENT : Z)
  (serializes : JSON.value -> bool)
  (transport : jsstring -> settled) (st : AppState) :
  (errorMessage (submit transport st).2 = None
   \/ response (submit transport st).2 = None)
  /\ (alert (render UNSPECIFIED SERVER CLIENT serializes
           (submit transport st).2) = None
      \/ resultCard (render UNSPECIFIED SERVER CLIENT serializes
               (submit transport st).2)
         = ResultPlaceholder).
Proof.
  rewrite submit_state.
  destruct (truthy (trim (nodeName st))) eqn:Hname.
  - destruct (transport (trim (nodeName st))) as [result|reason] eqn:Hcall.
    + rewrite (submit_fulfilled transport st result Hname Hcall).
      destruct (bool_decide (is_Some (portMapping result)));
        split; left; reflexivity.
    + rewrite (submit_rejected transport st reason Hname Hcall).
      split; right; reflexivity.
  - rewrite (submit_rejected_locally transport st Hname).
    split; right; reflexivity.
Qed.

(** * Further properties of the component *)

(** X1. Whatever the name and however the transport settles the call, the
    handler first prevents the default submission of the form and returns
    normally: no fault of the call escapes it. *)
Theorem handler_never_throws (transport : jsstring -> settled)
  (st : AppState) :
  exists tr : list event,
    exec transport (handleSubmit st) = (Did preventDefault :: tr, inl tt).
Proof.
  unfold handleSubmit. destruct (truthy (trim (nodeName st))).
  - simpl. destruct (transport (trim (nodeName st))) as [result|reason].
    + simpl. destruct (bool_decide (is_Some (portMapping result)));
        eexists; reflexivity.
    + destruct reason; eexists; reflexivity.
  - eexists. reflexivity.
Qed.

(** X2. A successful response that has a port mapping raises the success
    notice and no other; it becomes the displayed result, no error is left,
    and the result card shows the label of the mode and the configuration,
    with the warning exactly when the configuration was not read as JSON. *)
Theorem success_with_port_mapping (UNSPECIFIED SERVER CLIENT : Z)
  (serializes : JSON.value -> bool)
  (transport : jsstring -> settled) (st : AppState)
  (result : GetNodeConfigResponse) (pm : PortMapping) :
  truthy (trim (nodeName st)) = true ->
  transport (trim (nodeName st)) = Fulfilled result ->
  portMapping result = Some pm ->
  toasts (submit transport st).1
  = [toast_success
       (JS "已加载节点「" ++ or_else (name result) (trim (nodeName st))
        ++ JS "」的配置")]
  /\ response (submit transport st).2 = Some result
  /\ errorMessage (submit transport st).2 = None
  /\ resultCard (render UNSPECIFIED SERVER CLIENT serializes
           (submit transport st).2)
     = ResultLoaded (name result)
         (PortMappingPanel (getModeLabel UNSPECIFIED SERVER CLIENT (mode pm))
            (ConfigContent (pretty (portMappingDetails serializes (Some pm)))
               (negb (isJson (portMappingDetails serializes (Some pm)))))).
Proof.
  intros Hname Hcall Hpm.
  rewrite submit_state, (submit_fulfilled transport st result Hname Hcall).
  rewrite Hpm.
  replace (bool_decide (is_Some (Some pm))) with true
    by (symmetry; apply bool_decide_eq_true_2; eauto).
  unfold render.
  cbn [state_after fold_left apply_event apply_effect app response
       errorMessage resultCard toasts omap is_toast mbind option_bind].
  rewrite Hpm. cbn [mode]. rewrite details_has_config.
  repeat split.
Qed.

Lemma success_with_port_mapping_witness :
  truthy (trim (nodeName (typed (JS "edge-04")))) = true
  /\ portMapping edge_04 = Some {| mode := 2; configJson := JS "not json" |}
  /\ toasts (submit (fun _ => Fulfilled edge_04) (typed (JS "edge-04"))).1
     = [toast_success (JS "已加载节点「edge-04」的配置")]
  /\ resultCard
       (render 0 1 2 (JSON.stack_of 1000)
          (submit (fun _ => Fulfilled edge_04) (typed (JS "edge-04"))).2)
     = ResultLoaded (JS "edge-04")
         (PortMappingPanel (JS "Client")
            (ConfigContent (JS "not json") true)).
Proof.
  split; [reflexivity|]. split; [reflexivity|].
  destruct (success_with_port_mapping 0 1 2 (JSON.stack_of 1000)
           (fun _ => Fulfilled edge_04)
              (typed (JS "edge-04")) edge_04
              {| mode := 2; configJson := JS "not json" |}
              eq_refl eq_refl eq_refl) as (Htoasts & _ & _ & Hcard).
  split; [exact Htoasts|exact Hcard].
Defined.

(** X3. When the server echoes an empty name, the success notice names the
    node by the trimmed input, the notice next to the button shows the
    "unnamed" placeholder, and the result card shows the empty name. *)
Theorem unnamed_result_fallbacks (UNSPECIFIED SERVER CLIENT : Z)
  (serializes : JSON.value -> bool)
  (transport : jsstring -> settled) (st : AppState)
  (result : GetNodeConfigResponse) :
  truthy (trim (nodeName st)) = true ->
  transport (trim (nodeName st)) = Fulfilled result ->
  name result = [] ->
  head (toasts (submit transport st).1)
  = Some (toast_success
            (JS "已加载节点「" ++ trim (nodeName st)
             ++ JS "」的配置"))
  /\ loadedNotice (render UNSPECIFIED SERVER CLIENT serializes
           (submit transport st).2)
     = Some (JS "（未命名）")
  /\ exists mapping : PortMappingView,
       resultCard (render UNSPECIFIED SERVER CLIENT serializes
                (submit transport st).2)
       = ResultLoaded [] mapping.
Proof.
  intros Hname Hcall Hempty.
  rewrite submit_state, (submit_fulfilled transport st result Hname Hcall).
  unfold render.
  destruct (bool_decide (is_Some (portMapping result))); simpl;
    rewrite Hempty; (split; [reflexivity|]); (split; [reflexivity|]);
    eexists; reflexivity.
Qed.

Lemma unnamed_result_fallbacks_witness :
  truthy (trim (nodeName (typed (JS " edge-07")))) = true
  /\ head (toasts
             (submit (fun _ => Fulfilled {| name := []; portMapping := None |})
                (typed (JS " edge-07"))).1)
     = Some (toast_success (JS "已加载节点「edge-07」的配置"))
  /\ loadedNotice
       (render 0 1 2 (JSON.stack_of 1000)
          (submit (fun _ => Fulfilled {| name := []; portMapping := None |})
             (typed (JS " edge-07"))).2)
     = Some (JS "（未命名）").
Proof.
  split; [reflexivity|].
  destruct (unnamed_result_fallbacks 0 1 2 (JSON.stack_of 1000)
              (fun _ => Fulfilled {| name := []; portMapping := None |})
              (typed (JS " edge-07")) {| name := []; portMapping := None |}
              eq_refl eq_refl eq_refl) as (Htoast & Hnotice & _).
  split; [exact Htoast|exact Hnotice].
Defined.

(** X4. A submission replaces what was displayed, it does not merge: what
    the handler does, the error message it leaves and the result it leaves
    depend on the name only, not on the error, the result or the in-flight
    flag of the state it starts in. *)
Theorem submission_replaces_previous_state (transport : jsstring -> settled)
  (st st' : AppState) :
  nodeName st = nodeName st' ->
  (submit transport st).1 = (submit transport st').1
  /\ errorMessage (submit transport st).2
     = errorMessage (submit transport st').2
  /\ response (submit transport st).2 = response (submit transport st').2.
Proof.
  intros Hsame.
  assert (Htrim : trim (nodeName st) = trim (nodeName st'))
    by (rewrite Hsame; reflexivity).
  split; [apply submit_trace_trimmed; exact Htrim|].
  destruct (submit_final_state transport st') as (e & r & Hfinal & Hany).
  destruct (Hany st Htrim) as [He Hr].
  rewrite He, Hr, Hfinal. split; reflexivity.
Qed.

Lemma submission_replaces_previous_state_witness :
  nodeName (typed (JS "edge-02"))
  = nodeName (setNodeName (JS "edge-02") initialState)
  /\ response (submit (fun _ => Rejected node_not_found)
                 (typed (JS "edge-02"))).2
     = response (submit (fun _ => Rejected node_not_found)
                   (setNodeName (JS "edge-02") initialState)).2.
Proof.
  split; [reflexivity|].
  destruct (submission_replaces_previous_state
              (fun _ => Rejected node_not_found) (typed (JS "edge-02"))
              (setNodeName (JS "edge-02") initialState) eq_refl)
    as (_ & _ & Hresponse).
  exact Hresponse.
Defined.

(** X5. While the call is in flight the form shows no failure alert, its
    button is disabled, and the result of the previous query is still
    displayed: it is replaced or cleared only when the call has settled. *)
Theorem view_while_in_flight (UNSPECIFIED SERVER CLIENT : Z)
  (serializes : JSON.value -> bool)
  (transport : jsstring -> settled) (st : AppState) :
  truthy (trim (nodeName st)) = true ->
  exists before after : list event,
    (submit transport st).1
    = before ++ Called (trim (nodeName st)) :: after
    /\ calls before = []
    /\ render UNSPECIFIED SERVER CLIENT serializes (state_after st before)
       = {| alert := None;
            submitDisabled := true;
            loadedNotice :=
              loadedNotice (render UNSPECIFIED SERVER CLIENT serializes st);
            resultCard :=
              resultCard (render UNSPECIFIED SERVER CLIENT serializes st) |}.
Proof.
  intros Hname.
  exists [Did preventDefault; Did (setLoading true);
          Did (setErrorMessage None)].
  destruct (transport (trim (nodeName st))) as [result|reason] eqn:Hcall.
  - rewrite (submit_fulfilled transport st result Hname Hcall).
    eexists. repeat split.
  - rewrite (submit_rejected transport st reason Hname Hcall).
    eexists. repeat split.
Qed.

Lemma view_while_in_flight_witness :
  truthy (trim (nodeName (typed (JS "edge-02")))) = true
  /\ exists before after : list event,
       (submit (fun _ => Fulfilled edge_02) (typed (JS "edge-02"))).1
       = before ++ Called (JS "edge-02") :: after
       /\ resultCard (render 0 1 2 (JSON.stack_of 1000)
                (state_after (typed (JS "edge-02")) before))
          = resultCard
              (render 0 1 2 (JSON.stack_of 1000) (typed (JS "edge-02"))).
Proof.
  split; [reflexivity|].
  destruct (view_while_in_flight 0 1 2 (JSON.stack_of 1000)
           (fun _ => Fulfilled edge_02)
              (typed (JS "edge-02")) eq_refl)
    as (before & after & Htrace & _ & Hview).
  exists before, after. split; [exact Htrace|].
  rewrite Hview. reflexivity.
Defined.

(** X6. After a failed call the page shows the failure alert exactly when
    the message taken from the fault is not the empty string; with an empty
    message there is neither an alert nor a result, and the toast is the
    only sign of the failure. *)
Theorem failure_alert_needs_message (UNSPECIFIED SERVER CLIENT : Z)
  (serializes : JSON.value -> bool)
  (transport : jsstring -> settled) (st : AppState) (reason : thrown) :
  truthy (trim (nodeName st)) = true ->
  transport (trim (nodeName st)) = Rejected reason ->
  let message :=
    match reason with
    | ConnectError rawMessage _ => rawMessage
    | Error message => message
    | NotAnError => JS "无法获取节点配置"
    end in
  render UNSPECIFIED SERVER CLIENT serializes (submit transport st).2
  = {| alert := if truthy message then Some message else None;
       submitDisabled := false;
       loadedNotice := None;
       resultCard := ResultPlaceholder |}
  /\ (message = [] ->
      alert (render UNSPECIFIED SERVER CLIENT serializes
               (submit transport st).2) = None
      /\ toasts (submit transport st).1 = [toast_error []]).
Proof.
  intros Hname Hcall message.
  rewrite submit_state, (submit_rejected transport st reason Hname Hcall).
  fold message. split; [reflexivity|].
  intros ->. split; reflexivity.
Qed.

Lemma failure_alert_needs_message_witness :
  truthy (trim (nodeName (typed (JS "edge-09")))) = true
  /\ render 0 1 2 (JSON.stack_of 1000)
       (submit (fun _ => Rejected (ConnectError [] (JS "[unknown]")))
          (typed (JS "edge-09"))).2
     = {| alert := None; submitDisabled := false; loadedNotice := None;
          resultCard := ResultPlaceholder |}.
Proof.
  split; [reflexivity|].
  destruct (failure_alert_needs_message 0 1 2 (JSON.stack_of 1000)
              (fun _ => Rejected (ConnectError [] (JS "[unknown]")))
              (typed (JS "edge-09")) (ConnectError [] (JS "[unknown]"))
              eq_refl eq_refl) as [Hview _].
  exact Hview.
Defined.

(** X7. A submission never changes the name in the input, and it leaves
    the in-flight flag cleared whenever it started with the flag cleared:
    after every outcome the button is enabled for another submission. *)
Theorem submission_leaves_form_ready (UNSPECIFIED SERVER CLIENT : Z)
  (serializes : JSON.value -> bool)
  (transport : jsstring -> settled) (st : AppState) :
  loading st = false ->
  nodeName (submit transport st).2 = nodeName st
  /\ loading (submit transport st).2 = false
  /\ submitDisabled
       (render UNSPECIFIED SERVER CLIENT serializes
                (submit transport st).2) = false.
Proof.
  intros Hidle.
  destruct (submit_final_state transport st) as (e & r & Hfinal & _).
  rewrite Hfinal. unfold render. simpl. rewrite Hidle.
  destruct (truthy (trim (nodeName st))); repeat split.
Qed.

Lemma submission_leaves_form_ready_witness :
  loading (typed (JS "   ")) = false
  /\ nodeName (submit (fun _ => Fulfilled edge_02) (typed (JS "   "))).2
     = JS "   "
  /\ loading (submit (fun _ => Fulfilled edge_02) (typed (JS "   "))).2
     = false.
Proof.
  split; [reflexivity|].
  destruct (submission_leaves_form_ready 0 1 2 (JSON.stack_of 1000)
           (fun _ => Fulfilled edge_02)
              (typed (JS "   ")) eq_refl) as (Hname & Hloading & _).
  split; [exact Hname|exact Hloading].
Defined.

(** X8. White space typed before or after a name changes nothing of a
    submission but the text left in the input: the same request is sent,
    the same notices are raised, and the same error or result is left. *)
Theorem submission_ignores_surrounding_white_space
  (transport : jsstring -> settled) (st : AppState)
  (before after : jsstring) :
  forallb is_trimmable before = true ->
  forallb is_trimmable after = true ->
  let padded := setNodeName (before ++ nodeName st ++ after) st in
  (submit transport padded).1 = (submit transport st).1
  /\ errorMessage (submit transport padded).2
     = errorMessage (submit transport st).2
  /\ response (submit transport padded).2 = response (submit transport st).2.
Proof.
  intros Hb Ha padded.
  assert (Htrim : trim (nodeName padded) = trim (nodeName st))
    by (apply trim_padding; assumption).
  split; [apply submit_trace_trimmed; exact Htrim|].
  destruct (submit_final_state transport st) as (e & r & Hfinal & Hany).
  destruct (Hany padded Htrim) as [He Hr].
  rewrite He, Hr, Hfinal. split; reflexivity.
Qed.

Lemma submission_ignores_surrounding_white_space_witness :
  forallb is_trimmable [9; 32] = true
  /\ forallb is_trimmable [0xA0; 10] = true
  /\ calls (submit (fun _ => Fulfilled edge_02)
              (setNodeName ([9; 32] ++ JS "edge-02" ++ [0xA0; 10])
                 (typed (JS "edge-02")))).1
     = [JS "edge-02"].
Proof.
  split; [reflexivity|]. split; [reflexivity|].
  destruct (submission_ignores_surrounding_white_space
              (fun _ => Fulfilled edge_02) (typed (JS "edge-02"))
              [9; 32] [0xA0; 10] eq_refl eq_refl) as (Htrace & _ & _).
  exact (f_equal calls Htrace).
Defined.

(** X9. Every submission ends in one of two ways, and the notice agrees
    with the state: either an error message is left, the one notice is the
    error toast with that message and no result is left; or no error is
    left, a result is stored and the first notice is the success toast that
    names it. *)
Theorem notice_matches_state (transport : jsstring -> settled)
  (st : AppState) :
  match errorMessage (submit transport st).2 with
  | Some m =>
      toasts (submit transport st).1 = [toast_error m]
      /\ response (submit transport st).2 = None
  | None =>
      exists result : GetNodeConfigResponse,
        response (submit transport st).2 = Some result
        /\ head (toasts (submit transport st).1)
           = Some (toast_success
                     (JS "已加载节点「"
                      ++ or_else (name result) (trim (nodeName st))
                      ++ JS "」的配置"))
  end.
Proof.
  rewrite submit_state.
  destruct (truthy (trim (nodeName st))) eqn:Hname.
  - destruct (transport (trim (nodeName st))) as [result|reason] eqn:Hcall.
    + rewrite (submit_fulfilled transport st result Hname Hcall).
      destruct (bool_decide (is_Some (portMapping result)));
        simpl; exists result; split; reflexivity.
    + rewrite (submit_rejected transport st reason Hname Hcall).
      simpl. split; reflexivity.
  - rewrite (submit_rejected_locally transport st Hname).
    simpl. split; reflexivity.
Qed.

(** X10. After any number of queries, each typed and submitted when the
    one before has settled, the page shows the outcome of the last one
    only: the error and the result are those that the last query gives on
    a fresh page, the in-flight flag is cleared, and the input holds the
    name typed last. *)
Theorem session_shows_last_query (qs : list query) (q : query) :
  errorMessage (session (qs ++ [q]))
  = errorMessage (run_query initialState q)
  /\ response (session (qs ++ [q])) = response (run_query initialState q)
  /\ loading (session (qs ++ [q])) = false
  /\ nodeName (session (qs ++ [q])) = typedName q.
Proof.
  assert (Hlast : session (qs ++ [q]) = run_query (session qs) q)
    by (unfold session; rewrite fold_left_app; reflexivity).
  rewrite Hlast. unfold run_query.
  destruct (submit_final_state (outcome q)
              (setNodeName (typedName q) (session qs)))
    as (e & r & Hfinal & Hany).
  destruct (Hany (setNodeName (typedName q) initialState) eq_refl) as [He Hr].
  rewrite He, Hr, Hfinal.
  cbn [errorMessage response loading nodeName setNodeName].
  rewrite session_idle.
  destruct (truthy (trim (typedName q))); repeat split.
Qed.

(** X11. Whenever the result card shows a port mapping it shows a
    configuration text, and the text is not empty: the "no detailed
    configuration" notice of the card is never displayed. *)
Theorem config_text_always_shown (UNSPECIFIED SERVER CLIENT : Z)
  (serializes : JSON.value -> bool)
  (st : AppState) (nm label : jsstring) (config : ConfigView) :
  resultCard (render UNSPECIFIED SERVER CLIENT serializes st)
  = ResultLoaded nm (PortMappingPanel label config) ->
  exists (text : jsstring) (warning : bool),
    config = ConfigContent text warning /\ text <> [].
Proof.
  unfold render. destruct (response st) as [r|]; [|discriminate].
  simpl. destruct (portMapping r) as [[m text]|]; [|discriminate].
  destruct text as [|c s].
  - simpl. intros [= _ _ <-]. eexists _, _. split; [reflexivity|].
    vm_compute. discriminate.
  - destruct (JSON.parse (c :: s)) as [v|] eqn:Hparse.
    + destruct (serializes v) eqn:Hser.
      * rewrite (details_of_parsed serializes m (c :: s) v Hparse Hser).
        simpl. intros [= _ _ <-]. eexists _, _. split; [reflexivity|].
        apply serialize_nonempty.
      * rewrite (details_of_unserialized serializes m (c :: s) v Hparse Hser).
        simpl. intros [= _ _ <-]. eexists _, _. split; [reflexivity|].
        discriminate.
    + rewrite (details_of_invalid serializes m (c :: s)
                 ltac:(discriminate) Hparse).
      simpl. intros [= _ _ <-]. eexists _, _. split; [reflexivity|].
      discriminate.
Qed.

Lemma config_text_always_shown_witness :
  resultCard
    (render 0 1 2 (JSON.stack_of 1000)
       {| nodeName := []; loading := false; errorMessage := None;
          response := Some edge_04 |})
  = ResultLoaded (JS "edge-04")
      (PortMappingPanel (JS "Client") (ConfigContent (JS "not json") true))
  /\ exists (text : jsstring) (warning : bool),
       ConfigContent (JS "not json") true = ConfigContent text warning
       /\ text <> [].
Proof.
  split; [vm_compute; reflexivity|].
  apply (config_text_always_shown 0 1 2 (JSON.stack_of 1000)
           {| nodeName := []; loading := false; errorMessage := None;
              response := Some edge_04 |}
           (JS "edge-04") (JS "Client")).
  vm_compute. reflexivity.
Defined.

(** X12. The "not JSON" flag is set exactly for a configuration that is
    not empty and for which the [try] block fails: it is not syntactically
    valid JSON, or it is and the engine fails to serialize its value.
    Whenever the flag is set, the text displayed is the configuration as it
    came. *)
Theorem warning_exactly_when_try_fails (serializes : JSON.value -> bool)
  (pm : PortMapping) :
  (isJson (portMappingDetails serializes (Some pm)) = false
   <-> configJson pm <> []
       /\ (~ JSON.json_text (configJson pm)
           \/ exists v : JSON.value,
                JSON.parse (configJson pm) = Some v /\ serializes v = false))
  /\ (isJson (portMappingDetails serializes (Some pm)) = false ->
      pretty (portMappingDetails serializes (Some pm)) = configJson pm).
Proof.
  destruct pm as [m text]. simpl configJson.
  destruct text as [|c s].
  - simpl. split; [split|]; try discriminate. intros [H _]. contradiction.
  - destruct (JSON.parse (c :: s)) as [v|] eqn:Hparse.
    + destruct (serializes v) eqn:Hser.
      * rewrite (details_of_parsed serializes m (c :: s) v Hparse Hser).
        simpl. split; [split|]; try discriminate.
        intros [_ [H|(v' & Hv' & Hser')]].
        -- exfalso. apply H. apply parse_json_text. eauto.
        -- congruence.
      * rewrite (details_of_unserialized serializes m (c :: s) v Hparse Hser).
        simpl. split; [split|]; try reflexivity.
        intros _. split; [discriminate|]. right. eauto.
    + rewrite (details_of_invalid serializes m (c :: s)
                 ltac:(discriminate) Hparse).
      simpl. split; [split|]; try reflexivity.
      intros _. split; [discriminate|]. left.
      intros H. apply parse_json_text in H as [v H]. congruence.
Qed.

(** X13. The text displayed for a configuration that is valid JSON is
    itself valid JSON: when it is the serialization, also if a number of
    the configuration is too large for a double and is displayed as
    [null], and when it is the configuration as it came. *)
Theorem displayed_json_is_json (serializes : JSON.value -> bool)
  (pm : PortMapping) :
  JSON.json_text (configJson pm) ->
  JSON.json_text (pretty (portMappingDetails serializes (Some pm))).
Proof.
  intros Hvalid. destruct pm as [m text]. simpl in Hvalid.
  destruct (proj1 (parse_json_text text) Hvalid) as [v Hparse].
  destruct (serializes v) eqn:Hser.
  - rewrite (details_of_parsed serializes m text v Hparse Hser). simpl.
    apply parse_json_text. eexists.
    apply parse_stringify_written; [lia|].
    apply (parse_well_formed text). exact Hparse.
  - rewrite (details_of_unserialized serializes m text v Hparse Hser).
    exact Hvalid.
Qed.

Lemma displayed_json_is_json_witness :
  JSON.json_text (JS "[1e400,-0]")
  /\ pretty (portMappingDetails (JSON.stack_of 1000)
               (Some {| mode := 1; configJson := JS "[1e400,-0]" |}))
     = JS "[" ++ [10] ++ JS "  null," ++ [10] ++ JS "  0" ++ [10] ++ JS "]"
  /\ JSON.json_text
       (pretty (portMappingDetails (JSON.stack_of 1000)
                  (Some {| mode := 1; configJson := JS "[1e400,-0]" |}))).
Proof.
  assert (Hvalid : JSON.json_text (JS "[1e400,-0]")).
  { apply parse_json_text. eexists. vm_compute. reflexivity. }
  split; [exact Hvalid|]. split; [vm_compute; reflexivity|].
  apply (displayed_json_is_json (JSON.stack_of 1000)
           {| mode := 1; configJson := JS "[1e400,-0]" |}).
  exact Hvalid.
Defined.

(** X14. Normalizing is idempotent: a configuration that is the text
    displayed for a valid JSON configuration is displayed unchanged,
    provided the engine treats the value it reads back from the displayed
    text as it treats the value of the configuration (as an engine does
    whose limit is on the nesting of the value). *)
Theorem display_is_idempotent (serializes : JSON.value -> bool)
  (pm : PortMapping) (m : Z) :
  JSON.json_text (configJson pm) ->
  (forall v v' : JSON.value,
     JSON.parse (configJson pm) = Some v ->
     JSON.parse (pretty (portMappingDetails serializes (Some pm))) = Some v' ->
     serializes v' = serializes v) ->
  portMappingDetails serializes
    (Some {| mode := m;
             configJson := pretty (portMappingDetails serializes (Some pm)) |})
  = portMappingDetails serializes (Some pm).
Proof.
  intros Hvalid Hsame. destruct pm as [m' text].
  cbn [configJson] in Hvalid, Hsame.
  destruct (proj1 (parse_json_text text) Hvalid) as [v Hparse].
  assert (Hwf := parse_well_formed _ _ Hparse).
  destruct (serializes v) eqn:Hser.
  - rewrite (details_of_parsed serializes m' text v Hparse Hser) in *.
    simpl pretty in *.
    assert (Hback := parse_stringify_written v 2 ltac:(lia) Hwf).
    rewrite (details_of_parsed serializes m (JSON.stringify v 2)
               (JSON.positive_zeros (written_value v)) Hback).
    + rewrite stringify_read_back. reflexivity.
    + rewrite (Hsame v _ Hparse Hback). exact Hser.
  - rewrite (details_of_unserialized serializes m' text v Hparse Hser).
    simpl pretty.
    apply (details_of_unserialized serializes m text v Hparse Hser).
Qed.

Lemma display_is_idempotent_witness :
  JSON.json_text (configJson {| mode := 1; configJson := JS "[1e400,-0]" |})
  /\ pretty (portMappingDetails (JSON.stack_of 1000)
               (Some {| mode := 2;
                        configJson :=
                          JS "[" ++ [10] ++ JS "  null," ++ [10] ++ JS "  0"
                          ++ [10] ++ JS "]" |}))
     = JS "[" ++ [10] ++ JS "  null," ++ [10] ++ JS "  0" ++ [10] ++ JS "]".
Proof.
  assert (Hvalid :
    JSON.json_text
      (configJson {| mode := 1; configJson := JS "[1e400,-0]" |})).
  { apply parse_json_text. eexists. vm_compute. reflexivity. }
  split; [exact Hvalid|].
  assert (Hsame : forall v v' : JSON.value,
             JSON.parse
               (configJson {| mode := 1; configJson := JS "[1e400,-0]" |})
             = Some v ->
             JSON.parse
               (pretty (portMappingDetails (JSON.stack_of 1000)
                          (Some {| mode := 1;
                                   configJson := JS "[1e400,-0]" |})))
             = Some v' ->
             JSON.stack_of 1000 v' = JSON.stack_of 1000 v).
  { intros v v' Hv Hv'. vm_compute in Hv, Hv'.
    injection Hv as <-. injection Hv' as <-. vm_compute. reflexivity. }
  assert (H := display_is_idempotent (JSON.stack_of 1000)
                 {| mode := 1; configJson := JS "[1e400,-0]" |} 2
                 Hvalid Hsame).
  apply (f_equal pretty) in H.
  exact H.
Defined.

(** X15. JSON white space before and after a configuration that is valid
    JSON and that is displayed serialized does not change what is
    displayed. *)
Theorem display_ignores_padding (serializes : JSON.value -> bool) (m : Z)
  (before text after : jsstring) :
  forallb JSON.is_json_space before = true ->
  forallb JSON.is_json_space after = true ->
  JSON.json_text text ->
  isJson (portMappingDetails serializes
            (Some {| mode := m; configJson := text |})) = true ->
  portMappingDetails serializes
    (Some {| mode := m; configJson := before ++ text ++ after |})
  = portMappingDetails serializes (Some {| mode := m; configJson := text |}).
Proof.
  intros Hb Ha Hvalid Hflag. apply parse_json_text in Hvalid as [v Hparse].
  destruct (serializes v) eqn:Hser.
  - rewrite (details_of_parsed serializes m text v Hparse Hser).
    apply details_of_parsed; [|exact Hser].
    rewrite parse_padding by assumption. exact Hparse.
  - rewrite (details_of_unserialized serializes m text v Hparse Hser)
      in Hflag.
    discriminate Hflag.
Qed.

Lemma display_ignores_padding_witness :
  forallb JSON.is_json_space [10; 32] = true
  /\ forallb JSON.is_json_space [9; 13; 10] = true
  /\ JSON.json_text (JS "[1, 2]")
  /\ isJson (portMappingDetails (JSON.stack_of 1000)
               (Some {| mode := 1; configJson := JS "[1, 2]" |})) = true
  /\ pretty (portMappingDetails (JSON.stack_of 1000)
               (Some {| mode := 1;
                        configJson :=
                          [10; 32] ++ JS "[1, 2]" ++ [9; 13; 10] |}))
     = JS "[" ++ [10] ++ JS "  1," ++ [10] ++ JS "  2" ++ [10] ++ JS "]".
Proof.
  assert (Hvalid : JSON.json_text (JS "[1, 2]")).
  { apply parse_json_text. eexists. vm_compute. reflexivity. }
  split; [reflexivity|]. split; [reflexivity|]. split; [exact Hvalid|].
  split; [vm_compute; reflexivity|].
  rewrite (display_ignores_padding (JSON.stack_of 1000) 1 [10; 32]
             (JS "[1, 2]") [9; 13; 10] eq_refl eq_refl Hvalid
             ltac:(vm_compute; reflexivity)).
  vm_compute. reflexivity.
Defined.
